(** * Outreach delivery pipeline: rate limiting, deduplication, requeue

    A shallow embedding of the sender's core modules
    (sender/src/core/{rate,util,sent-history,sender-time,json-scanner}.js,
    sender/src/outreach/{dedupe,send}.js and the JSON contact database)
    together with the properties the specification states about them.

    Conventions of the embedding
    - JavaScript numbers that hold counts and millisecond timestamps are [Z].
    - JavaScript strings are [string]: sequences of code units below 256
      (Latin-1).  Contact keys are Telegram user names, which are ASCII.
    - Mutable objects are threaded explicitly; collaborators that live
      outside the process (delivery client, report client, composer) are
      oracles that return an [outcome].
    - Writing a JSON file to disk is taken to succeed. *)

From Stdlib Require Import ZArith Ascii String Bool List Lia Sorted.
From stdpp Require Import base option list gmap strings.

Import ListNotations.
Local Open Scope string_scope.
Local Open Scope list_scope.
Local Open Scope Z_scope.

(** ** JavaScript string primitives *)

Module JsString.

Definition code (c : ascii) : N := N_of_ascii c.

(** WhiteSpace and LineTerminator code units below 256, as removed by
    [String.prototype.trim]: TAB, LF, VT, FF, CR, SP and NBSP. *)
Definition isWhiteSpace (c : ascii) : bool :=
  let n := code c in
  (((9 <=? n) && (n <=? 13)) || (n =? 32) || (n =? 160))%N.

(** [toLowerCase] on one code unit: A-Z and the Latin-1 capitals
    U+00C0..U+00DE (without the multiplication sign U+00D7). *)
Definition toLowerChar (c : ascii) : ascii :=
  let n := code c in
  if (((65 <=? n) && (n <=? 90))
      || ((192 <=? n) && (n <=? 222) && negb (n =? 215)))%N
  then ascii_of_N (n + 32) else c.

Fixpoint toLowerCase (s : string) : string :=
  match s with
  | EmptyString => EmptyString
  | String c r => String (toLowerChar c) (toLowerCase r)
  end.

Fixpoint trimStart (s : string) : string :=
  match s with
  | EmptyString => EmptyString
  | String c r => if isWhiteSpace c then trimStart r else s
  end.

Definition isEmpty (s : string) : bool :=
  match s with EmptyString => true | String _ _ => false end.

Fixpoint trimEnd (s : string) : string :=
  match s with
  | EmptyString => EmptyString
  | String c r =>
      let r' := trimEnd r in
      if isWhiteSpace c && isEmpty r' then EmptyString else String c r'
  end.

Definition trim (s : string) : string := trimEnd (trimStart s).

(** [s.startsWith(c)] for a one-character argument. *)
Definition startsWithChar (c : ascii) (s : string) : bool :=
  match s with
  | EmptyString => false
  | String d _ => Ascii.eqb d c
  end.

(** [s.substring(1)]. *)
Definition substring1 (s : string) : string :=
  match s with
  | EmptyString => EmptyString
  | String _ r => r
  end.

(** [s.includes(needle)]. *)
Fixpoint includes (needle s : string) : bool :=
  String.prefix needle s
  || match s with
     | EmptyString => false
     | String _ r => includes needle r
     end.

(** [s.split(sep)] for a one-character separator: never empty. *)
Fixpoint split (sep : ascii) (s : string) : list string :=
  match s with
  | EmptyString => [EmptyString]
  | String c r =>
      if Ascii.eqb c sep then EmptyString :: split sep r
      else match split sep r with
           | h :: t => String c h :: t
           | [] => [String c EmptyString]
           end
  end.

(** [Array.prototype.pop] read as a value: the last element. *)
Definition pop (l : list string) : string := List.last l EmptyString.

(** [parseInt(s)] without a radix: leading blanks, a sign, then the
    digits as far as they go, hexadecimal ones after a prefix [0x] or
    [0X] and decimal ones otherwise; [None] is NaN.  The value is the
    exact integer (a JavaScript number is, up to 2^53). *)
Definition digitValue (c : ascii) : option Z :=
  let n := code c in
  if ((48 <=? n) && (n <=? 57))%N then Some (Z.of_N n - 48) else None.

Definition hexDigitValue (c : ascii) : option Z :=
  let n := code c in
  if ((48 <=? n) && (n <=? 57))%N then Some (Z.of_N n - 48)
  else if ((97 <=? n) && (n <=? 102))%N then Some (Z.of_N n - 87)
  else if ((65 <=? n) && (n <=? 70))%N then Some (Z.of_N n - 55)
  else None.

Fixpoint parseDigits (radix : Z) (value : ascii -> option Z) (acc : Z)
    (s : string) : Z :=
  match s with
  | EmptyString => acc
  | String c r =>
      match value c with
      | Some d => parseDigits radix value (radix * acc + d) r
      | None => acc
      end
  end.

(** No digit at all is NaN. *)
Definition parseNumber (radix : Z) (value : ascii -> option Z) (s : string)
  : option Z :=
  match s with
  | EmptyString => None
  | String c r =>
      match value c with
      | Some d => Some (parseDigits radix value d r)
      | None => None
      end
  end.

Definition isX (c : ascii) : bool := ((code c =? 120) || (code c =? 88))%N.

Definition parseUnsigned (s : string) : option Z :=
  match s with
  | String "0" (String x r) =>
      if isX x then parseNumber 16 hexDigitValue r
      else parseNumber 10 digitValue s
  | _ => parseNumber 10 digitValue s
  end.

Definition parseInt (s : string) : option Z :=
  match trimStart s with
  | String "-" r => Z.opp <$> parseUnsigned r
  | String "+" r => parseUnsigned r
  | t => parseUnsigned t
  end.

End JsString.

(** ** JavaScript array primitives *)

Module JsArray.

(** A relative index as [Array.prototype.slice] reads it: a negative
    one counts from the end. *)
Definition relIndex (len k : Z) : Z :=
  if k <? 0 then Z.max (len + k) 0 else Z.min k len.

(** [l.slice(start, end_)] *)
Definition slice {A} (start end_ : Z) (l : list A) : list A :=
  let len := Z.of_nat (length l) in
  let k := relIndex len start in
  let final := relIndex len end_ in
  take (Z.to_nat (final - k)) (drop (Z.to_nat k) l).

End JsArray.

(** ** core/util.js: the dedup layer's normalisation *)

Module Util.
Import JsString.

Record DedupeConfig := { stripAt : bool; lowercase : bool }.

Inductive ContactType := username | link.

Record Normalized := { contactKey : string; contactType : ContactType }.

Definition at_sign : ascii := "@"%char.
Definition slash : ascii := "/"%char.

Definition normalizeContact (contact : string) (config : DedupeConfig)
  : Normalized :=
  let normalized := trim contact in
  let normalized :=
    if stripAt config && startsWithChar at_sign normalized
    then substring1 normalized else normalized in
  let normalized :=
    if lowercase config then toLowerCase normalized else normalized in
  let contactType :=
    if includes "/" normalized then link else username in
  let contactKey :=
    match contactType with
    | link =>
        let seg := pop (split slash normalized) in
        if isEmpty seg then normalized else seg
    | username => normalized
    end in
  {| contactKey := contactKey; contactType := contactType |}.

End Util.

(** ** core/sent-history.js *)

Module SentHistory.
Import JsString.

Record Entry := {
  first_sent : Z;
  last_sent : Z;
  count : Z;
  source_message_ids : list string;
  marked_as_processed : bool
}.

(** [this.sentContacts]: a JS object used as a map from key to entry. *)
Abbreviation Store := (gmap string Entry).

Definition normalizeContactKey (contactKey : string) : string :=
  if isEmpty contactKey then EmptyString
  else
    let normalized := trim (toLowerCase contactKey) in
    if startsWithChar Util.at_sign normalized
    then substring1 normalized else normalized.

(** [this.sentContacts] is a plain object: a key that has no entry of
    its own still reads the property of that name that every object
    inherits.  Keys are lower-cased before they are used, which leaves
    two such names. *)
Definition inheritedName (key : string) : bool :=
  String.eqb key "constructor" || String.eqb key "__proto__".

(** What [this.sentContacts[key]] reads: an entry of the history, or an
    inherited object, which is truthy and has neither a count above
    zero, nor a mark, nor a list of message ids. *)
Inductive Slot :=
| Own (e : Entry)
| Inherited.

Definition read (h : Store) (key : string) : option Slot :=
  match h !! key with
  | Some e => Some (Own e)
  | None => if inheritedName key then Some Inherited else None
  end.

Definition isAlreadySent (h : Store) (contactKey : string) : bool :=
  match read h (normalizeContactKey contactKey) with
  | Some (Own contact) => (0 <? count contact) || marked_as_processed contact
  | Some Inherited => false
  | None => false
  end.

Definition getSentInfo (h : Store) (contactKey : string) : option Slot :=
  read h (normalizeContactKey contactKey).

(** [None] is the TypeError thrown by [source_message_ids.push] when
    the key reads an inherited object; the history keeps its entries. *)
Definition recordSent (now : Z) (h : Store) (contactKey sourceMessageId : string)
  : option Store :=
  let normalizedKey := normalizeContactKey contactKey in
  match read h normalizedKey with
  | Some (Own e) =>
      Some (<[normalizedKey :=
                {| first_sent := first_sent e;
                   last_sent := now;
                   count := count e + 1;
                   source_message_ids := source_message_ids e ++ [sourceMessageId];
                   marked_as_processed := marked_as_processed e |}]> h)
  | Some Inherited => None
  | None =>
      Some (<[normalizedKey :=
                {| first_sent := now;
                   last_sent := now;
                   count := 1;
                   source_message_ids := [sourceMessageId];
                   marked_as_processed := false |}]> h)
  end.

End SentHistory.

(** ** Notions used to state the normalisation properties *)

Module Keys.
Import JsString.

Definition leadingBlank (s : string) : bool :=
  match s with
  | EmptyString => false
  | String c _ => isWhiteSpace c
  end.

Definition leadingAt (s : string) : bool := startsWithChar Util.at_sign s.

(** The key the dedup layer compares. *)
Definition dedupKey (cfg : Util.DedupeConfig) (k : string) : string :=
  Util.contactKey (Util.normalizeContact k cfg).

Definition stripLeadingAt (s : string) : string :=
  if leadingAt s then substring1 s else s.

(** The string [normalizeContact] holds before it looks for a slash. *)
Definition prepared (cfg : Util.DedupeConfig) (k : string) : string :=
  let t := trim k in
  let t := if Util.stripAt cfg && leadingAt t then substring1 t else t in
  if Util.lowercase cfg then toLowerCase t else t.

Definition lastSegmentOr (n : string) : string :=
  let seg := pop (split Util.slash n) in
  if isEmpty seg then n else seg.

(** The settings the sender is configured with. *)
Definition defaultDedupe : Util.DedupeConfig :=
  {| Util.stripAt := true; Util.lowercase := true |}.

End Keys.

(** ** core/sender-time.js: the work window *)

Module SenderTime.
Import JsString.

Record Window := { start : string; end_ : string }.

Definition msPerMinute : Z := 60000.
Definition msPerHour : Z := 3600000.

(** A dayjs instant of the current day, as milliseconds since the local
    start of day; [None] is an invalid date.  Days on which the zone
    changes its offset are not modelled. *)
Definition Instant := option Z.

(** [today.hour(h).minute(m)] with [today = now.startOf('day')]. *)
Definition atHourMinute (h m : option Z) : Instant :=
  match h, m with
  | Some h, Some m => Some (h * msPerHour + m * msPerMinute)
  | _, _ => None
  end.

Definition isAfter (a b : Instant) : bool :=
  match a, b with
  | Some x, Some y => y <? x
  | _, _ => false
  end.

Definition isBefore (a b : Instant) : bool :=
  match a, b with
  | Some x, Some y => x <? y
  | _, _ => false
  end.

(** [parseInt(str.split(':')[i])]; a missing part is [undefined]. *)
Definition part (str : string) (i : nat) : option Z :=
  match nth_error (split ":"%char str) i with
  | Some p => parseInt p
  | None => None
  end.

(** [nowMs] is [nowInTimezone(tz)] read as an offset into its day. *)
Definition isInWorkWindow (window : Window) (nowMs : Z) : bool :=
  let now : Instant := Some nowMs in
  let windowStart := atHourMinute (part (start window) 0) (part (start window) 1) in
  let windowEnd := atHourMinute (part (end_ window) 0) (part (end_ window) 1) in
  if isAfter windowStart windowEnd
  then isAfter now windowStart || isBefore now windowEnd
  else isAfter now windowStart && isBefore now windowEnd.

(** The window of the specification's example. *)
Definition overnight : Window := {| start := "22:00"; end_ := "06:00" |}.

(** A wall-clock reading hh:mm:ss.mmm as an offset into the day. *)
Definition timeOfDay (h m s ms : Z) : Z :=
  h * msPerHour + m * msPerMinute + s * 1000 + ms.

End SenderTime.

(** ** core/rate.js: the rate limiter *)

Module Rate.

(** *** The clock

    [Date.now()] is read from a world whose clock never goes back: each
    read may find that some more milliseconds ([lags]) have passed, and
    [await delay(ms)] lets at least [ms] pass. *)
Record World := { clock : Z; lags : list N }.

Record RateLimiter := {
  maxMessages : Z;
  messageIntervalMs : Z;
  burstPauseMs : Z;
  sentMessages : list Z;
  lastSentTime : Z;
  burstStartTime : Z;
  isFirstRun : bool
}.

Record Sys := { this : RateLimiter; world : World }.

(** A state monad over the limiter and the world. *)
Definition M (A : Type) : Type := Sys -> A * Sys.

Definition ret {A} (a : A) : M A := fun s => (a, s).
Definition bind {A B} (m : M A) (k : A -> M B) : M B :=
  fun s => let (a, s') := m s in k a s'.

Notation "x <- m ;; k" := (bind m (fun x => k))
  (at level 100, m at next level, right associativity).
Notation "m ;;; k" := (bind m (fun _ => k))
  (at level 100, right associativity).

Definition getThis : M RateLimiter := fun s => (this s, s).
Definition putThis (r : RateLimiter) : M unit :=
  fun s => (tt, {| this := r; world := world s |}).

Definition getTimestamp : M Z :=
  fun s =>
    let w := world s in
    let '(d, rest) := match lags w with
                      | [] => (0%N, [])
                      | d :: rest => (d, rest)
                      end in
    let t := clock w + Z.of_N d in
    (t, {| this := this s; world := {| clock := t; lags := rest |} |}).

Definition delay (ms : Z) : M unit :=
  fun s =>
    let w := world s in
    (tt, {| this := this s;
            world := {| clock := clock w + Z.max 0 ms; lags := lags w |} |}).

(** *** rateConfig *)
Definition defaultMaxMessages : Z := 3.
Definition defaultBurstPauseMs : Z := 900000.
Definition autoResetThresholdMs : Z := 300000.
Definition maxWaitPerCycleMs : Z := 5000.
Definition firstMessageWaitMs : Z := 100.
Definition minWaitMs : Z := 1000.

(** [a || b] on numbers: zero is falsy. *)
Definition orDefault (a b : Z) : Z := if a =? 0 then b else a.

(** The constructor.  [interval] is the value drawn once from the
    configured range; it is a real number in the source and an integer
    number of milliseconds here. *)
Definition createRateLimiter (cfgMaxMessages cfgBurstPauseMs interval : Z)
  : RateLimiter :=
  {| maxMessages := orDefault cfgMaxMessages defaultMaxMessages;
     messageIntervalMs := interval;
     burstPauseMs := orDefault cfgBurstPauseMs defaultBurstPauseMs;
     sentMessages := [];
     lastSentTime := 0;
     burstStartTime := 0;
     isFirstRun := true |}.

Definition len (r : RateLimiter) : Z := Z.of_nat (length (sentMessages r)).

Definition withSent (l : list Z) (r : RateLimiter) : RateLimiter :=
  {| maxMessages := maxMessages r; messageIntervalMs := messageIntervalMs r;
     burstPauseMs := burstPauseMs r; sentMessages := l;
     lastSentTime := lastSentTime r; burstStartTime := burstStartTime r;
     isFirstRun := isFirstRun r |}.

Definition withLastSent (t : Z) (r : RateLimiter) : RateLimiter :=
  {| maxMessages := maxMessages r; messageIntervalMs := messageIntervalMs r;
     burstPauseMs := burstPauseMs r; sentMessages := sentMessages r;
     lastSentTime := t; burstStartTime := burstStartTime r;
     isFirstRun := isFirstRun r |}.

Definition withBurstStart (t : Z) (r : RateLimiter) : RateLimiter :=
  {| maxMessages := maxMessages r; messageIntervalMs := messageIntervalMs r;
     burstPauseMs := burstPauseMs r; sentMessages := sentMessages r;
     lastSentTime := lastSentTime r; burstStartTime := t;
     isFirstRun := isFirstRun r |}.

Definition withFirstRun (b : bool) (r : RateLimiter) : RateLimiter :=
  {| maxMessages := maxMessages r; messageIntervalMs := messageIntervalMs r;
     burstPauseMs := burstPauseMs r; sentMessages := sentMessages r;
     lastSentTime := lastSentTime r; burstStartTime := burstStartTime r;
     isFirstRun := b |}.

Definition cleanupOldSends : M unit :=
  now <- getTimestamp ;;
  r <- getThis ;;
  let cutoffTime := now - burstPauseMs r in
  let r := withSent (List.filter (fun timestamp => cutoffTime <? timestamp)
                                 (sentMessages r)) r in
  let r :=
    if (0 <? lastSentTime r) && (burstPauseMs r <? now - lastSentTime r)
    then withFirstRun true (withLastSent 0 (withBurstStart 0 (withSent [] r)))
    else r in
  let r :=
    if (len r =? 0) && (autoResetThresholdMs <? now - lastSentTime r)
    then withFirstRun true r
    else r in
  putThis r.

Definition canSendNow : M bool :=
  cleanupOldSends ;;;
  now <- getTimestamp ;;
  r <- getThis ;;
  if isFirstRun r && (len r <? maxMessages r) then ret true
  else if len r =? 0 then ret true
  else
    let timeSinceLastMessage := now - lastSentTime r in
    if timeSinceLastMessage <? messageIntervalMs r then ret false
    else if maxMessages r <=? len r then
      let timeSinceBurstStart := now - burstStartTime r in
      if timeSinceBurstStart <? burstPauseMs r then ret false
      else
        putThis (withLastSent 0 (withBurstStart 0 (withSent [] r))) ;;;
        ret true
    else ret true.

Definition tryConsume : M bool :=
  ok <- canSendNow ;;
  if negb ok then ret false
  else
    now <- getTimestamp ;;
    r <- getThis ;;
    let r := withLastSent now (withSent (sentMessages r ++ [now]) r) in
    let r := if len r =? 1 then withBurstStart now r else r in
    let r :=
      if isFirstRun r && (maxMessages r <=? len r)
      then withFirstRun false r else r in
    putThis r ;;;
    ret true.

(** [waitForToken]: the loop carries fuel; [None] means the fuel ran
    out before the loop left.  The clock reads inside the log calls are
    kept, since they consume readings. *)
Fixpoint waitLoop (fuel : nat) (startTime timeoutMs : Z) : M (option bool) :=
  match fuel with
  | O => ret None
  | S fuel' =>
      t <- getTimestamp ;;
      if t - startTime <? timeoutMs then
        ok <- tryConsume ;;
        if ok then ret (Some true)
        else
          now <- getTimestamp ;;
          r <- getThis ;;
          let waitTime :=
            if len r =? 0 then firstMessageWaitMs
            else if len r <? maxMessages r then
              let timeSinceLastMessage := now - lastSentTime r in
              Z.max minWaitMs (messageIntervalMs r - timeSinceLastMessage)
            else
              let timeSinceBurstStart := now - burstStartTime r in
              Z.max minWaitMs (burstPauseMs r - timeSinceBurstStart) in
          getTimestamp ;;;
          delay (Z.min waitTime maxWaitPerCycleMs) ;;;
          waitLoop fuel' startTime timeoutMs
      else
        getTimestamp ;;;
        ret (Some false)
  end.

Definition waitForToken (fuel : nat) (timeoutMs : Z) : M (option bool) :=
  startTime <- getTimestamp ;;
  waitLoop fuel startTime timeoutMs.

(** Loop heads are at least [firstMessageWaitMs] apart, so this many
    evaluations of the loop condition are enough. *)
Definition fuelFor (timeoutMs : Z) : nat :=
  S (Z.to_nat (timeoutMs / firstMessageWaitMs + 1)).

(** A sequence of [tryConsume] calls, with the results in call order. *)
Fixpoint tryConsumeTimes (n : nat) : M (list bool) :=
  match n with
  | O => ret []
  | S n' =>
      b <- tryConsume ;;
      bs <- tryConsumeTimes n' ;;
      ret (b :: bs)
  end.

(** *** Observing a run

    One call as an observer sees it: whether the token was granted, the
    timestamp the limiter recorded for it, and whether the limiter was
    past its first-run regime before and after the call. *)
Record Attempt := { granted : bool; stamp : Z; steady : bool }.

Definition tryConsumeObserved : M Attempt :=
  before <- getThis ;;
  ok <- tryConsume ;;
  after <- getThis ;;
  ret {| granted := ok;
         stamp := lastSentTime after;
         steady := negb (isFirstRun before) && negb (isFirstRun after) |}.

Fixpoint observeTimes (n : nat) : M (list Attempt) :=
  match n with
  | O => ret []
  | S n' =>
      a <- tryConsumeObserved ;;
      rest <- observeTimes n' ;;
      ret (a :: rest)
  end.

(** Tokens granted past the first-run regime whose timestamps lie in
    the window that ends at [t] and is [width] long. *)
Definition grantedInWindow (width t : Z) (log : list Attempt) : Z :=
  Z.of_nat (length (List.filter
    (fun a => granted a && steady a && (t - width <? stamp a) && (stamp a <=? t))
    log)).

(** A step of the limiter that grants nothing: settings untouched, no
    timestamp added, time not going back. *)
Record Keeps (s s' : Sys) : Prop := {
  keeps_max : maxMessages (this s') = maxMessages (this s);
  keeps_interval : messageIntervalMs (this s') = messageIntervalMs (this s);
  keeps_pause : burstPauseMs (this s') = burstPauseMs (this s);
  keeps_sent : sublist (sentMessages (this s')) (sentMessages (this s));
  keeps_clock : clock (world s) <= clock (world s')
}.

(** The most timestamps a limiter keeps. *)
Definition bound (r : RateLimiter) : Z := Z.max 1 (maxMessages r).

(** A limiter that has just used up its first burst, at a quiet clock. *)
Definition afterFirstBurst : Sys :=
  {| this := {| maxMessages := 3; messageIntervalMs := 60000;
                burstPauseMs := 900000;
                sentMessages := [1700000000000; 1700000090000; 1700000180000];
                lastSentTime := 1700000180000;
                burstStartTime := 1700000000000;
                isFirstRun := false |};
     world := {| clock := 1700000180000; lags := [] |} |}.

(** The time [waitForToken] takes as its start. *)
Definition startOf (s : Sys) : Z := fst (getTimestamp s).

(** Two runs with the default limits (3 messages, 15 minute pause) and
    an interval of one minute.  Each call reads the clock three times;
    the first read of a call finds the time that passed since the call
    before.

    [lateThenEarly]: three calls within two milliseconds, a fourth 900
    seconds after the first, a fifth 800 seconds after the fourth, and
    three more a minute apart. *)
Definition lateThenEarly : Sys :=
  {| this := createRateLimiter 3 900000 60000;
     world := {| clock := 1700000000000;
                 lags := [0; 0; 0;  1; 0; 0;  1; 0; 0;
                          899998; 0; 0;  800000; 0; 0;  60000; 0; 0;
                          60000; 0; 0;  60000; 0; 0]%N |} |}.

(** [everyNinetySeconds]: calls 90 seconds apart and, after the first
    three, a wait until the burst pause is over. *)
Definition everyNinetySeconds : Sys :=
  {| this := createRateLimiter 3 900000 60000;
     world := {| clock := 1700000000000;
                 lags := [0; 0; 0;  90000; 0; 0;  90000; 0; 0;
                          720000; 0; 0;  90000; 0; 0;  90000; 0; 0;
                          90000; 0; 0]%N |} |}.

End Rate.

(** ** The JSON contact database (class JsonDatabase) *)

Module JsonDb.
Import JsString.

Inductive Status := pending | sent | skipped | failed.

Definition Status_eqb (a b : Status) : bool :=
  match a, b with
  | pending, pending | sent, sent | skipped, skipped | failed, failed => true
  | _, _ => false
  end.

(** A stored contact.  [sent_at] is the instant its ISO string denotes
    ([None] is [null], which [new Date] reads as the epoch). *)
Record Contact := {
  id : Z;
  contact_key : string;
  contact_type : Util.ContactType;
  tg_user_id : option Z;
  source_peer_id : Z;
  source_message_id : string;
  sent_text : string;
  sent_at : option Z;
  status : Status;
  reason : option string;
  lead_description : option string
}.

(** The object handed to [saveContact]; absent properties are [None]. *)
Record NewContact := {
  new_contact_key : string;
  new_contact_type : Util.ContactType;
  new_tg_user_id : option Z;
  new_source_peer_id : Z;
  new_source_message_id : string;
  new_sent_text : string;
  new_sent_at : option Z;
  new_status : Status;
  new_reason : option string;
  new_lead_description : option string
}.

Record Stats := { total : Z; stat_sent : Z; stat_skipped : Z; stat_failed : Z }.

(** [this.data]; the per-peer scan progress plays no part here. *)
Record Database := { contacts : list Contact; stats : Stats }.

Definition PERMANENT_FAILURE_PATTERNS : list string :=
  [ "Cannot find any entity corresponding to";
    "USER_DEACTIVATED";
    "INPUT_USER_DEACTIVATED";
    "CHAT_WRITE_FORBIDDEN";
    "403" ].

(** [reason || null] on strings: the empty string is falsy. *)
Definition orNull (r : option string) : option string :=
  match r with
  | Some s => if isEmpty s then None else Some s
  | None => None
  end.

Definition hasKey (contactKey : string) (c : Contact) : bool :=
  String.eqb (contact_key c) contactKey.

Definition findContactByKey (db : Database) (contactKey : string)
  : option Contact :=
  List.find (hasKey contactKey) (contacts db).

(** [this.data.stats.total++] *)
Definition countOneMore (s : Stats) : Stats :=
  {| total := total s + 1; stat_sent := stat_sent s;
     stat_skipped := stat_skipped s; stat_failed := stat_failed s |}.

Definition saveContact (now : Z) (db : Database) (contact : NewContact)
  : Contact * Database :=
  let newContact :=
    {| id := now;
       contact_key := new_contact_key contact;
       contact_type := new_contact_type contact;
       tg_user_id := match new_tg_user_id contact with
                     | Some 0 => None
                     | u => u
                     end;
       source_peer_id := new_source_peer_id contact;
       source_message_id := new_source_message_id contact;
       sent_text := new_sent_text contact;
       sent_at := match new_sent_at contact with
                  | Some t => Some t
                  | None => Some now
                  end;
       status := new_status contact;
       reason := orNull (new_reason contact);
       lead_description := orNull (new_lead_description contact) |} in
  (newContact,
   {| contacts := contacts db ++ [newContact];
      stats := countOneMore (stats db) |}).

Definition withStatus (st : Status) (r : option string) (at_ : option Z)
    (c : Contact) : Contact :=
  {| id := id c; contact_key := contact_key c;
     contact_type := contact_type c; tg_user_id := tg_user_id c;
     source_peer_id := source_peer_id c;
     source_message_id := source_message_id c;
     sent_text := sent_text c; sent_at := at_;
     status := st; reason := r;
     lead_description := lead_description c |}.

Definition bumpStats (st : Status) (s : Stats) : Stats :=
  match st with
  | sent => {| total := total s; stat_sent := stat_sent s + 1;
               stat_skipped := stat_skipped s; stat_failed := stat_failed s |}
  | skipped => {| total := total s; stat_sent := stat_sent s;
                  stat_skipped := stat_skipped s + 1;
                  stat_failed := stat_failed s |}
  | failed => {| total := total s; stat_sent := stat_sent s;
                 stat_skipped := stat_skipped s;
                 stat_failed := stat_failed s + 1 |}
  | pending => s
  end.

(** The first record with the key is changed in place; [None] (and an
    untouched database) when there is none. *)
Definition updateContactStatus (now : Z) (db : Database)
    (contactKey : string) (st : Status) (r : option string)
  : option Contact * Database :=
  match list_find (fun c => hasKey contactKey c = true) (contacts db) with
  | None => (None, db)
  | Some (i, c) =>
      let c' := withStatus st (orNull r)
                  (match st with sent => Some now | _ => sent_at c end) c in
      (Some c',
       {| contacts := <[i := c']> (contacts db);
          stats := bumpStats st (stats db) |})
  end.

Definition sentAtMs (c : Contact) : Z :=
  match sent_at c with Some t => t | None => 0 end.

(** [Array.prototype.sort] is stable: insertion keeps equal keys in
    their original order. *)
Fixpoint insertBySentAt (x : Contact) (l : list Contact) : list Contact :=
  match l with
  | [] => [x]
  | y :: l' =>
      if sentAtMs x <=? sentAtMs y then x :: l
      else y :: insertBySentAt x l'
  end.

Fixpoint sortBySentAt (l : list Contact) : list Contact :=
  match l with
  | [] => []
  | x :: l' => insertBySentAt x (sortBySentAt l')
  end.

Definition isPending (c : Contact) : bool := Status_eqb (status c) pending.

Definition getContactsForSending (db : Database) (limit offset : Z)
  : list Contact :=
  JsArray.slice offset (offset + limit)
    (sortBySentAt (List.filter isPending (contacts db))).

Definition matchesPermanentPattern (r : string) : bool :=
  existsb (fun p => includes p r) PERMANENT_FAILURE_PATTERNS.

Definition isPermanentFailure (c : Contact) : bool :=
  match reason c with
  | Some r => negb (isEmpty r) && matchesPermanentPattern r
  | None => false
  end.

Definition requeued (c : Contact) : Contact :=
  withStatus pending None (sent_at c) c.

(** The [for ... of] loop of [requeueFailed].  The array iterator holds
    an index [i] into the live array: deleting the element at [i] with
    [splice] moves its successors one place down while the iterator
    still steps to [i + 1].  Every slot of the array holds an object of
    its own, so [indexOf(contact)] is the iterator's position.  Each
    turn either stops or advances [i], and the array never grows, so
    [fuel = length] turns always suffice. *)
Fixpoint requeueLoop (fuel : nat) (limit : Z) (i : nat)
    (updated removed : Z) (cs : list Contact) : list Contact * Z * Z :=
  match fuel with
  | O => (cs, updated, removed)
  | S fuel' =>
      match cs !! i with
      | None => (cs, updated, removed)
      | Some contact =>
          if limit <=? updated then (cs, updated, removed)
          else if Status_eqb (status contact) failed then
            if isPermanentFailure contact
            then requeueLoop fuel' limit (S i) updated (removed + 1)
                             (delete i cs)
            else requeueLoop fuel' limit (S i) (updated + 1) removed
                             (<[i := requeued contact]> cs)
          else requeueLoop fuel' limit (S i) updated removed cs
      end
  end.

Record RequeueOutcome := {
  returned : Z;          (* [updated], the value the method returns *)
  deleted : Z;           (* [removed], only logged by the method *)
  after : Database
}.

Definition requeueFailed (db : Database) (limit : Z) : RequeueOutcome :=
  let '(cs, updated, removed) :=
    requeueLoop (length (contacts db)) limit 0 0 0 (contacts db) in
  {| returned := updated; deleted := removed;
     after := {| contacts := cs; stats := stats db |} |}.

(** *** The same loop read along the array

    [requeueFrom] walks the part of the array the iterator has not
    reached yet: after a deletion the next element slides under the
    iterator and is passed over without being looked at. *)
Definition isFailed (c : Contact) : bool := Status_eqb (status c) failed.

Fixpoint requeueFrom (limit updated removed : Z) (rest : list Contact)
  : list Contact * Z * Z :=
  match rest with
  | [] => ([], updated, removed)
  | c :: rest' =>
      if limit <=? updated then (rest, updated, removed)
      else if isFailed c then
        if isPermanentFailure c then
          match rest' with
          | [] => ([], updated, removed + 1)
          | d :: rest'' =>
              let '(out, u, r) :=
                requeueFrom limit updated (removed + 1) rest'' in
              (d :: out, u, r)
          end
        else
          let '(out, u, r) := requeueFrom limit (updated + 1) removed rest' in
          (requeued c :: out, u, r)
      else
        let '(out, u, r) := requeueFrom limit updated removed rest' in
        (c :: out, u, r)
  end.

Definition requeueIfFailed (c : Contact) : Contact :=
  if isFailed c then requeued c else c.

Definition countWhere (p : Contact -> bool) (l : list Contact) : Z :=
  Z.of_nat (length (List.filter p l)).

(** Where a record left by a requeue pass over [l] comes from: it is a
    record of [l] as it was, or a failed record of [l] without a
    permanent reason, reset. *)
Definition fromLedger (l : list Contact) (x : Contact) : Prop :=
  In x l
  \/ exists y, In y l /\ isFailed y = true
              /\ isPermanentFailure y = false /\ x = requeued y.

(** A contact as the scanner hands it over, for worked examples. *)
Definition sample (key : string) (st : Status) (r : option string)
  : Contact :=
  {| id := 0; contact_key := key; contact_type := Util.username;
     tg_user_id := None; source_peer_id := 0; source_message_id := "1";
     sent_text := ""; sent_at := None; status := st; reason := r;
     lead_description := Some "need a landing page" |}.

Definition ledger (l : list Contact) : Database :=
  {| contacts := l;
     stats := {| total := Z.of_nat (length l); stat_sent := 0;
                 stat_skipped := 0; stat_failed := 0 |} |}.

Definition emptyDatabase : Database :=
  {| contacts := [];
     stats := {| total := 0; stat_sent := 0; stat_skipped := 0;
                 stat_failed := 0 |} |}.

End JsonDb.

(** ** outreach/dedupe.js *)

Module Dedupe.
Import JsonDb.

(** A deduper is its database and its normalisation settings. *)
Record ContactDeduper := { db : Database; dedupeConfig : Util.DedupeConfig }.

Definition withDb (d : ContactDeduper) (db' : Database) : ContactDeduper :=
  {| db := db'; dedupeConfig := dedupeConfig d |}.

Definition registerContact (now : Z) (d : ContactDeduper)
    (contactKey : string) (sourcePeerId : Z) (sourceMessageId sentText : string)
    (tgUserId : option Z) (leadDescription : option string)
  : Contact * ContactDeduper :=
  let normalized := Util.normalizeContact contactKey (dedupeConfig d) in
  match findContactByKey (db d) (Util.contactKey normalized) with
  | Some existingContact => (existingContact, d)
  | None =>
      let newContact :=
        {| new_contact_key := Util.contactKey normalized;
           new_contact_type := Util.contactType normalized;
           new_tg_user_id := tgUserId;
           new_source_peer_id := sourcePeerId;
           new_source_message_id := sourceMessageId;
           new_sent_text := sentText;
           new_sent_at := None;
           new_status := sent;
           new_reason := None;
           new_lead_description := leadDescription |} in
      let '(savedContact, db') := saveContact now (db d) newContact in
      (savedContact, withDb d db')
  end.

Definition updateContactStatus (now : Z) (d : ContactDeduper)
    (contactKey : string) (st : Status) (r : option string) : ContactDeduper :=
  let normalized := Util.normalizeContact contactKey (dedupeConfig d) in
  withDb d (snd (JsonDb.updateContactStatus now (db d)
                   (Util.contactKey normalized) st r)).

Definition getContactsForSending (d : ContactDeduper) (limit : Z)
  : list Contact :=
  JsonDb.getContactsForSending (db d) limit 0.

Definition emptyDeduper : ContactDeduper :=
  {| db := emptyDatabase; dedupeConfig := Keys.defaultDedupe |}.

End Dedupe.

(** ** outreach/send.js: one cycle of the sender *)

Module Send.
Import JsString JsonDb.

(** What a call to a collaborator comes back with. *)
Inductive outcome (A : Type) :=
| Ok (a : A)
| Throws (message : string).
Arguments Ok {A} a.
Arguments Throws {A} message.

Record LeadContext := {
  description : string;
  lc_contactKey : string;
  lc_sourceMessageId : string
}.

(** The delivery client's answer to [sendMessage]. *)
Record SendResult := {
  sr_success : bool;
  sr_messageId : option Z;
  sr_error : option string;
  sr_floodWaitSeconds : option Z
}.

(** The object [sendToContact] returns (durations left out). *)
Record Result := {
  r_contactKey : string;
  success : bool;
  messageId : option Z;
  error : option string;
  attempts : Z
}.

Inductive ReportStatus := OK | ERROR.

Inductive Report :=
| SkipReport (contact reason : string)
| OutreachReport (contact : string) (peer : Z) (message : string)
    (st : ReportStatus) (err : option string).

(** Calls that leave the process, in the order they are made. *)
Inductive Event :=
| EvCompose (ctx : LeadContext)
| EvGetUserInfo (contactKey : string)
| EvSendMessage (contactKey text : string)
| EvSendReport (r : Report).

Definition isSendMessage (e : Event) : bool :=
  match e with EvSendMessage _ _ => true | _ => false end.

Record Checkpoint := {
  last_processed_contact : option string;
  processed_count : Z;
  last_success : option bool
}.

Record OutreachSender := {
  contactDeduper : Dedupe.ContactDeduper;
  sentHistory : gmap string SentHistory.Entry;
  checkpoint : Checkpoint
}.

Definition DUPLICATE_CONTACT : string := "DUPLICATE_CONTACT".
Definition defaultLeadDescription : string := "Запрос на дизайн/разработку".
Definition nullToLowerCase : string :=
  "Cannot read properties of null (reading 'toLowerCase')".
Definition undefinedPush : string :=
  "Cannot read properties of undefined (reading 'push')".

Definition dquote : string := String (ascii_of_nat 34) EmptyString.

(** The reason recorded when [getUserInfo] resolves to [null]. *)
Definition entityNotFound (contactKey : string) : string :=
  ("Cannot find any entity corresponding to " ++ dquote ++ contactKey
     ++ dquote)%string.

Definition contactsBatchSize : Z := 10.
Definition requeueBatchSize : Z := 50.

Definition withDeduper (d : Dedupe.ContactDeduper) (s : OutreachSender)
  : OutreachSender :=
  {| contactDeduper := d; sentHistory := sentHistory s;
     checkpoint := checkpoint s |}.

Definition updateProgress (contactKey : string) (ok : bool) (c : Checkpoint)
  : Checkpoint :=
  {| last_processed_contact := Some contactKey;
     processed_count := processed_count c + 1;
     last_success := Some ok |}.

Definition errorIs (e : option string) (s : string) : bool :=
  match e with Some m => String.eqb m s | None => false end.

Section Cycle.
(** The collaborators of one cycle. *)
Variable composeMessage : LeadContext -> outcome string.
Variable getUserInfo : string -> outcome bool.
Variable sendMessage : string -> string -> outcome SendResult.
(** The report client's answer is never looked at: a failed report is
    logged and the cycle goes on. *)
(** [Date.now()] during the cycle. *)
Variable now : Z.

Definition failure (contactKey : string) (msg : string) (n : Z) : Result :=
  {| r_contactKey := contactKey; success := false; messageId := None;
     error := Some msg; attempts := n |}.

Definition sendToContact (s : OutreachSender) (contact : Contact)
  : Result * OutreachSender * list Event :=
  let contactKey := contact_key contact in
  if SentHistory.isAlreadySent (sentHistory s) contactKey then
    let d := Dedupe.updateContactStatus now (contactDeduper s) contactKey
               skipped (Some DUPLICATE_CONTACT) in
    (failure contactKey DUPLICATE_CONTACT 0, withDeduper d s, [])
  else
    match lead_description contact with
    | None =>
        (* [detectCategory(null)] throws inside the [try] *)
        (failure contactKey nullToLowerCase 1, s, [])
    | Some d =>
        let leadContext :=
          {| description := if isEmpty d then defaultLeadDescription else d;
             lc_contactKey := contactKey;
             lc_sourceMessageId := source_message_id contact |} in
        match composeMessage leadContext with
        | Throws m => (failure contactKey m 1, s, [EvCompose leadContext])
        | Ok text =>
            match getUserInfo contactKey with
            | Throws m =>
                (failure contactKey m 1, s,
                 [EvCompose leadContext; EvGetUserInfo contactKey])
            | Ok false =>
                (failure contactKey
                   (entityNotFound contactKey) 0,
                 s, [EvCompose leadContext; EvGetUserInfo contactKey])
            | Ok true =>
                let evs := [EvCompose leadContext; EvGetUserInfo contactKey;
                            EvSendMessage contactKey text] in
                match sendMessage contactKey text with
                | Throws m => (failure contactKey m 1, s, evs)
                | Ok sendResult =>
                    let result :=
                      {| r_contactKey := contactKey;
                         success := sr_success sendResult;
                         messageId := sr_messageId sendResult;
                         error := sr_error sendResult;
                         attempts := 1 |} in
                    let recorded :=
                      if success result
                      then SentHistory.recordSent now (sentHistory s)
                             contactKey (source_message_id contact)
                      else Some (sentHistory s) in
                    match recorded with
                    | None =>
                        (* [recordSent] throws inside the [try] *)
                        (failure contactKey undefinedPush 1, s, evs)
                    | Some h =>
                        (result,
                         {| contactDeduper := contactDeduper s;
                            sentHistory := h;
                            checkpoint := updateProgress contactKey
                                            (success result)
                                            (checkpoint s) |},
                         evs)
                    end
                end
            end
        end
    end.

(** [this.sendReport(contact, result)]: failures are swallowed. *)
Definition outcomeReport (contact : Contact) (result : Result) : Report :=
  if success result
  then OutreachReport (contact_key contact) (source_peer_id contact)
         (source_message_id contact) OK None
  else OutreachReport (contact_key contact) (source_peer_id contact)
         (source_message_id contact) ERROR (error result).

(** The result of a cycle: what [processNextTask] returns, the result
    of [sendToContact] when a contact was taken, the state left
    behind and the outside calls made. *)
Record CycleOutcome := {
  worked : bool;
  taken : option (Contact * Result);
  sender : OutreachSender;
  trace : list Event
}.

Definition processNextTask (s : OutreachSender) : CycleOutcome :=
  let contacts := Dedupe.getContactsForSending (contactDeduper s)
                    contactsBatchSize in
  let '(contacts, s) :=
    match contacts with
    | [] =>
        let d := contactDeduper s in
        let out := requeueFailed (Dedupe.db d) requeueBatchSize in
        let s' := withDeduper (Dedupe.withDb d (after out)) s in
        if 0 <? returned out
        then (Dedupe.getContactsForSending (contactDeduper s')
                contactsBatchSize, s')
        else ([], s')
    | _ :: _ => (contacts, s)
    end in
  match contacts with
  | [] => {| worked := false; taken := None; sender := s; trace := [] |}
  | contact :: _ =>
      let '(result, s, evs) := sendToContact s contact in
      if errorIs (error result) DUPLICATE_CONTACT then
        let skipHtml := SkipReport (contact_key contact) DUPLICATE_CONTACT in
        let d := Dedupe.updateContactStatus now (contactDeduper s)
                   (contact_key contact) skipped (Some DUPLICATE_CONTACT) in
        {| worked := true; taken := Some (contact, result);
           sender := withDeduper d s;
           trace := evs ++ [EvSendReport skipHtml] |}
      else
        let report := outcomeReport contact result in
        let d := Dedupe.updateContactStatus now (contactDeduper s)
                   (contact_key contact)
                   (if success result then sent else failed)
                   (error result) in
        {| worked := true; taken := Some (contact, result);
           sender := withDeduper d s;
           trace := evs ++ [EvSendReport report] |}
  end.

End Cycle.

(** *** A worked state

    The ledger holds one pending contact whose key came from the feed's
    author field with its capitals, "Ivan_Dev"; a message to that
    account has been delivered and recorded in the Sent History under
    the normalised key. *)
Definition ivan : Contact := sample "Ivan_Dev" pending None.

Definition ivanSent : SentHistory.Entry :=
  {| SentHistory.first_sent := 1700000000000;
     SentHistory.last_sent := 1700000000000;
     SentHistory.count := 1;
     SentHistory.source_message_ids := ["1"];
     SentHistory.marked_as_processed := false |}.

Definition ivanState : OutreachSender :=
  {| contactDeduper := {| Dedupe.db := ledger [ivan];
                          Dedupe.dedupeConfig := Keys.defaultDedupe |};
     sentHistory := {[ "ivan_dev" := ivanSent ]};
     checkpoint := {| last_processed_contact := Some "Ivan_Dev";
                      processed_count := 1;
                      last_success := Some true |} |}.

(** Marking a contact skipped as a duplicate, as both [sendToContact]
    and [processNextTask] do. *)
Definition markDuplicate (now : Z) (contactKey : string)
    (d : Dedupe.ContactDeduper) : Dedupe.ContactDeduper :=
  Dedupe.updateContactStatus now d contactKey skipped (Some DUPLICATE_CONTACT).

End Send.

(** ** core/json-scanner.js: one scan pass and its watermark *)

Module Scanner.

Record Message := {
  msg_id : Z;
  sourcePeerName : string;
  fullContent : string;
  sourceMessageId : string
}.

(** One scanner: the watermark in memory, the watermark in the progress
    file, and the entries and contacts dealt with so far (in order). *)
Record JsonScanner := {
  lastProcessedId : Z;
  persistedId : Z;
  handedOver : list (Z * string);
  completed : list Z
}.

(** The atomic actions of [performScan]. *)
Inductive Step :=
| HandleContact (m : Message) (contactKey : string)
| Advance (m : Message)          (* this.lastProcessedId = message.id *)
| Persist.                       (* this.saveLastProcessedId() *)

Section Pass.
(** Deny-list test and contact extraction of one entry (text, author
    field, link resolution), and the duplicate test. *)
Variable isDenied : Message -> bool.
Variable extractContacts : Message -> list string.
Variable checkIfContactExists : string -> bool.

Definition runStep (sc : JsonScanner) (st : Step) : JsonScanner :=
  match st with
  | HandleContact m k =>
      {| lastProcessedId := lastProcessedId sc;
         persistedId := persistedId sc;
         handedOver :=
           if checkIfContactExists k then handedOver sc
           else handedOver sc ++ [(msg_id m, k)];
         completed := completed sc |}
  | Advance m =>
      {| lastProcessedId := msg_id m;
         persistedId := persistedId sc;
         handedOver := handedOver sc;
         completed := completed sc ++ [msg_id m] |}
  | Persist =>
      {| lastProcessedId := lastProcessedId sc;
         persistedId := lastProcessedId sc;
         handedOver := handedOver sc;
         completed := completed sc |}
  end.

Definition run (sc : JsonScanner) (steps : list Step) : JsonScanner :=
  fold_left runStep steps sc.








End Pass.




End Scanner.
(** ** core/rate.js: reading the limiter *)

Module RateStats.
Import Rate.

(** The clock reading of the [k]-th [Date.now()] from now on, if no
    [delay] comes in between. *)
Definition readAfter (k : nat) (w : World) : Z :=
  clock w + Z.of_N (fold_right N.add 0%N (take k (lags w))).

Definition getAvailableTokens : M Z :=
  cleanupOldSends ;;;
  r <- getThis ;;
  ret (if len r <? maxMessages r then 1 else 0).

Record Stats := {
  availableTokens : Z;
  sentInBurst : Z;
  stat_maxMessages : Z;
  timeToNextToken : Z;
  stat_messageIntervalMs : Z;
  stat_burstPauseMs : Z;
  stat_isFirstRun : bool
}.

(** The properties of the returned object are evaluated in the order
    they are written: [getAvailableTokens()] runs before the list is
    measured for [sentInBurst]. *)
Definition getStats : M Stats :=
  cleanupOldSends ;;;
  now <- getTimestamp ;;
  r <- getThis ;;
  let timeToNextToken :=
    if len r =? 0 then 0
    else if len r <? maxMessages r then
      let timeSinceLastMessage := now - lastSentTime r in
      Z.max 0 (messageIntervalMs r - timeSinceLastMessage)
    else
      let timeSinceBurstStart := now - burstStartTime r in
      Z.max 0 (burstPauseMs r - timeSinceBurstStart) in
  tokens <- getAvailableTokens ;;
  r <- getThis ;;
  ret {| availableTokens := tokens;
         sentInBurst := len r;
         stat_maxMessages := maxMessages r;
         timeToNextToken := timeToNextToken;
         stat_messageIntervalMs := messageIntervalMs r;
         stat_burstPauseMs := burstPauseMs r;
         stat_isFirstRun := isFirstRun r |}.

(** The answer of the steady-state test of [canSendNow] on a limiter
    [r] read at time [t]. *)
Definition steadyGrant (r : RateLimiter) (t : Z) : bool :=
  negb ((t - lastSentTime r <? messageIntervalMs r)
        || ((maxMessages r <=? len r)
            && (t - burstStartTime r <? burstPauseMs r))).

End RateStats.

(** ** core/rate.js: a run of the limiter, call by call *)

Module RateLog.
Import Rate RateStats.

(** One call of [tryConsume] as an observer notes it: the limiter
    before the call, the first two clock readings of the call (the one
    [cleanupOldSends] makes and the one [canSendNow] makes), the answer,
    and the limiter after the call. *)
Record Turn := {
  before : RateLimiter;
  cleanedAt : Z;
  decidedAt : Z;
  answer : bool;
  after : RateLimiter
}.

Definition tryConsumeLogged : M Turn :=
  fun s =>
    let '(ok, s') := tryConsume s in
    ({| before := this s;
        cleanedAt := readAfter 1 (world s);
        decidedAt := readAfter 2 (world s);
        answer := ok;
        after := this s' |}, s').

Fixpoint logTimes (n : nat) : M (list Turn) :=
  match n with
  | O => ret []
  | S n' =>
      a <- tryConsumeLogged ;;
      rest <- logTimes n' ;;
      ret (a :: rest)
  end.

(** The timestamps of [r] that are newer than [now - burstPauseMs]:
    those [cleanupOldSends] keeps when it reads the clock at [now]. *)
Definition keptAt (now : Z) (r : RateLimiter) : list Z :=
  List.filter (fun timestamp => now - burstPauseMs r <? timestamp)
    (sentMessages r).

(** The timestamp a granted call records. *)
Definition grantTime (a : Turn) : Z := lastSentTime (after a).

(** A granted call opens a burst when it leaves its own timestamp alone
    in the list: the list had run empty, or the call has reset it. *)
Definition opens (a : Turn) : bool := answer a && (len (after a) =? 1).

(** A burst reset: the call opens a burst although timestamps newer
    than [now - burstPauseMs] were still in the list. *)
Definition resets (a : Turn) : bool :=
  opens a
  && negb (Z.of_nat (length (keptAt (cleanedAt a) (before a))) =? 0).

(** The grants of the current burst: the timestamps granted since the
    last call that opened a burst, that call included. *)
Definition burstStep (burst : list Z) (a : Turn) : list Z :=
  if answer a
  then (if opens a then [grantTime a] else burst ++ [grantTime a])
  else burst.

Definition currentBurst (log : list Turn) : list Z :=
  fold_left burstStep log [].







(** The world after [k] clock readings with no [delay] in between. *)
Definition afterReads (k : nat) (w : World) : World :=
  {| clock := readAfter k w; lags := drop k (lags w) |}.

(** *** A limiter that cannot grant before a given time

    All the lag the clock still holds. *)
Definition lagSum (w : World) : Z := Z.of_N (fold_right N.add 0%N (lags w)).

(** No clock reading of a [waitForToken(timeoutMs)] started in [w] that
    is followed by a [tryConsume] is as late as this. *)
Definition horizon (w : World) (timeoutMs : Z) : Z :=
  clock w + lagSum w + timeoutMs.

(** The burst is full, and before time [h] neither its pause is over
    nor any of its timestamps grows older than [burstPauseMs]. *)
Definition blockedUntil (h : Z) (r : RateLimiter) : bool :=
  negb (len r =? 0)
  && (maxMessages r <=? len r)
  && forallb (fun timestamp => h - burstPauseMs r <=? timestamp)
       (sentMessages r)
  && ((lastSentTime r <=? 0) || (h - burstPauseMs r <=? lastSentTime r))
  && (h - burstPauseMs r <=? burstStartTime r).

End RateLog.

(** ** core/util.js: helpers *)

Module UtilFns.
Import JsString.
Export JsArray.

(** *** escapeHtml *)

Definition quote_char : ascii := ascii_of_nat 34.
Definition apostrophe : ascii := ascii_of_nat 39.

(** [htmlEscapes[char]] for the six characters of the pattern: the
    ampersand, the angle brackets, both quotes and the slash; [None]
    for every other character, which the pattern leaves alone. *)
Definition htmlEscapes (c : ascii) : option string :=
  if Ascii.eqb c "&" then Some "&amp;"
  else if Ascii.eqb c "<" then Some "&lt;"
  else if Ascii.eqb c ">" then Some "&gt;"
  else if Ascii.eqb c quote_char then Some "&quot;"
  else if Ascii.eqb c apostrophe then Some "&#x27;"
  else if Ascii.eqb c "/" then Some "&#x2F;"
  else None.

Fixpoint escapeHtml (text : string) : string :=
  match text with
  | EmptyString => EmptyString
  | String c r =>
      match htmlEscapes c with
      | Some e => (e ++ escapeHtml r)%string
      | None => String c (escapeHtml r)
      end
  end.

(** Does the character occur in the string? *)
Fixpoint occurs (c : ascii) (s : string) : bool :=
  match s with
  | EmptyString => false
  | String d r => Ascii.eqb d c || occurs c r
  end.

(** The characters that open or close markup or an attribute. *)
Definition isMarkup (c : ascii) : bool :=
  Ascii.eqb c "<" || Ascii.eqb c ">" || Ascii.eqb c quote_char
  || Ascii.eqb c apostrophe || Ascii.eqb c "/".

Fixpoint anyChar (p : ascii -> bool) (s : string) : bool :=
  match s with
  | EmptyString => false
  | String d r => p d || anyChar p r
  end.

(** *** chunk *)

(** The [for] loop of [chunk]; [None] when the fuel runs out. *)
Fixpoint chunkLoop {A} (fuel : nat) (i size : Z) (array : list A)
    (chunks : list (list A)) : option (list (list A)) :=
  match fuel with
  | O => None
  | S fuel' =>
      if i <? Z.of_nat (length array)
      then chunkLoop fuel' (i + size) size array
             (chunks ++ [slice i (i + size) array])
      else Some chunks
  end.

Definition chunk {A} (fuel : nat) (array : list A) (size : Z)
  : option (list (list A)) :=
  chunkLoop fuel 0 size array [].

(** *** unique

    [[...new Set(array)]]: a set keeps its elements in the order of
    their first insertion. *)
Definition addOnce {A} `{EqDecision A} (set : list A) (x : A) : list A :=
  if decide (x ∈ set) then set else set ++ [x].

Definition unique {A} `{EqDecision A} (array : list A) : list A :=
  fold_left addOnce array [].

(** *** retryWithBackoff *)

Inductive RetryEvent :=
| Attempt (n : Z)       (* the [n]-th call of [operation] *)
| Backoff (n : Z).      (* [exponentialBackoff(n, ...)] *)

Inductive Settled (A : Type) :=
| Returned (a : A)
| Rejected (lastError : option string).   (* [None] is [undefined] *)
Arguments Returned {A} a.
Arguments Rejected {A} lastError.

(** [operation n] is what the [n]-th call of [operation] comes back
    with. *)
Fixpoint retryLoop {A} (fuel : nat) (operation : Z -> Send.outcome A)
    (attempt maxAttempts : Z) (lastError : option string)
    (trace : list RetryEvent) : option (Settled A * list RetryEvent) :=
  match fuel with
  | O => None
  | S fuel' =>
      if attempt <=? maxAttempts then
        match operation attempt with
        | Send.Ok a => Some (Returned a, trace ++ [Attempt attempt])
        | Send.Throws e =>
            if attempt =? maxAttempts
            then Some (Rejected (Some e), trace ++ [Attempt attempt])
            else retryLoop fuel' operation (attempt + 1) maxAttempts (Some e)
                   (trace ++ [Attempt attempt; Backoff attempt])
        end
      else Some (Rejected lastError, trace)
  end.

Definition retryWithBackoff {A} (operation : Z -> Send.outcome A)
    (maxAttempts : Z) : option (Settled A * list RetryEvent) :=
  retryLoop (S (Z.to_nat maxAttempts)) operation 1 maxAttempts None [].

(** The calls and pauses of [k] failed attempts in a row. *)
Definition failedAttempts (k : Z) : list RetryEvent :=
  flat_map (fun j => [Attempt j; Backoff j]) (seqZ 1 k).

(** *** The string hash behind [sha256] and [createUniqueId] *)

(** [ToInt32]. *)
Definition toInt32 (z : Z) : Z := (z + 2 ^ 31) mod 2 ^ 32 - 2 ^ 31.

(** One turn of the loop: [hash = (hash << 5) - hash + char] and then
    [hash = hash & hash]. *)
Definition hashStep (hash : Z) (char : ascii) : Z :=
  toInt32 (toInt32 (hash * 32) - hash + Z.of_N (code char)).

Fixpoint hashFrom (hash : Z) (str : string) : Z :=
  match str with
  | EmptyString => hash
  | String c r => hashFrom (hashStep hash c) r
  end.

Definition hash32 (data : string) : Z := hashFrom 0 data.

Definition hexDigit (d : Z) : ascii :=
  if d <? 10 then ascii_of_N (Z.to_N (48 + d))
  else ascii_of_N (Z.to_N (87 + d)).

(** [n.toString(16)] for a non-negative integer, most significant digit
    first; each turn takes one digit off, so [hexFuel n] turns are
    enough. *)
Fixpoint hexDigits (fuel : nat) (n : Z) (acc : string) : string :=
  match fuel with
  | O => acc
  | S fuel' =>
      let acc' := String (hexDigit (n mod 16)) acc in
      if n <? 16 then acc' else hexDigits fuel' (n / 16) acc'
  end.

Definition hexFuel (n : Z) : nat := S (Z.to_nat (Z.log2 n)).

Definition toString16 (n : Z) : string := hexDigits (hexFuel n) n EmptyString.

Definition sha256 (data : string) : string := toString16 (Z.abs (hash32 data)).

(** [s.substring(0, n)]. *)
Fixpoint substring0 (n : nat) (s : string) : string :=
  match n, s with
  | S n', String c r => String c (substring0 n' r)
  | _, _ => EmptyString
  end.

Definition uniqueIdLength : nat := 16.

(** [salt] is a string; the empty string is falsy. *)
Definition createUniqueId (data salt : string) : string :=
  let hashInput := if isEmpty salt then data
                   else (data ++ ":" ++ salt)%string in
  substring0 uniqueIdLength (sha256 hashInput).

(** The polynomial the loop evaluates, without wrap-around. *)
Fixpoint polyFrom (acc : Z) (str : string) : Z :=
  match str with
  | EmptyString => acc
  | String c r => polyFrom (31 * acc + Z.of_N (code c)) r
  end.

End UtilFns.

(** ** core/sent-history.js: statistics *)

Module SentHistoryStats.
Import SentHistory.

Record Stats := {
  uniqueContacts : Z;
  totalMessages : Z;
  oldestSent : option Z;
  newestSent : option Z
}.

Definition sumCounts (h : gmap string Entry) : Z :=
  map_fold (fun _ contact sum => sum + count contact) 0 h.

(** [Math.min(...)] and [Math.max(...)] over the entries; [None] is the
    [null] returned for an empty history. *)
Definition extreme (pick : Z -> Z -> Z) (field : Entry -> Z)
    (h : gmap string Entry) : option Z :=
  map_fold (fun _ c acc => Some (match acc with
                                 | Some m => pick m (field c)
                                 | None => field c
                                 end)) None h.

Definition getStats (h : gmap string Entry) : Stats :=
  {| uniqueContacts := Z.of_nat (size h);
     totalMessages := sumCounts h;
     oldestSent := extreme Z.min first_sent h;
     newestSent := extreme Z.max last_sent h |}.

Definition clearHistory (h : gmap string Entry) : gmap string Entry := ∅.

(** The entry [recordSent] writes for a key, from the entry the
    history held for it. *)
Definition recorded (now : Z) (old : option Entry) (sourceMessageId : string)
  : Entry :=
  match old with
  | Some e =>
      {| first_sent := first_sent e; last_sent := now;
         count := count e + 1;
         source_message_ids := source_message_ids e ++ [sourceMessageId];
         marked_as_processed := marked_as_processed e |}
  | None =>
      {| first_sent := now; last_sent := now; count := 1;
         source_message_ids := [sourceMessageId];
         marked_as_processed := false |}
  end.

(** The key reads an inherited object: no entry of its own, and one of
    the names every object inherits. *)
Definition readsInherited (h : gmap string Entry) (contactKey : string)
  : Prop :=
  h !! normalizeContactKey contactKey = None
  /\ inheritedName (normalizeContactKey contactKey) = true.

End SentHistoryStats.

(** ** core/sender-time.js: waiting for the window, workdays *)

Module SenderClock.
Import SenderTime.

Definition msPerDay : Z := 86400000.

(** [instant.add(1, 'day')]. *)
Definition addDay (i : Instant) : Instant := (fun t => t + msPerDay) <$> i.

(** [Math.max(0, nextWindowStart.diff(now, 'millisecond'))]; [None] is
    the NaN an invalid window gives. *)
Definition getTimeUntilNextWindowOpen (window : Window) (nowMs : Z)
  : option Z :=
  let now : Instant := Some nowMs in
  let windowStart := atHourMinute (part (start window) 0) (part (start window) 1) in
  let windowEnd := atHourMinute (part (end_ window) 0) (part (end_ window) 1) in
  let nextWindowStart :=
    if isAfter windowStart windowEnd
    then (if isBefore now windowEnd then addDay windowStart else windowStart)
    else (if isBefore now windowStart then windowStart
          else addDay windowStart) in
  (fun t => Z.max 0 (t - nowMs)) <$> nextWindowStart.

(** The window's two ends as offsets into the day. *)
Definition windowStartMs (window : Window) : Instant :=
  atHourMinute (part (start window) 0) (part (start window) 1).
Definition windowEndMs (window : Window) : Instant :=
  atHourMinute (part (end_ window) 0) (part (end_ window) 1).

(** A date is the number of its day, counted from 1 January 1970, a
    Thursday; [day()] numbers the days of the week from Sunday. *)
Definition day (date : Z) : Z := (date + 4) mod 7.

Definition isWeekend (date : Z) : bool :=
  let weekday := day date in (weekday =? 6) || (weekday =? 0).

Definition isWorkday (date : Z) : bool := negb (isWeekend date).

Fixpoint skipWeekend (fuel : nat) (nextDay : Z) : option Z :=
  match fuel with
  | O => None
  | S fuel' =>
      if negb (isWorkday nextDay) then skipWeekend fuel' (nextDay + 1)
      else Some nextDay
  end.

(** A week of turns is more than the loop can need. *)
Definition getNextWorkday (from : Z) : option Z := skipWeekend 7 (from + 1).

End SenderClock.

(** ** core/checkpoint.js *)

Module Checkpoints.

(** The checkpoint in memory and the one last written to the file. *)
Record CheckpointManager := {
  memory : Send.Checkpoint;
  onDisk : Send.Checkpoint
}.

Definition saveInterval : Z := 5.

Definition updateProgress (m : CheckpointManager)
    (update : string * bool) : CheckpointManager :=
  let c := Send.updateProgress (fst update) (snd update) (memory m) in
  {| memory := c;
     onDisk := if Z.rem (Send.processed_count c) saveInterval =? 0
               then c else onDisk m |}.

(** [loadCheckpoint] when there is no file: a new checkpoint, saved. *)
Definition newCheckpoint : CheckpointManager :=
  let c := {| Send.last_processed_contact := None;
              Send.processed_count := 0;
              Send.last_success := None |} in
  {| memory := c; onDisk := c |}.

Definition shouldSkipContact (m : CheckpointManager) (contactKey : string)
  : bool :=
  match Send.last_processed_contact (memory m) with
  | None => false
  | Some _ => false
  end.

(** How many processed contacts the file is behind the memory. *)
Definition lag (m : CheckpointManager) : Z :=
  Send.processed_count (memory m) - Send.processed_count (onDisk m).

End Checkpoints.

(** ** outreach/dedupe.js and outreach/send.js: the remaining entry points *)

Module DedupeCheck.
Import JsonDb Dedupe.

Definition statusName (s : Status) : string :=
  match s with
  | pending => "pending" | sent => "sent"
  | skipped => "skipped" | failed => "failed"
  end.

Record DuplicateCheck := {
  isDuplicate : bool;
  existingContact : option Contact;
  reason : option string
}.

Definition alreadyExists : string := "Контакт уже существует со статусом: ".

Definition checkDuplicate (d : ContactDeduper) (contactKey : string)
  : DuplicateCheck :=
  let normalized := Util.normalizeContact contactKey (dedupeConfig d) in
  match findContactByKey (db d) (Util.contactKey normalized) with
  | Some existing =>
      {| isDuplicate := true;
         existingContact := Some existing;
         reason := Some (alreadyExists ++ statusName (status existing))%string |}
  | None =>
      {| isDuplicate := false; existingContact := None; reason := None |}
  end.

Definition normalizeForCheck (d : ContactDeduper) (contact : string) : string :=
  Util.contactKey (Util.normalizeContact contact (dedupeConfig d)).

(** Contacts that have been delivered to or passed over. *)
Definition isSettled (c : Contact) : bool :=
  Status_eqb (status c) sent || Status_eqb (status c) skipped.

(** [a] is to be sent no later than [b]. *)
Definition olderOrEqual (a b : Contact) : Prop := sentAtMs a <= sentAtMs b.

(** A contact queued at a given instant, for worked examples. *)
Definition queuedAt (key : string) (st : Status) (at_ : Z) : Contact :=
  withStatus st None (Some at_) (sample key st None).

Definition threeQueued : Database :=
  ledger [queuedAt "late" pending 300; queuedAt "done" sent 100;
          queuedAt "early" pending 200; queuedAt "twin" pending 200].

End DedupeCheck.

Module SendTasks.
Import JsonDb Send.

Definition ensureTasksLimit : Z := 1.
Definition requeueLimit : Z := 10.

Definition ensureTasksAvailable (s : OutreachSender)
  : bool * OutreachSender :=
  match Dedupe.getContactsForSending (contactDeduper s) ensureTasksLimit with
  | _ :: _ => (true, s)
  | [] =>
      let d := contactDeduper s in
      let out := requeueFailed (Dedupe.db d) requeueLimit in
      let s' := withDeduper (Dedupe.withDb d (after out)) s in
      if 0 <? returned out then
        match Dedupe.getContactsForSending (contactDeduper s')
                ensureTasksLimit with
        | _ :: _ => (true, s')
        | [] => (false, s')
        end
      else (false, s')
  end.

Definition countSends (trace : list Event) : nat :=
  length (List.filter isSendMessage trace).

(** *** A worked state and collaborators

    One pending contact, nothing delivered yet. *)
Definition ghost : Contact := sample "ghost" pending None.

Definition ghostState : OutreachSender :=
  {| contactDeduper := {| Dedupe.db := ledger [ghost];
                          Dedupe.dedupeConfig := Keys.defaultDedupe |};
     sentHistory := ∅;
     checkpoint := {| last_processed_contact := None;
                      processed_count := 0;
                      last_success := None |} |}.

Definition composeHello (ctx : LeadContext) : outcome string := Ok "hello".
Definition nobody (contactKey : string) : outcome bool := Ok false.
Definition anybody (contactKey : string) : outcome bool := Ok true.

Definition delivered : SendResult :=
  {| sr_success := true; sr_messageId := Some 7; sr_error := None;
     sr_floodWaitSeconds := None |}.

Definition deliver (contactKey text : string) : outcome SendResult :=
  Ok delivered.

(** The lead context [sendToContact] builds for a contact. *)
Definition leadContextOf (contact : Contact) (d : string) : LeadContext :=
  {| description := if JsString.isEmpty d then defaultLeadDescription else d;
     lc_contactKey := contact_key contact;
     lc_sourceMessageId := source_message_id contact |}.

End SendTasks.

(** ** core/json-scanner.js: the key read off a peer name *)

Module ScannerKeys.
Import JsString.

(** The class [\w]: [A-Za-z0-9_]. *)
Definition isWordChar (c : ascii) : bool :=
  let n := code c in
  (((48 <=? n) && (n <=? 57)) || ((65 <=? n) && (n <=? 90))
   || (n =? 95) || ((97 <=? n) && (n <=? 122)))%N.

(** [s.replace(/[^...]/g, '')]: the characters of the class are kept. *)
Fixpoint keep (p : ascii -> bool) (s : string) : string :=
  match s with
  | EmptyString => EmptyString
  | String c r => if p c then String c (keep p r) else keep p r
  end.

Fixpoint allChars (p : ascii -> bool) (s : string) : bool :=
  match s with
  | EmptyString => true
  | String c r => p c && allChars p r
  end.

(** [/^[a-zA-Z0-9_]+$/.test(s)] *)
Definition isUsername (s : string) : bool :=
  negb (isEmpty s) && allChars isWordChar s.

Definition extractUsernameFromPeerName (peerName : string) : option string :=
  if isEmpty peerName || String.eqb peerName "Unknown" then None
  else
    let cleanName :=
      toLowerCase
        (keep (fun c => isWordChar c || Ascii.eqb c Util.at_sign) peerName) in
    if (5 <=? Z.of_nat (String.length cleanName))
       && (Z.of_nat (String.length cleanName) <=? 32)
       && isUsername cleanName
    then Some cleanName else None.

(** Lower-case letters, digits and the underscore. *)
Definition isKeyChar (c : ascii) : bool :=
  let n := code c in
  (((48 <=? n) && (n <=? 57)) || (n =? 95)
   || ((97 <=? n) && (n <=? 122)))%N.

End ScannerKeys.

(** * Properties *)

(** ** Facts about the string primitives *)

Section StringFacts.
Import JsString Keys.

Ltac each_char c := destruct c as [[] [] [] [] [] [] [] []]; vm_compute; reflexivity.

Lemma toLowerChar_idem c : toLowerChar (toLowerChar c) = toLowerChar c.
Proof. each_char c. Qed.

Lemma isWhiteSpace_lower c : isWhiteSpace (toLowerChar c) = isWhiteSpace c.
Proof. each_char c. Qed.

Lemma at_sign_lower c :
  Ascii.eqb (toLowerChar c) Util.at_sign = Ascii.eqb c Util.at_sign.
Proof. each_char c. Qed.

Lemma toLowerCase_idem s : toLowerCase (toLowerCase s) = toLowerCase s.
Proof. induction s as [|c r IH]; simpl; [easy|]. now rewrite toLowerChar_idem, IH. Qed.

Lemma toLowerCase_length s : String.length (toLowerCase s) = String.length s.
Proof. induction s; simpl; congruence. Qed.

Lemma toLowerCase_isEmpty s : isEmpty (toLowerCase s) = isEmpty s.
Proof. now destruct s. Qed.

Lemma toLowerCase_trimStart s :
  toLowerCase (trimStart s) = trimStart (toLowerCase s).
Proof.
  induction s as [|c r IH]; simpl; [easy|].
  rewrite isWhiteSpace_lower. now destruct (isWhiteSpace c).
Qed.

Lemma toLowerCase_trimEnd s :
  toLowerCase (trimEnd s) = trimEnd (toLowerCase s).
Proof.
  induction s as [|c r IH]; simpl; [easy|].
  rewrite isWhiteSpace_lower, <- IH, toLowerCase_isEmpty.
  now destruct (isWhiteSpace c && isEmpty (trimEnd r)).
Qed.

Lemma toLowerCase_trim s : toLowerCase (trim s) = trim (toLowerCase s).
Proof. unfold trim. now rewrite toLowerCase_trimEnd, toLowerCase_trimStart. Qed.

Lemma toLowerCase_substring1 s :
  toLowerCase (substring1 s) = substring1 (toLowerCase s).
Proof. now destruct s. Qed.

Lemma startsWith_at_lower s :
  startsWithChar Util.at_sign (toLowerCase s) = startsWithChar Util.at_sign s.
Proof. destruct s; simpl; [easy|]. apply at_sign_lower. Qed.

Lemma toLowerCase_tail c r :
  toLowerCase (String c r) = String c r -> toLowerCase r = r.
Proof. simpl. now intros [= _ ->]. Qed.

(** trimming *)
Lemma trimStart_length s : (String.length (trimStart s) <= String.length s)%nat.
Proof. induction s as [|c r IH]; simpl; [lia|]. destruct (isWhiteSpace c); simpl; lia. Qed.

Lemma trimStart_length_blank s :
  leadingBlank s = true -> (String.length (trimStart s) < String.length s)%nat.
Proof.
  destruct s as [|c r]; simpl; [easy|]. intros ->.
  pose proof (trimStart_length r). lia.
Qed.

Lemma trimStart_id s : leadingBlank s = false -> trimStart s = s.
Proof. destruct s as [|c r]; simpl; [easy|]. now intros ->. Qed.

Lemma trimEnd_length s : (String.length (trimEnd s) <= String.length s)%nat.
Proof.
  induction s as [|c r IH]; simpl; [lia|].
  destruct (isWhiteSpace c && isEmpty (trimEnd r)); simpl; lia.
Qed.

Lemma trimEnd_tail c r : trimEnd (String c r) = String c r -> trimEnd r = r.
Proof.
  simpl. destruct (isWhiteSpace c && isEmpty (trimEnd r)); [easy|].
  now intros [= ->].
Qed.

Lemma trimEnd_idem s : trimEnd (trimEnd s) = trimEnd s.
Proof.
  induction s as [|c r IH]; simpl; [easy|].
  destruct (isWhiteSpace c && isEmpty (trimEnd r)) eqn:E; simpl; [easy|].
  now rewrite IH, E.
Qed.

Lemma trimEnd_substring1 s : trimEnd s = s -> trimEnd (substring1 s) = substring1 s.
Proof. destruct s as [|c r]; simpl substring1; [easy|]. apply trimEnd_tail. Qed.

Lemma trimEnd_suffix p q :
  trimEnd (p ++ q) = (p ++ q)%string -> trimEnd q = q.
Proof.
  induction p as [|c p IH]; simpl String.append; [easy|].
  intros H. apply IH. now apply trimEnd_tail in H.
Qed.

Lemma toLowerCase_suffix p q :
  toLowerCase (p ++ q) = (p ++ q)%string -> toLowerCase q = q.
Proof.
  induction p as [|c p IH]; simpl String.append; [easy|].
  intros H. apply IH. now apply toLowerCase_tail in H.
Qed.

Lemma trim_length s : (String.length (trim s) <= String.length s)%nat.
Proof.
  unfold trim. pose proof (trimEnd_length (trimStart s)).
  pose proof (trimStart_length s). lia.
Qed.

Lemma trim_length_blank s :
  leadingBlank s = true -> (String.length (trim s) < String.length s)%nat.
Proof.
  intros H. unfold trim. pose proof (trimEnd_length (trimStart s)).
  pose proof (trimStart_length_blank s H). lia.
Qed.

Lemma trim_trimEnd s : trimEnd (trim s) = trim s.
Proof. apply trimEnd_idem. Qed.

Lemma trim_id s : trimEnd s = s -> leadingBlank s = false -> trim s = s.
Proof. intros H1 H2. unfold trim. now rewrite trimStart_id. Qed.

Lemma substring1_length s : (String.length (substring1 s) <= String.length s)%nat.
Proof. destruct s; simpl; lia. Qed.

Lemma substring1_length_lt c s :
  startsWithChar c s = true -> (String.length (substring1 s) < String.length s)%nat.
Proof. destruct s; simpl; [easy|lia]. Qed.

(** splitting *)
Lemma split_nonempty sep s : split sep s <> [].
Proof.
  destruct s as [|c r]; simpl; [easy|].
  destruct (Ascii.eqb c sep); [easy|]. now destruct (split sep r).
Qed.

Lemma split_singleton sep s h : split sep s = [h] -> h = s.
Proof.
  revert h. induction s as [|c r IH]; simpl; intros h.
  - now intros [= <-].
  - destruct (Ascii.eqb c sep).
    + intros [= _ H]. now apply split_nonempty in H.
    + destruct (split sep r) as [|h' t] eqn:E.
      * now apply split_nonempty in E.
      * intros [= <- ->]. now rewrite (IH h' eq_refl).
Qed.

Lemma pop_cons x l : l <> [] -> pop (x :: l) = pop l.
Proof. unfold pop. now destruct l. Qed.

(** How [pop (split sep _)] unfolds on a non-empty string. *)
Lemma pop_split_cons sep c r :
  pop (split sep (String c r)) =
    if Ascii.eqb c sep then pop (split sep r)
    else match split sep r with
         | [_] => String c r
         | _ => pop (split sep r)
         end.
Proof.
  cbn [split]. destruct (Ascii.eqb c sep).
  - apply pop_cons, split_nonempty.
  - destruct (split sep r) as [|h [|h2 t]] eqn:E.
    + now apply split_nonempty in E.
    + now rewrite (split_singleton _ _ _ E).
    + reflexivity.
Qed.

Lemma pop_split_suffix sep s :
  exists p, s = (p ++ pop (split sep s))%string.
Proof.
  induction s as [|c r [p IH]].
  - now exists "".
  - rewrite pop_split_cons. destruct (Ascii.eqb c sep).
    + exists (String c p). now rewrite IH at 1.
    + destruct (split sep r) as [|h [|h2 t]] eqn:E.
      * now apply split_nonempty in E.
      * now exists "".
      * exists (String c p). now rewrite IH at 1.
Qed.

Lemma includes_slash_cons c r :
  includes "/" (String c r) = Ascii.eqb c Util.slash || includes "/" r.
Proof.
  cbn [includes String.prefix].
  destruct (ascii_dec "/" c) as [<-|n].
  - now destruct r.
  - now destruct (Ascii.eqb_spec c Util.slash) as [->|].
Qed.

Lemma pop_split_no_slash s :
  includes "/" (pop (split Util.slash s)) = false.
Proof.
  induction s as [|c r IH]; [reflexivity|].
  rewrite pop_split_cons. destruct (Ascii.eqb c Util.slash) eqn:Ec; [exact IH|].
  destruct (split Util.slash r) as [|h [|h2 t]] eqn:E.
  - reflexivity.
  - rewrite includes_slash_cons, Ec. cbn [orb].
    rewrite (split_singleton _ _ _ E) in IH. exact IH.
  - exact IH.
Qed.

Lemma string_length_app p q :
  String.length (p ++ q) = (String.length p + String.length q)%nat.
Proof.
  induction p as [|c p IH]; [reflexivity|].
  change (S (String.length (p ++ q)) = S (String.length p + String.length q)).
  now rewrite IH.
Qed.

Lemma pop_split_length sep s :
  (String.length (pop (split sep s)) <= String.length s)%nat.
Proof.
  destruct (pop_split_suffix sep s) as [p H].
  rewrite H at 2. rewrite string_length_app. lia.
Qed.

Lemma pop_split_trimEnd sep s :
  trimEnd s = s -> trimEnd (pop (split sep s)) = pop (split sep s).
Proof.
  intros H. destruct (pop_split_suffix sep s) as [p Hp].
  rewrite Hp in H. exact (trimEnd_suffix _ _ H).
Qed.

Lemma pop_split_lower sep s :
  toLowerCase s = s -> toLowerCase (pop (split sep s)) = pop (split sep s).
Proof.
  intros H. destruct (pop_split_suffix sep s) as [p Hp].
  rewrite Hp in H. exact (toLowerCase_suffix _ _ H).
Qed.
End StringFacts.

(** ** Normalisation of contact keys *)

Section Normalisation.
Import JsString Keys.

Lemma normalizeContactKey_eq k :
  SentHistory.normalizeContactKey k = stripLeadingAt (trim (toLowerCase k)).
Proof. now destruct k. Qed.

Lemma stripLeadingAt_length s :
  (String.length (stripLeadingAt s) <= String.length s)%nat.
Proof. unfold stripLeadingAt. destruct (leadingAt s); [apply substring1_length|lia]. Qed.

Lemma stripLeadingAt_trimEnd s :
  trimEnd s = s -> trimEnd (stripLeadingAt s) = stripLeadingAt s.
Proof.
  unfold stripLeadingAt. destruct (leadingAt s); [apply trimEnd_substring1|easy].
Qed.

Lemma stripLeadingAt_lower s :
  toLowerCase (stripLeadingAt s) = stripLeadingAt (toLowerCase s).
Proof.
  unfold stripLeadingAt, leadingAt. rewrite startsWith_at_lower.
  destruct (startsWithChar Util.at_sign s); [apply toLowerCase_substring1|easy].
Qed.

Lemma normalizeContactKey_length k :
  (String.length (SentHistory.normalizeContactKey k) <= String.length k)%nat.
Proof.
  rewrite normalizeContactKey_eq.
  pose proof (stripLeadingAt_length (trim (toLowerCase k))).
  pose proof (trim_length (toLowerCase k)).
  rewrite toLowerCase_length in *. lia.
Qed.

Lemma normalizeContactKey_lower k :
  toLowerCase (SentHistory.normalizeContactKey k) = SentHistory.normalizeContactKey k.
Proof.
  rewrite normalizeContactKey_eq, stripLeadingAt_lower, toLowerCase_trim.
  now rewrite toLowerCase_idem.
Qed.

Lemma normalizeContactKey_trimEnd k :
  trimEnd (SentHistory.normalizeContactKey k) = SentHistory.normalizeContactKey k.
Proof.
  rewrite normalizeContactKey_eq. apply stripLeadingAt_trimEnd, trim_trimEnd.
Qed.

Lemma normalizeContactKey_fixed n :
  toLowerCase n = n -> trimEnd n = n ->
  leadingBlank n = false -> leadingAt n = false ->
  SentHistory.normalizeContactKey n = n.
Proof.
  intros Hl Ht Hb Ha. rewrite normalizeContactKey_eq, Hl, (trim_id _ Ht Hb).
  unfold stripLeadingAt. now rewrite Ha.
Qed.

Lemma normalizeContactKey_shrinks n :
  toLowerCase n = n -> trimEnd n = n ->
  leadingBlank n = true \/ leadingAt n = true ->
  (String.length (SentHistory.normalizeContactKey n) < String.length n)%nat.
Proof.
  intros Hl Ht H. rewrite normalizeContactKey_eq, Hl.
  pose proof (stripLeadingAt_length (trim n)).
  destruct (leadingBlank n) eqn:Hb.
  - pose proof (trim_length_blank n Hb). lia.
  - destruct H as [H|H]; [easy|].
    rewrite (trim_id _ Ht Hb) in *. unfold stripLeadingAt. rewrite H.
    now apply substring1_length_lt with (c := Util.at_sign).
Qed.

(** The Sent History normalisation is idempotent at [k] exactly when the
    normalised key starts with neither a blank nor an at-sign. *)
Lemma normalizeContactKey_idempotent_iff (k : string) :
  let n := SentHistory.normalizeContactKey k in
  SentHistory.normalizeContactKey n = n
  <-> leadingBlank n = false /\ leadingAt n = false.
Proof.
  intros n.
  pose proof (normalizeContactKey_lower k) as Hl.
  pose proof (normalizeContactKey_trimEnd k) as Ht. fold n in Hl, Ht.
  split.
  - intros Heq.
    destruct (leadingBlank n) eqn:Hb, (leadingAt n) eqn:Ha; try easy;
      exfalso;
      (assert (String.length (SentHistory.normalizeContactKey n) < String.length n)%nat
        as Hlt by (apply normalizeContactKey_shrinks; auto));
      rewrite Heq in Hlt; lia.
  - intros [Hb Ha]. now apply normalizeContactKey_fixed.
Qed.

Lemma dedupKey_eq cfg k :
  dedupKey cfg k =
    if includes "/" (prepared cfg k) then lastSegmentOr (prepared cfg k)
    else prepared cfg k.
Proof.
  unfold dedupKey, Util.normalizeContact, prepared, lastSegmentOr, leadingAt.
  cbn [Util.contactKey].
  match goal with |- context [includes "/" ?x] => destruct (includes "/" x) end;
    reflexivity.
Qed.

Lemma prepared_trimEnd cfg k : trimEnd (prepared cfg k) = prepared cfg k.
Proof.
  unfold prepared.
  assert (trimEnd (if Util.stripAt cfg && leadingAt (trim k)
                   then substring1 (trim k) else trim k)
          = (if Util.stripAt cfg && leadingAt (trim k)
             then substring1 (trim k) else trim k)) as H.
  { destruct (Util.stripAt cfg && leadingAt (trim k));
      [apply trimEnd_substring1|]; apply trim_trimEnd. }
  destruct (Util.lowercase cfg); [|exact H].
  now rewrite <- toLowerCase_trimEnd, H.
Qed.

Lemma prepared_lower cfg k :
  Util.lowercase cfg = true -> toLowerCase (prepared cfg k) = prepared cfg k.
Proof. unfold prepared. intros ->. apply toLowerCase_idem. Qed.

Lemma prepared_length cfg k :
  (String.length (prepared cfg k) <= String.length (trim k))%nat.
Proof.
  unfold prepared.
  assert (String.length (if Util.stripAt cfg && leadingAt (trim k)
                         then substring1 (trim k) else trim k)
          <= String.length (trim k))%nat as H.
  { destruct (Util.stripAt cfg && leadingAt (trim k));
      [apply substring1_length|lia]. }
  destruct (Util.lowercase cfg); [rewrite toLowerCase_length|]; exact H.
Qed.

Lemma prepared_length_at cfg k :
  Util.stripAt cfg && leadingAt (trim k) = true ->
  (String.length (prepared cfg k) < String.length (trim k))%nat.
Proof.
  unfold prepared. intros H. rewrite H.
  apply andb_prop in H as [_ H].
  pose proof (substring1_length_lt _ _ H).
  destruct (Util.lowercase cfg); [rewrite toLowerCase_length|]; assumption.
Qed.

Lemma lastSegmentOr_length n :
  (String.length (lastSegmentOr n) <= String.length n)%nat.
Proof.
  unfold lastSegmentOr. destruct (isEmpty _); [lia|apply pop_split_length].
Qed.

Lemma dedupKey_length cfg k :
  (String.length (dedupKey cfg k) <= String.length (prepared cfg k))%nat.
Proof.
  rewrite dedupKey_eq. destruct (includes "/" _); [apply lastSegmentOr_length|lia].
Qed.

Lemma dedupKey_trimEnd cfg k : trimEnd (dedupKey cfg k) = dedupKey cfg k.
Proof.
  rewrite dedupKey_eq. pose proof (prepared_trimEnd cfg k) as H.
  destruct (includes "/" _); [|exact H].
  unfold lastSegmentOr. destruct (isEmpty _); [exact H|].
  now apply pop_split_trimEnd.
Qed.

Lemma dedupKey_lower cfg k :
  Util.lowercase cfg = true -> toLowerCase (dedupKey cfg k) = dedupKey cfg k.
Proof.
  intros Hc. rewrite dedupKey_eq. pose proof (prepared_lower cfg k Hc) as H.
  destruct (includes "/" _); [|exact H].
  unfold lastSegmentOr. destruct (isEmpty _); [exact H|].
  now apply pop_split_lower.
Qed.

(** A key that still holds a slash is one whose last segment is empty. *)
Lemma dedupKey_slash cfg k :
  includes "/" (dedupKey cfg k) = true ->
  isEmpty (pop (split Util.slash (dedupKey cfg k))) = true.
Proof.
  rewrite dedupKey_eq. destruct (includes "/" (prepared cfg k)) eqn:Hs.
  - unfold lastSegmentOr.
    destruct (isEmpty (pop (split Util.slash (prepared cfg k)))) eqn:He.
    + now intros _.
    + now rewrite pop_split_no_slash.
  - now rewrite Hs.
Qed.

Lemma dedupKey_fixed cfg n :
  trimEnd n = n ->
  (Util.lowercase cfg = true -> toLowerCase n = n) ->
  (includes "/" n = true -> isEmpty (pop (split Util.slash n)) = true) ->
  leadingBlank n = false ->
  Util.stripAt cfg && leadingAt n = false ->
  dedupKey cfg n = n.
Proof.
  intros Ht Hl Hs Hb Ha.
  assert (prepared cfg n = n) as Hp.
  { unfold prepared. rewrite (trim_id _ Ht Hb), Ha.
    destruct (Util.lowercase cfg); auto. }
  rewrite dedupKey_eq, Hp. destruct (includes "/" n); [|easy].
  unfold lastSegmentOr. now rewrite Hs.
Qed.

Lemma dedupKey_shrinks cfg n :
  trimEnd n = n ->
  leadingBlank n = true \/ Util.stripAt cfg && leadingAt n = true ->
  (String.length (dedupKey cfg n) < String.length n)%nat.
Proof.
  intros Ht H.
  pose proof (dedupKey_length cfg n). pose proof (prepared_length cfg n).
  destruct (leadingBlank n) eqn:Hb.
  - pose proof (trim_length_blank n Hb). lia.
  - destruct H as [H|H]; [easy|].
    pose proof (prepared_length_at cfg n) as Hlt.
    rewrite (trim_id _ Ht Hb) in Hlt. specialize (Hlt H). lia.
Qed.

(** The same for the dedup layer, where the at-sign only matters when
    the configuration strips it. *)
Lemma dedupKey_idempotent_iff (cfg : Util.DedupeConfig) (k : string) :
  let n := dedupKey cfg k in
  dedupKey cfg n = n
  <-> leadingBlank n = false /\ Util.stripAt cfg && leadingAt n = false.
Proof.
  intros n.
  pose proof (dedupKey_trimEnd cfg k) as Ht. fold n in Ht.
  split.
  - intros Heq.
    destruct (leadingBlank n) eqn:Hb, (Util.stripAt cfg && leadingAt n) eqn:Ha;
      try easy; exfalso;
      (assert (String.length (dedupKey cfg n) < String.length n)%nat
        as Hlt by (apply dedupKey_shrinks; auto));
      rewrite Heq in Hlt; lia.
  - intros [Hb Ha]. apply dedupKey_fixed; auto.
    + intros Hc. apply dedupKey_lower, Hc.
    + apply dedupKey_slash.
Qed.
End Normalisation.



(** ** Claims on normalisation and on the work window *)

Section NormalisationClaims.
Import Keys.

(** C5 (corrected). Normalising a contact key twice gives the same key
    as normalising it once exactly when the normalised key starts with
    neither a blank nor an at-sign.  This holds for the Sent History
    Store's [normalizeContactKey] and for the dedup layer's
    [normalizeContact], where the at-sign only counts when the
    configuration strips it. *)
Theorem normalization_idempotent_iff (cfg : Util.DedupeConfig) (k : string) :
  (let n := SentHistory.normalizeContactKey k in
   SentHistory.normalizeContactKey n = n
   <-> leadingBlank n = false /\ leadingAt n = false)
  /\
  (let n := dedupKey cfg k in
   dedupKey cfg n = n
   <-> leadingBlank n = false /\ Util.stripAt cfg && leadingAt n = false).
Proof.
  split.
  - apply normalizeContactKey_idempotent_iff.
  - apply dedupKey_idempotent_iff.
Qed.

(** C5 as stated fails: only one at-sign is stripped per pass, so the
    key "@@bob" needs two passes in both normalisations. *)
Lemma normalization_not_idempotent :
  SentHistory.normalizeContactKey (SentHistory.normalizeContactKey "@@bob")
    <> SentHistory.normalizeContactKey "@@bob"
  /\ dedupKey defaultDedupe (dedupKey defaultDedupe "@@bob")
    <> dedupKey defaultDedupe "@@bob".
Proof. split; vm_compute; discriminate. Qed.

Example normalizeContactKey_ivan :
  SentHistory.normalizeContactKey "  @Ivan_Dev " = "ivan_dev".
Proof. reflexivity. Qed.

Example normalizeContact_link :
  Util.normalizeContact "https://t.me/Ivan_Dev" defaultDedupe
  = {| Util.contactKey := "ivan_dev"; Util.contactType := Util.link |}.
Proof. reflexivity. Qed.

Example normalizeContact_blank_after_at :
  dedupKey defaultDedupe "@ bob" = " bob"
  /\ dedupKey defaultDedupe " bob" = "bob".
Proof. split; reflexivity. Qed.
End NormalisationClaims.

Section WorkWindow.
Import SenderTime.

Lemma overnight_bounds :
  atHourMinute (part (start overnight) 0) (part (start overnight) 1)
    = Some 79200000
  /\ atHourMinute (part (end_ overnight) 0) (part (end_ overnight) 1)
    = Some 21600000.
Proof. split; reflexivity. Qed.

(** C9. With the window open from 22:00 to 06:00 (start after end, so
    open overnight), every instant of the minute 23:30 is inside the
    window and every instant of the minute 12:00 is outside. *)
Theorem work_window_wraps_midnight (s ms : Z) :
  0 <= s < 60 -> 0 <= ms < 1000 ->
  isInWorkWindow overnight (timeOfDay 23 30 s ms) = true
  /\ isInWorkWindow overnight (timeOfDay 12 0 s ms) = false.
Proof.
  intros Hs Hms. destruct overnight_bounds as [Hstart Hend].
  unfold isInWorkWindow. rewrite Hstart, Hend.
  unfold timeOfDay, msPerHour, msPerMinute, isAfter, isBefore.
  replace (21600000 <? 79200000) with true by reflexivity.
  split.
  - apply orb_true_iff. left. apply Z.ltb_lt. lia.
  - apply orb_false_iff. split; apply Z.ltb_ge; lia.
Qed.

Lemma work_window_wraps_midnight_witness :
  isInWorkWindow overnight (timeOfDay 23 30 0 0) = true
  /\ isInWorkWindow overnight (timeOfDay 12 0 0 0) = false.
Proof. apply (work_window_wraps_midnight 0 0); lia. Defined.
End WorkWindow.

(** ** Registration of contacts *)

Section Registration.
Import JsonDb Dedupe Keys.

Lemma find_app_none {A} (f : A -> bool) (l : list A) (x : A) :
  List.find f l = None -> List.find f (l ++ [x]) = if f x then Some x else None.
Proof.
  induction l as [|y l IH]; cbn [List.find app]; [easy|].
  destruct (f y); [easy|exact IH].
Qed.

Lemma hasKey_refl (k : string) (c : Contact) :
  contact_key c = k -> hasKey k c = true.
Proof. intros <-. apply String.eqb_refl. Qed.

(** What [registerContact] does when the key has no record yet. *)
Lemma registerContact_fresh now d k peer msg text user descr :
  findContactByKey (db d) (dedupKey (dedupeConfig d) k) = None ->
  exists r,
    registerContact now d k peer msg text user descr
      = (r, withDb d {| contacts := contacts (db d) ++ [r];
                        stats := countOneMore (stats (db d)) |})
    /\ contact_key r = dedupKey (dedupeConfig d) k
    /\ status r = sent
    /\ sent_text r = text
    /\ sent_at r = Some now.
Proof.
  intros Hnone. unfold registerContact. unfold dedupKey in Hnone.
  rewrite Hnone. cbn. eexists. repeat split.
Qed.

Lemma registerContact_known now d k peer msg text user descr e :
  findContactByKey (db d) (dedupKey (dedupeConfig d) k) = Some e ->
  registerContact now d k peer msg text user descr = (e, d).
Proof.
  intros Hsome. unfold registerContact. unfold dedupKey in Hsome.
  now rewrite Hsome.
Qed.

(** C7. Two registrations of one contact key, whatever else the two
    calls carry and whenever they are made, return the same record, and
    the second leaves the ledger as the first left it; the first adds
    one record at most, and none when the key is already there, in
    which case the record found is returned as it is. *)
Theorem registerContact_idempotent
    (now1 now2 : Z) (d : ContactDeduper) (k : string)
    (peer1 peer2 : Z) (msg1 msg2 text1 text2 : string)
    (user1 user2 : option Z) (descr1 descr2 : option string) :
  let first := registerContact now1 d k peer1 msg1 text1 user1 descr1 in
  let second := registerContact now2 (snd first) k peer2 msg2 text2 user2 descr2 in
  fst second = fst first
  /\ snd second = snd first
  /\ match findContactByKey (db d) (dedupKey (dedupeConfig d) k) with
     | Some existing => fst first = existing /\ snd first = d
     | None => contacts (db (snd first)) = contacts (db d) ++ [fst first]
     end.
Proof.
  intros first second.
  destruct (findContactByKey (db d) (dedupKey (dedupeConfig d) k))
    as [e|] eqn:Hfind.
  - assert (first = (e, d)) as Hfirst
      by (apply registerContact_known, Hfind).
    assert (second = (e, d)) as Hsecond.
    { unfold second. rewrite Hfirst. apply registerContact_known, Hfind. }
    rewrite Hsecond, Hfirst. auto.
  - destruct (registerContact_fresh now1 d k peer1 msg1 text1 user1 descr1 Hfind)
      as (r & Hfirst & Hkey & _).
    fold first in Hfirst.
    assert (second = first) as Hsecond.
    { unfold second. rewrite Hfirst. cbn [snd].
      apply registerContact_known. cbn [db withDb contacts dedupeConfig].
      unfold findContactByKey in *. cbn [contacts].
      rewrite (find_app_none _ _ _ Hfind).
      now rewrite (hasKey_refl _ _ Hkey). }
    rewrite Hsecond, Hfirst. auto.
Qed.

(** C3 (corrected). Registering a contact key that has no record in the
    Contact DB appends one record for the normalised key, and that
    record starts with status [sent], carrying the text and the time of
    the registration. *)
Theorem registerContact_creates_sent
    (now : Z) (d : ContactDeduper) (k : string) (peer : Z)
    (msg text : string) (user : option Z) (descr : option string) :
  findContactByKey (db d) (dedupKey (dedupeConfig d) k) = None ->
  let out := registerContact now d k peer msg text user descr in
  status (fst out) = sent
  /\ contact_key (fst out) = dedupKey (dedupeConfig d) k
  /\ contacts (db (snd out)) = contacts (db d) ++ [fst out]
  /\ findContactByKey (db (snd out)) (dedupKey (dedupeConfig d) k)
     = Some (fst out).
Proof.
  intros Hnone out.
  destruct (registerContact_fresh now d k peer msg text user descr Hnone)
    as (r & Hout & Hkey & Hst & _).
  fold out in Hout. rewrite Hout. cbn [fst snd db withDb contacts].
  repeat split; auto.
  unfold findContactByKey in *. cbn [contacts].
  rewrite (find_app_none _ _ _ Hnone). now rewrite (hasKey_refl _ _ Hkey).
Qed.

Lemma registerContact_creates_sent_witness :
  let out := registerContact 1700000000000 emptyDeduper "@Ivan_Dev" 1 "42"
               "hello" None (Some "need a site") in
  status (fst out) = sent
  /\ contact_key (fst out) = dedupKey defaultDedupe "@Ivan_Dev"
  /\ contacts (db (snd out)) = contacts (db emptyDeduper) ++ [fst out]
  /\ findContactByKey (db (snd out)) (dedupKey defaultDedupe "@Ivan_Dev")
     = Some (fst out).
Proof.
  apply (registerContact_creates_sent 1700000000000 emptyDeduper "@Ivan_Dev").
  reflexivity.
Defined.

(** C3 as stated fails: on an empty Contact DB the record created for
    "@Ivan_Dev" does not have status [pending]. *)
Lemma registerContact_not_pending :
  findContactByKey (db emptyDeduper) (dedupKey defaultDedupe "@Ivan_Dev") = None
  /\ status (fst (registerContact 1700000000000 emptyDeduper "@Ivan_Dev" 1 "42"
                    "hello" None (Some "need a site"))) <> pending.
Proof. split; [reflexivity|]. vm_compute. discriminate. Qed.
End Registration.

(** ** Requeueing failed contacts *)

Section Requeue.
Import JsonDb.

(** The loop over the live array computes [requeueFrom] on the part of
    the array not yet visited; in particular the fuel never runs out. *)
Lemma requeueLoop_from (fuel : nat) :
  forall (limit updated removed : Z) (pre rest : list Contact),
    (length rest <= fuel)%nat ->
    requeueLoop fuel limit (length pre) updated removed (pre ++ rest)
    = let '(out, u, r) := requeueFrom limit updated removed rest in
      (pre ++ out, u, r).
Proof.
  induction fuel as [|fuel IH]; intros limit updated removed pre rest Hlen.
  - destruct rest; [|cbn in Hlen; lia]. reflexivity.
  - destruct rest as [|c rest'].
    + cbn [requeueLoop requeueFrom].
      rewrite lookup_ge_None_2 by (rewrite length_app; cbn; lia). reflexivity.
    + cbn [requeueLoop requeueFrom].
      rewrite list_lookup_middle by reflexivity.
      destruct (limit <=? updated); [reflexivity|].
      fold (isFailed c). cbn [length] in Hlen.
      destruct (isFailed c).
      * destruct (isPermanentFailure c).
        -- rewrite delete_middle.
           destruct rest' as [|d rest''].
           ++ destruct fuel; cbn [requeueLoop]; [reflexivity|].
              rewrite lookup_ge_None_2 by (rewrite length_app; cbn; lia).
              reflexivity.
           ++ replace (pre ++ d :: rest'') with ((pre ++ [d]) ++ rest'')
                by (now rewrite <- app_assoc).
              replace (S (length pre)) with (length (pre ++ [d]))
                by (rewrite length_app; cbn; lia).
              rewrite IH by (cbn [length] in Hlen; lia).
              destruct (requeueFrom limit updated (removed + 1) rest'')
                as [[out u] r].
              now rewrite <- app_assoc.
        -- rewrite insert_app_r_alt by lia. rewrite Nat.sub_diag. cbn [insert list_insert].
           replace (pre ++ requeued c :: rest')
             with ((pre ++ [requeued c]) ++ rest')
             by (now rewrite <- app_assoc).
           replace (S (length pre)) with (length (pre ++ [requeued c]))
             by (rewrite length_app; cbn; lia).
           rewrite IH by lia.
           destruct (requeueFrom limit (updated + 1) removed rest')
             as [[out u] r].
           now rewrite <- app_assoc.
      * replace (pre ++ c :: rest') with ((pre ++ [c]) ++ rest')
          by (now rewrite <- app_assoc).
        replace (S (length pre)) with (length (pre ++ [c]))
          by (rewrite length_app; cbn; lia).
        rewrite IH by lia.
        destruct (requeueFrom limit updated removed rest') as [[out u] r].
        now rewrite <- app_assoc.
Qed.

(** More fuel than the length of the array changes nothing. *)
Lemma requeueLoop_fuel (fuel : nat) (limit : Z) (cs : list Contact) :
  (length cs <= fuel)%nat ->
  requeueLoop fuel limit 0 0 0 cs = requeueLoop (length cs) limit 0 0 0 cs.
Proof.
  intros H.
  pose proof (requeueLoop_from fuel limit 0 0 [] cs H) as H1.
  pose proof (requeueLoop_from (length cs) limit 0 0 [] cs (Nat.le_refl _))
    as H2.
  cbn [length app] in H1, H2. now rewrite H1, H2.
Qed.

Lemma requeueFailed_from (db : Database) (limit : Z) :
  requeueFailed db limit
  = let '(out, u, r) := requeueFrom limit 0 0 (contacts db) in
    {| returned := u; deleted := r;
       after := {| contacts := out; stats := stats db |} |}.
Proof.
  unfold requeueFailed.
  pose proof (requeueLoop_from (length (contacts db)) limit 0 0 []
                (contacts db) (Nat.le_refl _)) as H.
  cbn [length app] in H. rewrite H.
  now destruct (requeueFrom limit 0 0 (contacts db)) as [[out u] r].
Qed.

Lemma list_length_ind {A} (P : list A -> Prop) :
  (forall l, (forall l', (length l' < length l)%nat -> P l') -> P l) ->
  forall l, P l.
Proof.
  intros step l.
  assert (forall n l', (length l' < n)%nat -> P l') as H.
  { induction n as [|n IHn]; intros l' Hl'; [lia|].
    apply step. intros l'' Hl''. apply IHn. lia. }
  apply (H (S (length l))). lia.
Qed.

Lemma requeued_pending c : isPending (requeued c) = true.
Proof. reflexivity. Qed.

Lemma failed_not_pending c : isFailed c = true -> isPending c = false.
Proof. unfold isFailed, isPending. now destruct (status c). Qed.

Lemma countWhere_cons p c l :
  countWhere p (c :: l) = (if p c then 1 else 0) + countWhere p l.
Proof.
  unfold countWhere. cbn [List.filter]. destruct (p c); cbn [length]; lia.
Qed.

Lemma countWhere_nonneg p l : 0 <= countWhere p l.
Proof. unfold countWhere. lia. Qed.

Lemma fromLedger_cons l c x : fromLedger l x -> fromLedger (c :: l) x.
Proof.
  intros [H|(y & Hy & H)]; [left|right; exists y]; cbn [In]; auto.
Qed.

(** The accounting of one pass, from any point of the array on. *)
Lemma requeueFrom_accounts (limit : Z) :
  forall rest updated removed,
    let '(out, u, r) := requeueFrom limit updated removed rest in
    updated <= u /\ u <= Z.max updated limit
    /\ removed <= r
    /\ Z.of_nat (length out) + (r - removed) = Z.of_nat (length rest)
    /\ countWhere isPending out = countWhere isPending rest + (u - updated)
    /\ forall x, In x out -> fromLedger rest x.
Proof.
  induction rest as [rest IH] using list_length_ind; intros updated removed.
  destruct rest as [|c rest']; cbn [requeueFrom].
  - repeat split; try lia. intros x [].
  - destruct (Z.leb_spec limit updated) as [Hstop|Hgo].
    + repeat split; try lia. intros x Hx. now left.
    + destruct (isFailed c) eqn:Hf.
      * destruct (isPermanentFailure c) eqn:Hp.
        -- destruct rest' as [|d rest''].
           ++ rewrite countWhere_cons, (failed_not_pending _ Hf).
              cbn [length]. repeat split; try lia. intros x [].
           ++ specialize (IH rest'' ltac:(cbn; lia) updated (removed + 1)).
              destruct (requeueFrom limit updated (removed + 1) rest'')
                as [[out u] r].
              destruct IH as (H1 & H2 & H3 & H4 & H5 & H6).
              rewrite !countWhere_cons, (failed_not_pending _ Hf).
              cbn [length]. repeat split; try lia.
              intros x [<-|Hx].
              ** left. cbn. auto.
              ** now apply fromLedger_cons, fromLedger_cons, H6.
        -- specialize (IH rest' ltac:(cbn; lia) (updated + 1) removed).
           destruct (requeueFrom limit (updated + 1) removed rest')
             as [[out u] r].
           destruct IH as (H1 & H2 & H3 & H4 & H5 & H6).
           rewrite !countWhere_cons, requeued_pending,
             (failed_not_pending _ Hf).
           cbn [length]. repeat split; try lia.
           intros x [<-|Hx].
           ** right. exists c. cbn. auto.
           ** now apply fromLedger_cons, H6.
      * specialize (IH rest' ltac:(cbn; lia) updated removed).
        destruct (requeueFrom limit updated removed rest') as [[out u] r].
        destruct IH as (H1 & H2 & H3 & H4 & H5 & H6).
        rewrite !countWhere_cons. cbn [length]. repeat split; try lia.
        intros x [<-|Hx].
        ** left. cbn. auto.
        ** now apply fromLedger_cons, H6.
Qed.

(** Up to the first record with a permanent failure nothing is deleted,
    so nothing is passed over: failed records are reset one by one. *)
Lemma requeueFrom_prefix (limit : Z) :
  forall pre rest updated removed,
    Forall (fun x => isFailed x && isPermanentFailure x = false) pre ->
    updated + countWhere isFailed pre < limit ->
    requeueFrom limit updated removed (pre ++ rest)
    = let '(out, u, r) :=
        requeueFrom limit (updated + countWhere isFailed pre) removed rest in
      (map requeueIfFailed pre ++ out, u, r).
Proof.
  induction pre as [|c pre IH]; intros rest updated removed Hpre Hlim.
  - cbn [app map]. unfold countWhere; cbn. rewrite Z.add_0_r.
    now destruct (requeueFrom limit updated removed rest) as [[out u] r].
  - inversion Hpre as [|? ? Hc Hpre']; subst.
    rewrite countWhere_cons in Hlim |- *.
    pose proof (countWhere_nonneg isFailed pre).
    cbn [app requeueFrom map]. unfold requeueIfFailed at 1.
    destruct (Z.leb_spec limit updated) as [Hstop|Hgo];
      [destruct (isFailed c); lia|].
    destruct (isFailed c) eqn:Hf.
    + cbn [andb] in Hc. rewrite Hc.
      rewrite IH by (auto; lia).
      rewrite Z.add_assoc.
      now destruct (requeueFrom limit _ removed rest) as [[out u] r].
    + rewrite IH by (auto; lia).
      rewrite Z.add_0_l.
      now destruct (requeueFrom limit _ removed rest) as [[out u] r].
Qed.

Lemma requeueFailed_accounts (db : Database) (limit : Z) :
  let out := requeueFailed db limit in
  0 <= returned out <= Z.max 0 limit
  /\ 0 <= deleted out
  /\ Z.of_nat (length (contacts (after out))) + deleted out
     = Z.of_nat (length (contacts db))
  /\ countWhere isPending (contacts (after out))
     = countWhere isPending (contacts db) + returned out
  /\ forall x, In x (contacts (after out)) -> fromLedger (contacts db) x.
Proof.
  cbv zeta. rewrite requeueFailed_from.
  pose proof (requeueFrom_accounts limit (contacts db) 0 0) as H.
  destruct (requeueFrom limit 0 0 (contacts db)) as [[out u] r].
  cbn [returned deleted after contacts].
  destruct H as (H1 & H2 & H3 & H4 & H5 & H6).
  repeat split; try lia. exact H6.
Qed.

(** C10. In [requeueFailed(limit)] the limit bounds the records reset to
    pending and nothing else: the value returned is the number of
    records that became pending and is at most the limit; every record
    that left the ledger was deleted and is counted apart; and one call
    can delete more records than the limit (here two, with limit one). *)
Theorem requeueFailed_limit_counts_resets :
  (forall (db : Database) (limit : Z),
      let out := requeueFailed db limit in
      0 <= returned out <= Z.max 0 limit
      /\ countWhere isPending (contacts (after out))
         = countWhere isPending (contacts db) + returned out
      /\ 0 <= deleted out
      /\ Z.of_nat (length (contacts (after out))) + deleted out
         = Z.of_nat (length (contacts db)))
  /\ (let gone := sample "gone" failed (Some "USER_DEACTIVATED") in
      let out := requeueFailed
                   (ledger [gone; sample "new" pending None; gone]) 1 in
      returned out = 0 /\ deleted out = 2
      /\ contacts (after out) = [sample "new" pending None]).
Proof.
  split.
  - intros db limit out.
    destruct (requeueFailed_accounts db limit) as (H1 & H2 & H3 & H4 & _).
    fold out in H1, H2, H3, H4. auto.
  - vm_compute. auto.
Qed.

(** C4 (corrected). Whatever the ledger and the limit, [requeueFailed]
    never turns a failed record whose reason matches a
    permanent-failure pattern back into a pending one: every record it
    leaves is a record of the ledger as it was, or a failed record
    without such a reason, reset.  A failed record with such a reason
    is deleted when the pass reaches it with fewer than [limit] records
    reset: that is, when the records before it hold no permanent
    failure and fewer than [limit] failed records. *)
Theorem requeueFailed_deletes_permanent (db : Database) (limit : Z) :
  let out := requeueFailed db limit in
  (forall x, In x (contacts (after out)) -> fromLedger (contacts db) x)
  /\ forall (pre post : list Contact) (c : Contact),
       contacts db = pre ++ c :: post ->
       isFailed c = true ->
       isPermanentFailure c = true ->
       Forall (fun x => isFailed x && isPermanentFailure x = false) pre ->
       countWhere isFailed pre < limit ->
       1 <= deleted out
       /\ exists post',
            contacts (after out) = map requeueIfFailed pre ++ post'
            /\ (length post' <= length post)%nat
            /\ forall x, In x post' -> fromLedger post x.
Proof.
  intros out. split.
  - apply (requeueFailed_accounts db limit).
  - intros pre post c Hdb Hf Hp Hpre Hlim.
    unfold out. rewrite requeueFailed_from, Hdb.
    rewrite requeueFrom_prefix by (auto; lia). rewrite Z.add_0_l.
    cbn [requeueFrom]. rewrite Hf, Hp.
    destruct (Z.leb_spec limit (countWhere isFailed pre)) as [?|_]; [lia|].
    destruct post as [|d post''].
    + cbn [returned deleted after contacts]. split; [lia|].
      exists []. repeat split; auto. intros x [].
    + pose proof (requeueFrom_accounts limit post''
                    (countWhere isFailed pre) (0 + 1)) as H.
      destruct (requeueFrom limit (countWhere isFailed pre) (0 + 1) post'')
        as [[o u] r].
      cbn [returned deleted after contacts].
      destruct H as (_ & _ & H3 & H4 & _ & H6).
      split; [lia|]. exists (d :: o). repeat split.
      * cbn [length]. lia.
      * intros x [<-|Hx]; [left; cbn; auto|].
        now apply fromLedger_cons, H6.
Qed.

(** The scenario of the specification in a ledger that holds other
    records: a delivery that failed with USER_DEACTIVATED marks the
    contact failed with that reason, and the next [requeueFailed], here
    with limit 2, deletes the record, behind a failed record that is
    reset and a sent one that stays; and on the ledger of the
    counterexample below, with limit 1, what is left is still a record
    of the ledger or a reset of a failure that is not permanent. *)
Lemma requeueFailed_deletes_permanent_witness :
  let busy := sample "busy" failed (Some "TIMEOUT") in
  let done := sample "done" sent None in
  let new := sample "new" pending None in
  let gone := sample "ghost_user" failed (Some "USER_DEACTIVATED") in
  let d := Dedupe.updateContactStatus 1700000000000
             {| Dedupe.db := ledger [busy; done;
                                     sample "ghost_user" pending None; new];
                Dedupe.dedupeConfig := Keys.defaultDedupe |}
             "ghost_user" failed (Some "USER_DEACTIVATED") in
  contacts (Dedupe.db d) = [busy; done] ++ gone :: [new]
  /\ (let out := requeueFailed (Dedupe.db d) 2 in
      1 <= deleted out
      /\ exists post',
           contacts (after out) = map requeueIfFailed [busy; done] ++ post'
           /\ (length post' <= length [new])%nat
           /\ forall x, In x post' -> fromLedger [new] x)
  /\ (let out := requeueFailed (ledger [busy; gone]) 1 in
      forall x, In x (contacts (after out)) -> fromLedger [busy; gone] x).
Proof.
  intros busy done new gone d.
  split; [reflexivity|]. split.
  - apply (proj2 (requeueFailed_deletes_permanent (Dedupe.db d) 2)
             [busy; done] [new] gone).
    + reflexivity.
    + reflexivity.
    + reflexivity.
    + repeat constructor.
    + vm_compute. reflexivity.
  - apply (proj1 (requeueFailed_deletes_permanent (ledger [busy; gone]) 1)).
Defined.

(** C4 as stated fails: with limit 1, the record reset first uses up
    the limit and the pass stops before the deactivated account, which
    stays in the ledger, failed. *)
Lemma requeueFailed_keeps_permanent_past_limit :
  let gone := sample "gone" failed (Some "USER_DEACTIVATED") in
  let out := requeueFailed
               (ledger [sample "busy" failed (Some "TIMEOUT"); gone]) 1 in
  isFailed gone = true /\ isPermanentFailure gone = true
  /\ contacts (after out) = [sample "busy" pending None; gone]
  /\ deleted out = 0.
Proof. vm_compute. auto. Qed.

(** A record that follows a deleted one slides under the iterator and
    is not looked at in that pass. *)
Example requeueFailed_passes_over_neighbour :
  let gone := sample "gone" failed (Some "USER_DEACTIVATED") in
  let also := sample "also_gone" failed (Some "USER_DEACTIVATED") in
  let out := requeueFailed (ledger [gone; also]) 10 in
  contacts (after out) = [also] /\ deleted out = 1 /\ returned out = 0.
Proof. vm_compute. auto. Qed.
End Requeue.

(** ** The rate limiter *)

Section RateLimiter.
Import Rate RateStats RateLog.

Ltac run := unfold bind, ret, getThis, putThis; cbn [this world fst snd].

Lemma sublist_filter_bool {A} (f : A -> bool) (l : list A) :
  sublist (List.filter f l) l.
Proof.
  induction l as [|x l IH]; cbn [List.filter]; [constructor|].
  destruct (f x); now constructor.
Qed.

Lemma Keeps_refl s : Keeps s s.
Proof. split; try reflexivity. Qed.

Lemma Keeps_trans s1 s2 s3 : Keeps s1 s2 -> Keeps s2 s3 -> Keeps s1 s3.
Proof.
  intros [a1 a2 a3 a4 a5] [b1 b2 b3 b4 b5]. split; try congruence; try lia.
  now transitivity (sentMessages (this s2)).
Qed.

Lemma getTimestamp_run s :
  exists t w,
    getTimestamp s = (t, {| this := this s; world := w |})
    /\ clock w = t /\ clock (world s) <= t.
Proof.
  unfold getTimestamp. destruct (lags (world s)) as [|d rest];
    eexists; eexists; repeat split; cbn [clock]; lia.
Qed.

Lemma getTimestamp_keeps s : Keeps s (snd (getTimestamp s)).
Proof.
  destruct (getTimestamp_run s) as (t & w & -> & Hc & Hle).
  split; cbn [snd this world]; try reflexivity. lia.
Qed.

Lemma getTimestamp_this s : this (snd (getTimestamp s)) = this s.
Proof. now destruct (getTimestamp_run s) as (t & w & -> & _). Qed.

Lemma delay_run ms s :
  delay ms s = (tt, {| this := this s;
                       world := {| clock := clock (world s) + Z.max 0 ms;
                                   lags := lags (world s) |} |}).
Proof. reflexivity. Qed.

Lemma cleanupOldSends_keeps s : Keeps s (snd (cleanupOldSends s)).
Proof.
  unfold cleanupOldSends. run.
  destruct (getTimestamp_run s) as (t & w & -> & Hc & Hle). cbn [this world].
  set (kept := List.filter _ _).
  assert (sublist kept (sentMessages (this s))) as Hk
    by apply sublist_filter_bool.
  repeat match goal with
         | |- context [if ?b then _ else _] => destruct b
         end;
    split; cbn; try reflexivity; try lia; auto using sublist_nil_l.
Qed.

Lemma len_nonneg r : 0 <= len r.
Proof. unfold len. lia. Qed.

Lemma sublist_len (r r' : RateLimiter) :
  sublist (sentMessages r') (sentMessages r) -> len r' <= len r.
Proof. intros H. apply sublist_length in H. unfold len. lia. Qed.

(** [canSendNow] grants only below the bound, and adds no timestamp. *)
Lemma canSendNow_run s :
  exists b s',
    canSendNow s = (b, s') /\ Keeps s s'
    /\ (b = true -> len (this s') < bound (this s')).
Proof.
  unfold canSendNow. run.
  pose proof (cleanupOldSends_keeps s) as K1.
  destruct (cleanupOldSends s) as [[] s1]. cbn [snd] in K1.
  pose proof (getTimestamp_keeps s1) as K2.
  pose proof (getTimestamp_this s1) as T2.
  destruct (getTimestamp s1) as [now s2]. cbn [snd] in K2, T2. rewrite T2.
  assert (Keeps s s2) as K by (eapply Keeps_trans; eauto).
  unfold bound.
  destruct (isFirstRun (this s1) && (len (this s1) <? maxMessages (this s1)))
    eqn:E1.
  { exists true, s2. split; [reflexivity|]. split; [exact K|].
    intros _. rewrite T2.
    apply andb_prop in E1 as [_ E1]. apply Z.ltb_lt in E1. lia. }
  destruct (len (this s1) =? 0) eqn:E2.
  { exists true, s2. split; [reflexivity|]. split; [exact K|].
    intros _. rewrite T2. apply Z.eqb_eq in E2. lia. }
  destruct (now - lastSentTime (this s1) <? messageIntervalMs (this s1)).
  { exists false, s2. split; [reflexivity|]. split; [exact K|]. discriminate. }
  destruct (maxMessages (this s1) <=? len (this s1)) eqn:E3.
  - destruct (now - burstStartTime (this s1) <? burstPauseMs (this s1)).
    + exists false, s2. split; [reflexivity|]. split; [exact K|]. discriminate.
    + eexists; eexists. split; [reflexivity|]. split.
      * destruct K as [a1 a2 a3 a4 a5].
        split; cbn [this world withSent withLastSent withBurstStart
                    maxMessages messageIntervalMs burstPauseMs sentMessages];
          rewrite <- ?T2; auto using sublist_nil_l.
      * intros _. unfold len. cbn. lia.
  - exists true, s2. split; [reflexivity|]. split; [exact K|].
    intros _. rewrite T2. apply Z.leb_gt in E3. lia.
Qed.

(** One [tryConsume]: the settings stay, the clock does not go back; a
    refusal adds no timestamp, a grant leaves at most the bound. *)
Lemma tryConsume_run s :
  exists b s',
    tryConsume s = (b, s')
    /\ maxMessages (this s') = maxMessages (this s)
    /\ messageIntervalMs (this s') = messageIntervalMs (this s)
    /\ burstPauseMs (this s') = burstPauseMs (this s)
    /\ clock (world s) <= clock (world s')
    /\ (b = false -> sublist (sentMessages (this s')) (sentMessages (this s)))
    /\ (b = true -> len (this s') <= bound (this s')).
Proof.
  unfold tryConsume. run.
  destruct (canSendNow_run s) as (b & s1 & -> & K & Hb).
  destruct K as [a1 a2 a3 a4 a5].
  destruct b; cbn [negb].
  - pose proof (getTimestamp_keeps s1) as [b1 b2 b3 b4 b5].
    pose proof (getTimestamp_this s1) as T2.
    destruct (getTimestamp s1) as [now s2]. cbn [snd] in *.
    specialize (Hb eq_refl). unfold bound in *. rewrite T2.
    set (r1 := withLastSent now
                 (withSent (sentMessages (this s1) ++ [now]) (this s1))).
    set (r2 := if len r1 =? 1 then withBurstStart now r1 else r1).
    set (r3 := if isFirstRun r2 && (maxMessages r2 <=? len r2)
               then withFirstRun false r2 else r2).
    assert (sentMessages r3 = sentMessages (this s1) ++ [now]
            /\ maxMessages r3 = maxMessages (this s1)
            /\ messageIntervalMs r3 = messageIntervalMs (this s1)
            /\ burstPauseMs r3 = burstPauseMs (this s1)) as (S3 & M3 & I3 & P3).
    { subst r3 r2.
      destruct (len r1 =? 1);
        match goal with
        | |- context [if ?c then _ else _] => destruct c
        end; subst r1; cbn; auto. }
    exists true. eexists. split; [reflexivity|]. cbn [this world].
    repeat split; try congruence; try lia; try discriminate.
    intros _. unfold len in *. rewrite S3, M3, length_app. cbn [length]. lia.
  - exists false, s1. split; [reflexivity|].
    repeat split; auto; discriminate.
Qed.

Lemma tryConsume_bound s :
  len (this s) <= bound (this s) ->
  len (this (snd (tryConsume s))) <= bound (this (snd (tryConsume s))).
Proof.
  intros H.
  destruct (tryConsume_run s) as (b & s' & -> & Hm & _ & _ & _ & Hf & Ht).
  cbn [snd]. destruct b; [now apply Ht|].
  specialize (Hf eq_refl). apply sublist_len in Hf.
  unfold bound in *. rewrite Hm. lia.
Qed.

Lemma tryConsume_settings s :
  maxMessages (this (snd (tryConsume s))) = maxMessages (this s).
Proof. now destruct (tryConsume_run s) as (b & s' & -> & Hm & _). Qed.

Lemma tryConsumeTimes_bound n :
  forall s,
    len (this s) <= bound (this s) ->
    let s' := snd (tryConsumeTimes n s) in
    len (this s') <= bound (this s')
    /\ maxMessages (this s') = maxMessages (this s).
Proof.
  induction n as [|n IH]; intros s H; cbn [tryConsumeTimes]; run.
  - auto.
  - pose proof (tryConsume_bound s H) as H1.
    pose proof (tryConsume_settings s) as H2.
    destruct (tryConsume s) as [b s1]. cbn [snd] in H1, H2.
    specialize (IH s1 H1). cbv zeta in IH.
    destruct (tryConsumeTimes n s1) as [bs s2]. cbn [snd] in *.
    destruct IH. split; [auto|congruence].
Qed.

(** *** A run, call by call *)

Lemma getTimestamp_read s :
  getTimestamp s
  = (readAfter 1 (world s),
     {| this := this s;
        world := {| clock := readAfter 1 (world s);
                    lags := tail (lags (world s)) |} |}).
Proof.
  unfold getTimestamp, readAfter.
  destruct (lags (world s)) as [|d rest];
    cbn [take fold_right tail]; rewrite ?N.add_0_r; reflexivity.
Qed.

Lemma readAfter_tail k w :
  readAfter k {| clock := readAfter 1 w; lags := tail (lags w) |}
  = readAfter (S k) w.
Proof.
  unfold readAfter. cbn [clock lags].
  destruct (lags w) as [|d rest]; cbn [tail].
  - rewrite !take_nil. cbn. lia.
  - cbn [take fold_right]. rewrite take_0. cbn [fold_right]. lia.
Qed.

Lemma filter_all {A} (f : A -> bool) (l : list A) :
  Forall (fun x => f x = true) l -> List.filter f l = l.
Proof.
  induction 1 as [|x l Hx _ IH]; cbn; [reflexivity|]. now rewrite Hx, IH.
Qed.

Lemma getTimestamp_reads s :
  getTimestamp s
  = (readAfter 1 (world s),
     {| this := this s; world := afterReads 1 (world s) |}).
Proof.
  rewrite getTimestamp_read. unfold afterReads.
  now destruct (lags (world s)).
Qed.

Lemma afterReads_add j k w :
  afterReads j (afterReads k w) = afterReads (k + j) w.
Proof.
  unfold afterReads, readAfter. cbn [clock lags].
  rewrite drop_drop. f_equal.
  rewrite <- (take_drop k (take (k + j) (lags w))) at 1.
  rewrite take_take, Nat.min_l by lia.
  rewrite <- take_drop_commute, fold_right_app.
  replace (k + j - k)%nat with j by lia.
  set (a := fold_right N.add 0%N (take j (drop k (lags w)))).
  clearbody a. induction (take k (lags w)) as [|x l IH]; cbn [fold_right];
    lia.
Qed.

Lemma readAfter_afterReads j k w :
  readAfter j (afterReads k w) = readAfter (k + j) w.
Proof.
  change (readAfter (k + j) w) with (clock (afterReads (k + j) w)).
  now rewrite <- afterReads_add.
Qed.

Lemma afterReads_0 w : afterReads 0 w = w.
Proof.
  unfold afterReads, readAfter. rewrite take_0, drop_0. cbn.
  destruct w. cbn. f_equal. lia.
Qed.

Lemma readAfter_clock k w : clock (afterReads k w) = readAfter k w.
Proof. reflexivity. Qed.

Lemma readAfter_base k w : clock w <= readAfter k w.
Proof. unfold readAfter. lia. Qed.

Lemma readAfter_mono j k w : (j <= k)%nat -> readAfter j w <= readAfter k w.
Proof.
  intros H. replace k with (j + (k - j))%nat by lia.
  rewrite <- readAfter_afterReads.
  apply (readAfter_base (k - j) (afterReads j w)).
Qed.

(** Reading the clock uses up lag: the latest time the clock can show
    without a [delay] stays. *)
Lemma afterReads_lagSum k w :
  clock (afterReads k w) + lagSum (afterReads k w) = clock w + lagSum w.
Proof.
  unfold afterReads, readAfter, lagSum. cbn [clock lags].
  rewrite <- (take_drop k (lags w)) at 3. rewrite fold_right_app.
  set (a := fold_right N.add 0%N (drop k (lags w))). clearbody a.
  induction (take k (lags w)) as [|x l IH]; cbn [fold_right]; lia.
Qed.

Lemma lagSum_nonneg w : 0 <= lagSum w.
Proof. unfold lagSum. lia. Qed.

Lemma cleanupOldSends_at (r : RateLimiter) (w : World) :
  let t1 := readAfter 1 w in
  let auto := (0 <? lastSentTime r)
              && (burstPauseMs r <? t1 - lastSentTime r) in
  exists first,
    cleanupOldSends {| this := r; world := w |}
    = (tt,
       {| this := {| maxMessages := maxMessages r;
                     messageIntervalMs := messageIntervalMs r;
                     burstPauseMs := burstPauseMs r;
                     sentMessages := if auto then [] else keptAt t1 r;
                     lastSentTime := if auto then 0 else lastSentTime r;
                     burstStartTime := if auto then 0 else burstStartTime r;
                     isFirstRun := first |};
          world := afterReads 1 w |}).
Proof.
  intros t1 auto. unfold cleanupOldSends. run.
  rewrite getTimestamp_reads. cbn [this world]. fold t1.
  unfold keptAt. destruct r as [m i p l last start first0].
  cbn [withSent withLastSent withBurstStart withFirstRun lastSentTime
       burstPauseMs maxMessages messageIntervalMs sentMessages
       burstStartTime isFirstRun] in *.
  fold auto. destruct auto.
  - cbn [withSent withLastSent withBurstStart withFirstRun lastSentTime
         burstPauseMs maxMessages messageIntervalMs sentMessages
         burstStartTime isFirstRun].
    match goal with
    | |- context [if ?c then _ else _] => destruct c
    end; eexists; reflexivity.
  - match goal with
    | |- context [if ?c then _ else _] => destruct c
    end; eexists; reflexivity.
Qed.

Lemma canSendNow_at (r : RateLimiter) (w : World) :
  let t1 := readAfter 1 w in
  let t2 := readAfter 2 w in
  let kept := keptAt t1 r in
  let auto := (0 <? lastSentTime r)
              && (burstPauseMs r <? t1 - lastSentTime r) in
  exists ok r',
    canSendNow {| this := r; world := w |}
    = (ok, {| this := r'; world := afterReads 2 w |})
    /\ maxMessages r' = maxMessages r
    /\ messageIntervalMs r' = messageIntervalMs r
    /\ burstPauseMs r' = burstPauseMs r
    /\ (ok = false ->
        sentMessages r' = kept
        /\ lastSentTime r' = lastSentTime r
        /\ burstStartTime r' = burstStartTime r
        /\ kept <> [] /\ auto = false
        /\ (t2 - lastSentTime r < messageIntervalMs r
            \/ (maxMessages r <= Z.of_nat (length kept)
                /\ t2 - burstStartTime r < burstPauseMs r)))
    /\ (ok = true ->
        (sentMessages r' = kept
         /\ lastSentTime r' = lastSentTime r
         /\ burstStartTime r' = burstStartTime r
         /\ auto = false
         /\ (kept = [] \/ Z.of_nat (length kept) < maxMessages r))
        \/ (sentMessages r' = []
            /\ (auto = true
                \/ (kept <> []
                    /\ maxMessages r <= Z.of_nat (length kept)
                    /\ burstPauseMs r <= t2 - burstStartTime r
                    /\ messageIntervalMs r <= t2 - lastSentTime r)))).
Proof.
  intros t1 t2 kept auto. unfold canSendNow. run.
  destruct (cleanupOldSends_at r w) as [first ->]. fold t1 auto kept.
  rewrite getTimestamp_reads. cbn [this world].
  rewrite afterReads_add, readAfter_afterReads. cbn [Nat.add]. fold t2.
  unfold len.
  cbn [maxMessages messageIntervalMs burstPauseMs sentMessages lastSentTime
       burstStartTime isFirstRun withSent withLastSent withBurstStart].
  destruct auto eqn:Hauto.
  - change (Z.of_nat (@length Z [])) with 0.
    destruct (first && (0 <? maxMessages r)).
    + eexists; eexists. split; [reflexivity|]. cbn.
      repeat split; try discriminate. intros _. right. auto.
    + eexists; eexists. split; [reflexivity|]. cbn.
      repeat split; try discriminate. intros _. right. auto.
  - destruct (first && (Z.of_nat (length kept) <? maxMessages r)) eqn:E1.
    { apply andb_prop in E1 as [_ E1]. apply Z.ltb_lt in E1.
      eexists; eexists. split; [reflexivity|]. cbn.
      repeat split; try discriminate. intros _. left. auto 6. }
    destruct (Z.eqb_spec (Z.of_nat (length kept)) 0) as [E2|E2].
    { eexists; eexists. split; [reflexivity|]. cbn.
      repeat split; try discriminate. intros _. left.
      repeat split; auto. left. destruct kept; [reflexivity|cbn in E2; lia]. }
    assert (kept <> []) as Hne by (intros E; rewrite E in E2; now cbn in E2).
    destruct (Z.ltb_spec (t2 - lastSentTime r) (messageIntervalMs r))
      as [E3|E3].
    { eexists; eexists. split; [reflexivity|]. cbn.
      repeat split; try discriminate; auto. }
    destruct (Z.leb_spec (maxMessages r) (Z.of_nat (length kept)))
      as [E4|E4].
    + destruct (Z.ltb_spec (t2 - burstStartTime r) (burstPauseMs r))
        as [E5|E5].
      * eexists; eexists. split; [reflexivity|]. cbn.
        repeat split; try discriminate; auto.
      * eexists; eexists. split; [reflexivity|]. cbn.
        repeat split; try discriminate. intros _. right. auto 8.
    + eexists; eexists. split; [reflexivity|]. cbn.
      repeat split; try discriminate. intros _. left. auto 6.
Qed.

Lemma tryConsume_turn (s : Sys) :
  let r := this s in
  let w := world s in
  let t1 := readAfter 1 w in
  let t2 := readAfter 2 w in
  let t3 := readAfter 3 w in
  let kept := keptAt t1 r in
  let auto := (0 <? lastSentTime r)
              && (burstPauseMs r <? t1 - lastSentTime r) in
  exists ok s',
    tryConsume s = (ok, s')
    /\ maxMessages (this s') = maxMessages r
    /\ messageIntervalMs (this s') = messageIntervalMs r
    /\ burstPauseMs (this s') = burstPauseMs r
    /\ (ok = false ->
        world s' = afterReads 2 w
        /\ sentMessages (this s') = kept
        /\ lastSentTime (this s') = lastSentTime r
        /\ burstStartTime (this s') = burstStartTime r
        /\ kept <> [] /\ auto = false
        /\ (t2 - lastSentTime r < messageIntervalMs r
            \/ (maxMessages r <= Z.of_nat (length kept)
                /\ t2 - burstStartTime r < burstPauseMs r)))
    /\ (ok = true ->
        world s' = afterReads 3 w
        /\ lastSentTime (this s') = t3
        /\ ((sentMessages (this s') = kept ++ [t3]
             /\ auto = false
             /\ (kept = [] \/ Z.of_nat (length kept) < maxMessages r)
             /\ (kept <> [] -> burstStartTime (this s') = burstStartTime r)
             /\ (kept = [] -> burstStartTime (this s') = t3))
            \/ (sentMessages (this s') = [t3]
                /\ burstStartTime (this s') = t3
                /\ (auto = true
                    \/ (kept <> []
                        /\ maxMessages r <= Z.of_nat (length kept)
                        /\ burstPauseMs r <= t2 - burstStartTime r
                        /\ messageIntervalMs r <= t2 - lastSentTime r))))).
Proof.
  destruct s as [r w]. cbv zeta. cbn [this world].
  set (t1 := readAfter 1 w). set (t2 := readAfter 2 w).
  set (t3 := readAfter 3 w). set (kept := keptAt t1 r).
  set (auto := (0 <? lastSentTime r)
               && (burstPauseMs r <? t1 - lastSentTime r)).
  unfold tryConsume. run.
  destruct (canSendNow_at r w)
    as (ok & r' & -> & Hm & Hi & Hp & Hrefuse & Hgrant).
  fold t1 t2 kept auto in Hrefuse, Hgrant.
  destruct ok; cbn [negb].
  - rewrite getTimestamp_reads. cbn [this world].
    rewrite afterReads_add, readAfter_afterReads. cbn [Nat.add]. fold t3.
    set (r1 := withLastSent t3 (withSent (sentMessages r' ++ [t3]) r')).
    set (r2 := if len r1 =? 1 then withBurstStart t3 r1 else r1).
    set (r3 := if isFirstRun r2 && (maxMessages r2 <=? len r2)
               then withFirstRun false r2 else r2).
    assert (sentMessages r3 = sentMessages r' ++ [t3]
            /\ lastSentTime r3 = t3
            /\ burstStartTime r3
               = (if Z.of_nat (length (sentMessages r' ++ [t3])) =? 1
                  then t3 else burstStartTime r')
            /\ maxMessages r3 = maxMessages r'
            /\ messageIntervalMs r3 = messageIntervalMs r'
            /\ burstPauseMs r3 = burstPauseMs r')
      as (S3 & L3 & B3 & M3 & I3 & P3).
    { subst r3 r2. unfold len.
      replace (sentMessages r1) with (sentMessages r' ++ [t3])
        by reflexivity.
      destruct (Z.of_nat (length (sentMessages r' ++ [t3])) =? 1);
        match goal with
        | |- context [if ?c then _ else _] => destruct c
        end; subst r1; cbn; auto 7. }
    exists true. eexists. split; [reflexivity|]. cbn [this world].
    split; [congruence|]. split; [congruence|]. split; [congruence|].
    split; [discriminate|]. intros _.
    split; [reflexivity|]. split; [exact L3|].
    rewrite S3, B3, length_app. cbn [length].
    destruct (Hgrant eq_refl)
      as [(Hs & Hl & Hb & Ha & Hroom)|(Hs & Hwhy)]; rewrite Hs.
    + left. split; [reflexivity|]. split; [exact Ha|].
      split; [exact Hroom|]. split.
      * intros Hne. destruct kept as [|k0 kept']; [easy|].
        cbn [length].
        destruct (Z.eqb_spec (Z.of_nat (S (length kept') + 1)) 1); [lia|].
        exact Hb.
      * intros ->. reflexivity.
    + right. split; [reflexivity|]. split; [reflexivity|exact Hwhy].
  - exists false. eexists. split; [reflexivity|]. cbn [this world].
    split; [exact Hm|]. split; [exact Hi|]. split; [exact Hp|].
    split; [|discriminate]. intros _.
    split; [reflexivity|]. apply (Hrefuse eq_refl).
Qed.










(** The same run as the limiter counts it.  The list never runs empty
    before the last call, so the first seven grants are one burst, of
    which the list keeps the three newest; [burstStartTime] is still
    the time of the very first grant.  The eighth call finds the list
    full and that start more than a pause away: it resets the list and
    is granted. *)
Example lateThenEarly_bursts :
  let log := fst (logTimes 8 lateThenEarly) in
  map opens log = [true; false; false; false; false; false; false; true]
  /\ map resets log
     = [false; false; false; false; false; false; false; true]
  /\ currentBurst (take 7 log) = map grantTime (take 7 log)
  /\ map (fun a => sentMessages (before a)) (drop 7 log)
     = [[1700001700000; 1700001760000; 1700001820000]]
  /\ map (fun a => burstStartTime (before a)) (drop 7 log)
     = [1700000000000]
  /\ currentBurst log = [1700001880000].
Proof. vm_compute. auto 7. Qed.

(** In the run [everyNinetySeconds] the three calls after the pause are
    granted one by one as the old timestamps leave the list, the burst
    start recorded with the very first message stays, and the fourth
    call finds the list full and that start more than a pause away:
    the burst is reset and the call granted. *)
Example reset_against_an_old_burst_start :
  let log := fst (observeTimes 7 everyNinetySeconds) in
  let last := 1700000000000 + 1170000 in
  map granted log = [true; true; true; true; true; true; true]
  /\ map steady log = [false; false; false; true; true; true; true]
  /\ map stamp (skipn 3 log)
     = [last - 270000; last - 180000; last - 90000; last]
  /\ grantedInWindow 900000 last log = 4.
Proof. vm_compute. auto 6. Qed.

(** *** Waiting for a token *)

Lemma waitLoop_run (fuel : nat) :
  forall (s : Sys) (startTime timeoutMs : Z),
    (1 <= fuel)%nat ->
    timeoutMs - (clock (world s) - startTime) <= 100 * (Z.of_nat fuel - 1) ->
    exists b s',
      waitLoop fuel startTime timeoutMs s = (Some b, s')
      /\ clock (world s) <= clock (world s')
      /\ (b = false ->
          sublist (sentMessages (this s')) (sentMessages (this s))
          /\ timeoutMs <= clock (world s') - startTime).
Proof.
  induction fuel as [|fuel IH]; intros s startTime timeoutMs Hfuel Hrem;
    [lia|].
  cbn [waitLoop]. run.
  destruct (getTimestamp_run s) as (t & w1 & -> & Hc1 & Hle1).
  destruct (Z.ltb_spec (t - startTime) timeoutMs) as [Hin|Hout].
  - destruct (tryConsume_run {| this := this s; world := w1 |})
      as (b & s2 & -> & _ & _ & _ & Hc2 & Hf & _).
    cbn [this world] in Hc2, Hf. destruct b.
    + exists true, s2. split; [reflexivity|]. split; [lia|discriminate].
    + specialize (Hf eq_refl).
      destruct (getTimestamp_run s2) as (now & w3 & -> & Hc3 & Hle3).
      cbn [this].
      set (waitTime := if len (this s2) =? 0 then _ else _).
      assert (firstMessageWaitMs <= waitTime) as Hwait.
      { subst waitTime. unfold firstMessageWaitMs, minWaitMs.
        repeat match goal with
               | |- context [if ?c then _ else _] => destruct c
               end; lia. }
      destruct (getTimestamp_run {| this := this s2; world := w3 |})
        as (t4 & w4 & -> & Hc4 & Hle4).
      cbn [this world] in Hle4. rewrite delay_run. cbn [this world].
      set (s5 := {| this := this s2; world := _ |}).
      assert (clock (world s) + 100 <= clock (world s5)) as Hc5.
      { subst s5. cbn [world clock].
        unfold firstMessageWaitMs, maxWaitPerCycleMs in *. lia. }
      destruct (IH s5 startTime timeoutMs) as (b & s' & -> & Hc' & Hb');
        [lia|lia|].
      exists b, s'. split; [reflexivity|]. split; [lia|].
      intros ->. destruct (Hb' eq_refl) as [Hs Ht]. split; [|exact Ht].
      transitivity (sentMessages (this s2)); [exact Hs|exact Hf].
  - destruct (getTimestamp_run {| this := this s; world := w1 |})
      as (t2 & w2 & -> & Hc2 & Hle2). cbn [this world] in Hle2.
    exists false. eexists. split; [reflexivity|]. cbn [this world].
    split; [lia|]. intros _. split; [reflexivity|lia].
Qed.

Lemma fuelFor_enough (timeoutMs : Z) (fuel : nat) :
  (fuelFor timeoutMs <= fuel)%nat ->
  (1 <= fuel)%nat /\ timeoutMs <= 100 * (Z.of_nat fuel - 1).
Proof.
  unfold fuelFor, firstMessageWaitMs. intros H.
  pose proof (Z.div_mod timeoutMs 100 ltac:(lia)).
  pose proof (Z.mod_pos_bound timeoutMs 100 ltac:(lia)).
  lia.
Qed.

Lemma lagSum_afterReads k w : lagSum (afterReads k w) <= lagSum w.
Proof.
  pose proof (afterReads_lagSum k w) as H.
  pose proof (readAfter_base k w) as Hb.
  change (clock (afterReads k w)) with (readAfter k w) in H. lia.
Qed.

Lemma readAfter_latest k w : readAfter k w <= clock w + lagSum w.
Proof.
  pose proof (afterReads_lagSum k w) as H.
  pose proof (lagSum_nonneg (afterReads k w)).
  change (clock (afterReads k w)) with (readAfter k w) in H. lia.
Qed.

Lemma blockedUntil_spec (h : Z) (r : RateLimiter) :
  blockedUntil h r = true
  <-> sentMessages r <> []
      /\ maxMessages r <= Z.of_nat (length (sentMessages r))
      /\ Forall (fun ts => h - burstPauseMs r <= ts) (sentMessages r)
      /\ (lastSentTime r <= 0 \/ h - burstPauseMs r <= lastSentTime r)
      /\ h - burstPauseMs r <= burstStartTime r.
Proof.
  unfold blockedUntil, len.
  rewrite !andb_true_iff, negb_true_iff, orb_true_iff, forallb_forall,
    List.Forall_forall, Z.eqb_neq, !Z.leb_le.
  assert (Z.of_nat (length (sentMessages r)) <> 0 <-> sentMessages r <> [])
    as ->.
  { destruct (sentMessages r); cbn [length]; split; intros H; try easy; lia. }
  split.
  - intros ((((H1 & H2) & H3) & H4) & H5). repeat split; auto.
    intros x Hx. apply Z.leb_le. auto.
  - intros (H1 & H2 & H3 & H4 & H5). repeat split; auto.
    intros x Hx. apply Z.leb_le. auto.
Qed.

(** A blocked limiter refuses, and stays as it is. *)
Lemma tryConsume_blocked (h : Z) (s : Sys) :
  blockedUntil h (this s) = true ->
  readAfter 2 (world s) < h ->
  exists s',
    tryConsume s = (false, s')
    /\ world s' = afterReads 2 (world s)
    /\ sentMessages (this s') = sentMessages (this s)
    /\ blockedUntil h (this s') = true.
Proof.
  intros Hblocked Hread.
  pose proof Hblocked as Hb. apply blockedUntil_spec in Hb.
  destruct Hb as (Hne & Hfull & Hnew & Hlast & Hstart).
  pose proof (readAfter_mono 1 2 (world s) ltac:(lia)) as Hc2.
  assert (keptAt (readAfter 1 (world s)) (this s) = sentMessages (this s))
    as Hkept.
  { unfold keptAt. apply filter_all.
    eapply Forall_impl; [exact Hnew|]. cbn beta. intros ts Hts.
    apply Z.ltb_lt. lia. }
  destruct (tryConsume_turn s)
    as (ok & s' & Heq & Hm & Hi & Hp & Hrefuse & Hgrant).
  rewrite Hkept in Hrefuse, Hgrant.
  destruct ok.
  - exfalso. destruct (Hgrant eq_refl) as (_ & _ & Hcase).
    destruct Hcase as [(_ & _ & Hroom & _)|(_ & _ & Hwhy)].
    + destruct Hroom as [Hroom|Hroom]; [easy|lia].
    + destruct Hwhy as [Hauto|(_ & _ & Hpause & _)]; [|lia].
      apply andb_prop in Hauto as [H1 H2]. apply Z.ltb_lt in H1, H2. lia.
  - destruct (Hrefuse eq_refl) as (Hw & Hs & Hl & Hb & _).
    exists s'. split; [exact Heq|]. split; [exact Hw|]. split; [exact Hs|].
    apply blockedUntil_spec. rewrite Hs, Hm, Hp, Hl, Hb. auto 6.
Qed.

Lemma waitLoop_blocked (h : Z) (fuel : nat) :
  forall (s s' : Sys) (startTime timeoutMs : Z) (b : bool),
    waitLoop fuel startTime timeoutMs s = (Some b, s') ->
    blockedUntil h (this s) = true ->
    startTime + timeoutMs + lagSum (world s) <= h ->
    b = false /\ sentMessages (this s') = sentMessages (this s).
Proof.
  induction fuel as [|fuel IH]; intros s s' startTime timeoutMs b;
    cbn [waitLoop]; run; [discriminate|].
  intros Heq Hblocked Hh. rewrite getTimestamp_reads in Heq.
  cbn [this world] in Heq.
  destruct (Z.ltb_spec (readAfter 1 (world s) - startTime) timeoutMs)
    as [Hin|Hout].
  - set (s1 := {| this := this s; world := afterReads 1 (world s) |}) in *.
    pose proof (lagSum_afterReads 1 (world s)) as Hl1.
    destruct (tryConsume_blocked h s1 Hblocked) as (s2 & E2 & Hw2 & Hs2 & Hb2).
    { pose proof (readAfter_latest 2 (world s1)) as H.
      change (clock (world s1)) with (readAfter 1 (world s)) in H.
      cbn [s1 world] in *. lia. }
    rewrite E2 in Heq. rewrite !getTimestamp_reads in Heq.
    cbn [this world] in Heq. rewrite delay_run in Heq.
    cbn [this world] in Heq.
    apply IH in Heq as [-> Hs'].
    + split; [reflexivity|]. cbn [this] in Hs'. now rewrite Hs', Hs2.
    + exact Hb2.
    + cbn [world]. unfold lagSum at 1. cbn [lags].
      fold (lagSum (afterReads 1 (afterReads 1 (world s2)))).
      pose proof (lagSum_afterReads 1 (afterReads 1 (world s2))).
      pose proof (lagSum_afterReads 1 (world s2)).
      rewrite Hw2 in *.
      pose proof (lagSum_afterReads 2 (world s1)).
      cbn [s1 world] in *. lia.
  - rewrite getTimestamp_reads in Heq. injection Heq as <- <-.
    split; reflexivity.
Qed.

Lemma waitLoop_no_time (fuel : nat) (s s' : Sys)
    (startTime timeoutMs : Z) (b : bool) :
  waitLoop fuel startTime timeoutMs s = (Some b, s') ->
  timeoutMs <= 0 ->
  startTime <= clock (world s) ->
  b = false.
Proof.
  destruct fuel as [|fuel]; cbn [waitLoop]; run; [discriminate|].
  intros Heq Ht Hs. rewrite getTimestamp_reads in Heq.
  cbn [this world] in Heq.
  pose proof (readAfter_base 1 (world s)).
  destruct (Z.ltb_spec (readAfter 1 (world s) - startTime) timeoutMs);
    [lia|].
  rewrite getTimestamp_reads in Heq. now injection Heq as <- _.
Qed.

Lemma tryConsume_shape (s : Sys) :
  exists ok s',
    tryConsume s = (ok, s')
    /\ (ok = true ->
        sentMessages (this s')
        = sentMessages (this (snd (canSendNow s))) ++ [clock (world s')]
        /\ lastSentTime (this s') = clock (world s'))
    /\ (ok = false -> s' = snd (canSendNow s))
    /\ sublist (sentMessages (this (snd (canSendNow s))))
               (sentMessages (this s)).
Proof.
  unfold tryConsume. run.
  destruct (canSendNow_run s) as (b & s1 & -> & K & _).
  destruct K as [_ _ _ K4 _]. cbn [snd].
  destruct b; cbn [negb].
  - rewrite getTimestamp_read. cbn [this world clock].
    set (now := readAfter 1 _).
    set (r1 := withLastSent now _).
    set (r2 := if len r1 =? 1 then withBurstStart now r1 else r1).
    set (r3 := if isFirstRun r2 && (maxMessages r2 <=? len r2)
               then withFirstRun false r2 else r2).
    assert (sentMessages r3 = sentMessages (this s1) ++ [now]
            /\ lastSentTime r3 = now) as (S3 & L3).
    { subst r3 r2.
      destruct (len r1 =? 1);
        match goal with
        | |- context [if ?c then _ else _] => destruct c
        end; subst r1; cbn; auto. }
    eexists; eexists. split; [reflexivity|]. cbn [this world clock].
    split; [auto|]. split; [discriminate|exact K4].
  - exists false, s1. split; [reflexivity|].
    split; [discriminate|]. split; [reflexivity|exact K4].
Qed.

Lemma waitLoop_grant (fuel : nat) :
  forall (s s' : Sys) (startTime timeoutMs : Z),
    waitLoop fuel startTime timeoutMs s = (Some true, s') ->
    exists kept,
      sentMessages (this s') = kept ++ [lastSentTime (this s')]
      /\ sublist kept (sentMessages (this s)).
Proof.
  induction fuel as [|fuel IH]; intros s s' startTime timeoutMs;
    cbn [waitLoop]; run; [discriminate|].
  rewrite getTimestamp_read. cbn [this world].
  destruct (_ - startTime <? timeoutMs).
  - match goal with |- context [tryConsume ?x] => set (s1 := x) end.
    destruct (tryConsume_shape s1)
      as (ok & s2 & -> & Hgrant & Hrefuse & Hkept).
    destruct ok.
    + intros [= <-]. destruct (Hgrant eq_refl) as [Hsent Hlast].
      exists (sentMessages (this (snd (canSendNow s1)))).
      rewrite Hlast. auto.
    + rewrite !getTimestamp_read. cbn [this world]. rewrite delay_run.
      cbn [this world]. intros Hrec.
      apply IH in Hrec as (kept & H1 & H2). cbn [this] in H2.
      exists kept. split; [exact H1|].
      transitivity (sentMessages (this s2)); [exact H2|].
      now rewrite (Hrefuse eq_refl).
  - rewrite getTimestamp_read. discriminate.
Qed.

(** C8. For every timeout, [waitForToken] comes back with an answer
    (given the fuel its loop can need, it never runs out and nothing in
    it can throw).  When the answer is [false] the timeout has passed
    since the call started, and no timestamp was added to the list of
    sent timestamps: what is left of the list is a sublist of what was
    there before the call.  When the answer is [true] exactly one
    timestamp, that of the grant, was added.  The answer is [false]
    when there is no time to wait ([timeoutMs] at most zero), and when
    the limiter is blocked for the whole wait: the burst is full, and
    neither its pause nor the age of a timestamp can run out before the
    timeout has passed; the list is then left as it was. *)
Theorem waitForToken_timeout_consumes_nothing
    (timeoutMs : Z) (s : Sys) (fuel : nat) :
  (fuelFor timeoutMs <= fuel)%nat ->
  exists b s',
    waitForToken fuel timeoutMs s = (Some b, s')
    /\ (b = false ->
        sublist (sentMessages (this s')) (sentMessages (this s))
        /\ timeoutMs <= clock (world s') - startOf s)
    /\ (timeoutMs <= 0 -> b = false)
    /\ (blockedUntil (horizon (world s) timeoutMs) (this s) = true ->
        b = false /\ sentMessages (this s') = sentMessages (this s))
    /\ (b = true ->
        exists kept,
          sentMessages (this s') = kept ++ [lastSentTime (this s')]
          /\ sublist kept (sentMessages (this s))).
Proof.
  intros Hfuel. apply fuelFor_enough in Hfuel as [H1 H2].
  unfold waitForToken, startOf. run.
  destruct (getTimestamp_run s) as (t & w1 & E1 & Hc1 & Hle1).
  pose proof (getTimestamp_reads s) as E1'. rewrite E1 in E1'.
  injection E1' as Et Ew. rewrite E1. cbn [fst].
  destruct (waitLoop_run fuel {| this := this s; world := w1 |} t timeoutMs)
    as (b & s' & Heq & Hc & Hb); [exact H1|cbn [world]; lia|].
  exists b, s'. rewrite Heq. split; [reflexivity|]. split; [exact Hb|].
  split; [|split].
  - intros Ht. apply (waitLoop_no_time _ _ _ _ _ _ Heq Ht).
    cbn [world]. lia.
  - intros Hblocked.
    apply (waitLoop_blocked _ _ _ _ _ _ _ Heq Hblocked).
    cbn [world]. rewrite Ew, Et. unfold horizon.
    pose proof (afterReads_lagSum 1 (world s)) as H.
    change (clock (afterReads 1 (world s))) with (readAfter 1 (world s)) in H.
    lia.
  - intros ->. apply (waitLoop_grant _ _ _ _ _ Heq).
Qed.

(** A limiter whose first burst is full waits out a timeout of thirty
    seconds and answers [false]. *)
Lemma waitForToken_timeout_consumes_nothing_witness :
  (fuelFor 30000 <= 302)%nat
  /\ exists s',
       waitForToken 302 30000 afterFirstBurst = (Some false, s')
       /\ sentMessages (this s') = sentMessages (this afterFirstBurst)
       /\ 30000 <= clock (world s') - startOf afterFirstBurst.
Proof.
  assert (fuelFor 30000 <= 302)%nat as Hfuel by (vm_compute; lia).
  split; [exact Hfuel|].
  destruct (waitForToken_timeout_consumes_nothing 30000 afterFirstBurst 302
              Hfuel) as (b & s' & Heq & Hfalse & _ & Hblocked & _).
  destruct (Hblocked eq_refl) as [-> Hsame].
  exists s'. split; [exact Heq|]. split; [exact Hsame|].
  apply (Hfalse eq_refl).
Defined.

(** The same call, run: six waits of five seconds, then [false]. *)
Example waitForToken_times_out :
  let '(answer, s') := waitForToken 302 30000 afterFirstBurst in
  answer = Some false
  /\ sentMessages (this s') = sentMessages (this afterFirstBurst)
  /\ clock (world s') = clock (world afterFirstBurst) + 30000.
Proof. vm_compute. auto. Qed.
End RateLimiter.

(** ** One cycle of the sender on a contact already in the Sent History *)

Section DuplicateCycle.
Import JsonDb Send Keys.

Variable composeMessage : LeadContext -> outcome string.
Variable getUserInfo : string -> outcome bool.
Variable sendMessage : string -> string -> outcome SendResult.
Variable now : Z.

(** Whatever the collaborators would answer, a contact whose key is in
    the Sent History is reported as a skip, no delivery call is made,
    and the dedup layer is asked (twice) to mark it skipped. *)
Lemma processNextTask_duplicate (s : OutreachSender) (c : Contact)
    (rest : list Contact) :
  Dedupe.getContactsForSending (contactDeduper s) contactsBatchSize
    = c :: rest ->
  SentHistory.isAlreadySent (sentHistory s) (contact_key c) = true ->
  let out := processNextTask composeMessage getUserInfo sendMessage now s in
  worked out = true
  /\ taken out = Some (c, failure (contact_key c) DUPLICATE_CONTACT 0)
  /\ trace out = [EvSendReport (SkipReport (contact_key c) DUPLICATE_CONTACT)]
  /\ existsb isSendMessage (trace out) = false
  /\ sender out
     = withDeduper
         (markDuplicate now (contact_key c)
            (markDuplicate now (contact_key c) (contactDeduper s))) s.
Proof.
  intros Hget Hsent out. unfold out, processNextTask.
  rewrite Hget. unfold sendToContact. rewrite Hsent.
  cbn. auto 6.
Qed.

Lemma find_list_find (k : string) (l : list Contact) :
  list_find (fun c => hasKey k c = true) l = None
  <-> List.find (hasKey k) l = None.
Proof.
  induction l as [|x l IH]; cbn; [easy|].
  destruct (decide (hasKey k x = true)) as [->|Hn]; [easy|].
  apply not_true_is_false in Hn. rewrite Hn.
  destruct (list_find _ l); cbn; [|easy].
  split; [intros [=]|]. intros H. apply IH in H. discriminate.
Qed.

(** The dedup layer looks the record up by the normalised key: when no
    stored key equals it, nothing is marked. *)
Lemma markDuplicate_missing (k : string) (d : Dedupe.ContactDeduper) :
  findContactByKey (Dedupe.db d) (dedupKey (Dedupe.dedupeConfig d) k) = None ->
  markDuplicate now k d = d.
Proof.
  unfold markDuplicate, Dedupe.updateContactStatus, updateContactStatus,
    findContactByKey, dedupKey.
  intros H. apply find_list_find in H. rewrite H. now destruct d.
Qed.

Lemma find_update_first (k : string) (x c' : Contact) (l : list Contact) :
  List.find (hasKey k) l = Some c' ->
  hasKey k x = true ->
  exists i,
    list_find (fun c => hasKey k c = true) l = Some (i, c')
    /\ List.find (hasKey k) (<[i := x]> l) = Some x.
Proof.
  intros Hfind Hx. induction l as [|y l IH]; [discriminate|].
  cbn [List.find] in Hfind. cbn [list_find].
  destruct (hasKey k y) eqn:Hy.
  - injection Hfind as <-. exists 0%nat.
    destruct (decide (true = true)); [|easy].
    split; [reflexivity|]. cbn. now rewrite Hx.
  - destruct (IH Hfind) as (i & Hi & Hins). exists (S i).
    destruct (decide (false = true)); [discriminate|].
    rewrite Hi. split; [reflexivity|]. cbn. now rewrite Hy.
Qed.

(** When a record carries the normalised key, the first such record
    is the one marked skipped, with the reason DUPLICATE_CONTACT. *)
Lemma markDuplicate_found (k : string) (d : Dedupe.ContactDeduper)
    (c' : Contact) :
  findContactByKey (Dedupe.db d) (dedupKey (Dedupe.dedupeConfig d) k)
    = Some c' ->
  findContactByKey (Dedupe.db (markDuplicate now k d))
    (dedupKey (Dedupe.dedupeConfig d) k)
  = Some (withStatus skipped (Some DUPLICATE_CONTACT) (sent_at c') c').
Proof.
  unfold markDuplicate, Dedupe.updateContactStatus, updateContactStatus,
    findContactByKey, dedupKey.
  intros H.
  destruct (find_update_first _
              (withStatus skipped (Some DUPLICATE_CONTACT) (sent_at c') c')
              _ _ H) as (i & Hi & Hins).
  { apply find_some in H as [_ H]. exact H. }
  rewrite Hi. cbn. exact Hins.
Qed.

(** C2 (the code departs from it). The ledger holds the pending contact
    "Ivan_Dev" and the Sent History holds "ivan_dev".  The cycle takes
    the contact, answers DUPLICATE_CONTACT, reports a skip and makes no
    delivery call, but the ledger is left as it was: the contact is
    still pending, since the status update looks for the key
    "ivan_dev", which no record carries. *)
Theorem duplicate_with_capitals_stays_pending :
  let out := processNextTask composeMessage getUserInfo sendMessage now
               ivanState in
  worked out = true
  /\ taken out = Some (ivan, failure "Ivan_Dev" DUPLICATE_CONTACT 0)
  /\ existsb isSendMessage (trace out) = false
  /\ Dedupe.db (contactDeduper (sender out)) = ledger [ivan]
  /\ status ivan = pending.
Proof.
  assert (Dedupe.getContactsForSending (contactDeduper ivanState)
            contactsBatchSize = [ivan]) as Hget by reflexivity.
  assert (SentHistory.isAlreadySent (sentHistory ivanState) (contact_key ivan)
          = true) as Hsent by (vm_compute; reflexivity).
  destruct (processNextTask_duplicate ivanState ivan [] Hget Hsent)
    as (H1 & H2 & _ & H4 & H5).
  cbv zeta. rewrite H1, H2, H4, H5. cbn [contactDeduper withDeduper].
  rewrite !markDuplicate_missing by reflexivity. repeat split.
Qed.
End DuplicateCycle.

(** ** The scanner's watermark *)

Section Watermark.
Import Scanner.

Variable isDenied : Message -> bool.
Variable extractContacts : Message -> list string.
Variable checkIfContactExists : string -> bool.









End Watermark.


(** ** More on the rate limiter *)

Section RateRegimes.
Import Rate RateStats.

Ltac run := unfold bind, ret, getThis, putThis; cbn [this world fst snd].

(** What [cleanupOldSends] does to a limiter in its first-run regime:
    it stays there. *)
Lemma cleanupOldSends_first_run s :
  isFirstRun (this s) = true ->
  isFirstRun (this (snd (cleanupOldSends s))) = true.
Proof.
  intros H. unfold cleanupOldSends. run. rewrite getTimestamp_read.
  cbn [this world].
  repeat match goal with
         | |- context [if ?b then _ else _] => destruct b
         end; cbn; auto.
Qed.

Lemma tryConsume_first_run s :
  isFirstRun (this s) = true ->
  len (this s) < maxMessages (this s) ->
  exists s',
    tryConsume s = (true, s')
    /\ maxMessages (this s') = maxMessages (this s)
    /\ len (this s') <= len (this s) + 1
    /\ (len (this s') < maxMessages (this s') -> isFirstRun (this s') = true).
Proof.
  intros Hfirst Hlen. unfold tryConsume, canSendNow. run.
  pose proof (cleanupOldSends_keeps s) as [K1 _ _ K4 _].
  pose proof (cleanupOldSends_first_run s Hfirst) as F1.
  destruct (cleanupOldSends s) as [[] s1]. cbn [snd] in *.
  apply sublist_length in K4.
  rewrite getTimestamp_read. cbn [this world].
  rewrite F1. cbn [andb].
  destruct (Z.ltb_spec (len (this s1)) (maxMessages (this s1))) as [_|Hge];
    [|unfold len in *; lia].
  cbn [negb]. rewrite getTimestamp_read. cbn [this world].
  set (now := readAfter 1 _).
  set (r1 := withLastSent now _).
  set (r2 := if len r1 =? 1 then withBurstStart now r1 else r1).
  assert (sentMessages r2 = sentMessages (this s1) ++ [now]
          /\ maxMessages r2 = maxMessages (this s1)
          /\ isFirstRun r2 = true) as (S2 & M2 & F2).
  { subst r2. destruct (len r1 =? 1); subst r1; cbn; auto. }
  eexists. split; [reflexivity|]. cbn [this].
  assert (len r2 = len (this s1) + 1) as L2.
  { unfold len. rewrite S2, length_app. cbn. lia. }
  rewrite F2. cbn [andb].
  destruct (Z.leb_spec (maxMessages r2) (len r2)) as [Hfull|Hroom].
  - cbn. unfold len in *. cbn. rewrite S2, M2 in *. 
    repeat split; try lia.
  - repeat split; try congruence; unfold len in *; try lia.
Qed.

Lemma tryConsumeTimes_first_run (n : nat) :
  forall s,
    isFirstRun (this s) = true ->
    len (this s) + Z.of_nat n <= maxMessages (this s) ->
    fst (tryConsumeTimes n s) = repeat true n.
Proof.
  induction n as [|n IH]; intros s Hfirst Hroom; [reflexivity|].
  cbn [tryConsumeTimes repeat]. run.
  destruct (tryConsume_first_run s Hfirst) as (s1 & -> & M1 & L1 & F1);
    [lia|].
  destruct n as [|n'].
  - reflexivity.
  - rewrite <- (IH s1); [now destruct (tryConsumeTimes (S n') s1)| |].
    + apply F1. lia.
    + lia.
Qed.

(** X1. On a new limiter the first [maxMessages] calls of [tryConsume]
    are all granted, whatever the clock does between them. *)
Theorem first_run_grants_the_first_burst
    (cfgMaxMessages cfgBurstPauseMs interval : Z) (w : World) (n : nat) :
  let r := createRateLimiter cfgMaxMessages cfgBurstPauseMs interval in
  Z.of_nat n <= maxMessages r ->
  fst (tryConsumeTimes n {| this := r; world := w |}) = repeat true n.
Proof.
  intros r Hn. apply tryConsumeTimes_first_run; [reflexivity|].
  cbn [this]. unfold len.
  replace (sentMessages r) with (@nil Z) by reflexivity. cbn [length]. lia.
Qed.

Lemma first_run_grants_the_first_burst_witness :
  Z.of_nat 3 <= maxMessages (createRateLimiter 0 0 60000)
  /\ fst (tryConsumeTimes 3
            {| this := createRateLimiter 0 0 60000;
               world := {| clock := 1700000000000;
                           lags := [5; 0; 0; 7000000]%N |} |})
     = repeat true 3.
Proof.
  split; [vm_compute; discriminate|].
  apply (first_run_grants_the_first_burst 0 0 60000). vm_compute. discriminate.
Defined.

(** X2. Steady state: the limiter is past its first run, keeps at least
    one timestamp, and nothing is old enough for [cleanupOldSends] to
    drop or reset.  Then [tryConsume] refuses exactly when the last
    grant is less than [messageIntervalMs] ago, or the burst is full
    and less than [burstPauseMs] has passed since it began; the times
    are those of the second clock reading of the call. *)
Theorem steady_state_decision (s : Sys) :
  let r := this s in
  let t1 := readAfter 1 (world s) in
  let t2 := readAfter 2 (world s) in
  isFirstRun r = false ->
  sentMessages r <> [] ->
  Forall (fun x => t1 - burstPauseMs r < x) (sentMessages r) ->
  lastSentTime r <= 0 \/ t1 - lastSentTime r <= burstPauseMs r ->
  fst (tryConsume s) = steadyGrant r t2.
Proof.
  intros r t1 t2 Hfirst Hne Hnew Hlast. subst t1 t2.
  unfold tryConsume, canSendNow, cleanupOldSends. run.
  rewrite getTimestamp_read. cbn [this world]. fold r.
  rewrite filter_all
    by (eapply Forall_impl; [exact Hnew|]; intros x Hx; cbn beta;
        apply Z.ltb_lt; exact Hx).
  replace (withSent (sentMessages r) r) with r by now destruct r.
  replace ((0 <? lastSentTime r)
           && (burstPauseMs r <? readAfter 1 (world s) - lastSentTime r))
    with false
    by (symmetry; apply andb_false_iff;
        destruct Hlast; [left; apply Z.ltb_ge|right; apply Z.ltb_ge]; lia).
  assert ((len r =? 0) = false) as Hlen.
  { apply Z.eqb_neq. unfold len. destruct (sentMessages r); [easy|cbn; lia]. }
  rewrite Hlen. cbn [andb].
  rewrite getTimestamp_read. cbn [this world].
  rewrite readAfter_tail.
  rewrite Hfirst, Hlen. cbn [andb]. unfold steadyGrant.
  destruct (_ - lastSentTime r <? messageIntervalMs r); [reflexivity|].
  cbn [orb].
  destruct (maxMessages r <=? len r); cbn [andb];
    [destruct (_ - burstStartTime r <? burstPauseMs r); [reflexivity|]|];
    cbn [negb this world]; rewrite getTimestamp_read; reflexivity.
Qed.

Lemma steady_state_decision_witness :
  let s := afterFirstBurst in
  fst (tryConsume s) = steadyGrant (this s) (readAfter 2 (world s))
  /\ fst (tryConsume s) = false.
Proof.
  split; [|reflexivity].
  apply (steady_state_decision afterFirstBurst).
  - reflexivity.
  - discriminate.
  - repeat constructor.
  - right. vm_compute. discriminate.
Defined.

(** X3. What one [tryConsume] leaves in the list: a grant appends
    exactly one timestamp, the clock reading of the grant, which is also
    the new [lastSentTime], to what was kept of the old list; a refusal
    only keeps, it appends nothing. *)
Theorem tryConsume_appends_one_or_nothing (s : Sys) :
  let '(ok, s') := tryConsume s in
  if ok
  then exists kept,
      sentMessages (this s') = kept ++ [clock (world s')]
      /\ sublist kept (sentMessages (this s))
      /\ lastSentTime (this s') = clock (world s')
  else sublist (sentMessages (this s')) (sentMessages (this s)).
Proof.
  destruct (tryConsume_shape s) as (ok & s' & -> & Hgrant & Hrefuse & Hkept).
  destruct ok.
  - destruct (Hgrant eq_refl) as [Hsent Hlast].
    exists (sentMessages (this (snd (canSendNow s)))). auto.
  - now rewrite (Hrefuse eq_refl).
Qed.



Lemma getAvailableTokens_run s :
  exists s',
    getAvailableTokens s
    = (if len (this s') <? maxMessages (this s') then 1 else 0, s')
    /\ Keeps s s'.
Proof.
  unfold getAvailableTokens. run.
  pose proof (cleanupOldSends_keeps s) as K.
  destruct (cleanupOldSends s) as [[] s1]. cbn [snd] in K.
  exists s1. auto.
Qed.

(** X5. [getStats] consumes nothing: the settings stay and what is left
    of the list of sent timestamps was there before.  In the object it
    returns, [availableTokens] is 1 exactly when [sentInBurst] is below
    [maxMessages] and 0 otherwise, and [timeToNextToken] is never
    negative. *)
Theorem getStats_reads_only (s : Sys) :
  let '(st, s') := getStats s in
  Keeps s s'
  /\ sentInBurst st = len (this s')
  /\ stat_maxMessages st = maxMessages (this s)
  /\ availableTokens st
     = (if sentInBurst st <? stat_maxMessages st then 1 else 0)
  /\ 0 <= timeToNextToken st.
Proof.
  unfold getStats. run.
  pose proof (cleanupOldSends_keeps s) as K1.
  destruct (cleanupOldSends s) as [[] s1]. cbn [snd] in K1.
  pose proof (getTimestamp_keeps s1) as K2.
  rewrite getTimestamp_read in *. cbn [this world snd] in *.
  match goal with |- context [getAvailableTokens ?x] => set (s2 := x) in * end.
  destruct (getAvailableTokens_run s2) as (s3 & -> & K3).
  assert (Keeps s s3) as K by (eauto using Keeps_trans).
  cbn [availableTokens sentInBurst stat_maxMessages timeToNextToken].
  split; [exact K|]. split; [reflexivity|].
  split; [apply K|]. split; [reflexivity|].
  repeat match goal with
         | |- context [if ?b then _ else _] => destruct b
         end; lia.
Qed.
End RateRegimes.

(** ** The helpers of core/util.js *)

Section HtmlEscaping.
Import JsString UtilFns.

Lemma anyChar_app p a b :
  anyChar p (a ++ b) = anyChar p a || anyChar p b.
Proof.
  induction a as [|c a IH]; [reflexivity|].
  change (anyChar p (String c (a ++ b)) = anyChar p (String c a) || anyChar p b).
  cbn [anyChar]. now rewrite IH, orb_assoc.
Qed.

Lemma htmlEscapes_clean c e :
  htmlEscapes c = Some e -> anyChar isMarkup e = false.
Proof.
  unfold htmlEscapes.
  repeat match goal with
         | |- context [if ?b then _ else _] => destruct b
         end; intros [= <-]; reflexivity.
Qed.

Lemma htmlEscapes_none c : htmlEscapes c = None -> isMarkup c = false.
Proof.
  unfold htmlEscapes, isMarkup.
  repeat match goal with
         | |- context [if ?b then _ else _] => destruct b eqn:?
         end; try discriminate; reflexivity.
Qed.

Lemma htmlEscapes_longer c e :
  htmlEscapes c = Some e -> (1 < String.length e)%nat.
Proof.
  unfold htmlEscapes.
  repeat match goal with
         | |- context [if ?b then _ else _] => destruct b
         end; intros [= <-]; cbn; lia.
Qed.

Lemma escapeHtml_length text :
  (String.length text <= String.length (escapeHtml text))%nat.
Proof.
  induction text as [|c r IH]; cbn [escapeHtml]; [lia|].
  destruct (htmlEscapes c) as [e|] eqn:He.
  - pose proof (htmlEscapes_longer _ _ He).
    rewrite string_length_app. cbn [String.length]. lia.
  - cbn [String.length]. lia.
Qed.

(** X6. The text [escapeHtml] returns holds no angle bracket, no quote
    of either kind and no slash; and it is the text it was given exactly
    when that text holds none of the six characters it replaces. *)
Theorem escapeHtml_leaves_no_markup (text : string) :
  anyChar isMarkup (escapeHtml text) = false
  /\ (escapeHtml text = text
      <-> anyChar (fun c => bool_decide (is_Some (htmlEscapes c))) text
          = false).
Proof.
  split.
  - induction text as [|c r IH]; [reflexivity|]. cbn [escapeHtml].
    destruct (htmlEscapes c) as [e|] eqn:He.
    + now rewrite anyChar_app, (htmlEscapes_clean _ _ He), IH.
    + cbn [anyChar]. now rewrite (htmlEscapes_none _ He), IH.
  - induction text as [|c r IH]; [easy|]. cbn [escapeHtml anyChar].
    destruct (htmlEscapes c) as [e|] eqn:He.
    + split; [|intros H; apply orb_false_iff in H as [H _];
                apply bool_decide_eq_false in H; elim H; eauto].
      intros Heq. exfalso.
      assert (String.length (e ++ escapeHtml r)
              = String.length (String c r)) as Hlen by now rewrite Heq.
      rewrite string_length_app in Hlen. cbn [String.length] in Hlen.
      pose proof (htmlEscapes_longer _ _ He).
      pose proof (escapeHtml_length r). lia.
    + replace (bool_decide (is_Some (@None string))) with false
        by (symmetry; apply bool_decide_eq_false; intros [? [=]]).
      cbn [orb]. rewrite <- IH. split; [now intros [= ->]|now intros ->].
Qed.
End HtmlEscaping.

Section Chunks.
Import UtilFns.
Context {A : Type}.

Lemma slice_window (array : list A) (k : nat) (size : Z) :
  1 <= size ->
  (k < length array)%nat ->
  slice (Z.of_nat k) (Z.of_nat k + size) array
  = take (Z.to_nat size) (drop k array).
Proof.
  intros Hsize Hk. unfold slice, relIndex.
  destruct (Z.ltb_spec (Z.of_nat k) 0) as [?|_]; [lia|].
  destruct (Z.ltb_spec (Z.of_nat k + size) 0) as [?|_]; [lia|].
  rewrite (Z.min_l (Z.of_nat k)) by lia. rewrite Nat2Z.id.
  destruct (Z.le_ge_cases (Z.of_nat k + size) (Z.of_nat (length array)))
    as [Hfit|Hover].
  - rewrite Z.min_l by lia. f_equal. lia.
  - rewrite Z.min_r by lia.
    rewrite !take_ge; [reflexivity| |]; rewrite length_drop; lia.
Qed.

Lemma chunkLoop_partition (size : Z) (array : list A) (fuel : nat) :
  1 <= size ->
  forall (k : nat) (chunks : list (list A)),
    (1 <= fuel)%nat ->
    (length array < k + fuel)%nat ->
    exists rest,
      chunkLoop fuel (Z.of_nat k) size array chunks = Some (chunks ++ rest)
      /\ concat rest = drop k array
      /\ Forall (fun c => (1 <= length c)%nat
                          /\ Z.of_nat (length c) <= size) rest
      /\ Forall (fun c => Z.of_nat (length c) = size)
           (take (length rest - 1) rest).
Proof.
  intros Hsize. induction fuel as [|fuel IH]; intros k chunks Hone Hfuel;
    [lia|].
  cbn [chunkLoop].
    destruct (Z.ltb_spec (Z.of_nat k) (Z.of_nat (length array))) as [Hin|Hout].
  - rewrite slice_window by lia.
      replace (Z.of_nat k + size) with (Z.of_nat (k + Z.to_nat size)) by lia.
      destruct (IH (k + Z.to_nat size)%nat
                  (chunks ++ [take (Z.to_nat size) (drop k array)]))
      as (rest & -> & Hcat & Hall & Hfull); [lia|lia|].
    exists (take (Z.to_nat size) (drop k array) :: rest).
    split; [now rewrite <- app_assoc|]. split; [|split].
    + cbn [concat]. rewrite Hcat, <- drop_drop. apply take_drop.
    + constructor; [|exact Hall].
      rewrite length_take, length_drop. lia.
    + destruct rest as [|c rest']; [constructor|].
      replace (length (take (Z.to_nat size) (drop k array) :: c :: rest') - 1)%nat
        with (S (length rest')) by (cbn [length]; lia).
      cbn [take]. constructor.
      * rewrite length_take, length_drop.
        assert (concat (c :: rest') <> []) as Hne.
        { inversion Hall as [|? ? [Hc _] _]; subst.
          destruct c; [cbn in Hc; lia|easy]. }
        rewrite Hcat in Hne.
        assert (k + Z.to_nat size < length array)%nat.
        { destruct (Nat.lt_ge_cases (k + Z.to_nat size) (length array));
            [easy|]. now rewrite drop_ge in Hne. }
        lia.
      * replace (length (c :: rest') - 1)%nat with (length rest') in Hfull
          by (cbn [length]; lia).
        exact Hfull.
  - exists []. rewrite app_nil_r, drop_ge by lia.
    repeat split; constructor.
Qed.

(** X7. For a size of at least one, [chunk] returns, and what it
    returns cuts the array into consecutive pieces: put together they
    are the array, no piece is empty or longer than [size], and every
    piece but the last is exactly [size] long. *)
Theorem chunk_partitions (array : list A) (size : Z) (fuel : nat) :
  1 <= size ->
  (length array < fuel)%nat ->
  exists chunks,
    chunk fuel array size = Some chunks
    /\ concat chunks = array
    /\ Forall (fun c => (1 <= length c)%nat /\ Z.of_nat (length c) <= size)
         chunks
    /\ Forall (fun c => Z.of_nat (length c) = size)
         (take (length chunks - 1) chunks).
Proof.
  intros Hsize Hfuel.
  destruct (chunkLoop_partition size array fuel Hsize 0 [])
    as (rest & H1 & H2 & H3 & H4); [lia|lia|].
  exists rest. unfold chunk. change 0 with (Z.of_nat 0). now rewrite H1.
Qed.

Lemma chunkLoop_stuck (size : Z) (array : list A) (fuel : nat) :
  size <= 0 -> array <> [] ->
  forall i chunks, i <= 0 -> chunkLoop fuel i size array chunks = None.
Proof.
  intros Hsize Hne. induction fuel as [|fuel IH]; intros i chunks Hi;
    [reflexivity|].
  cbn [chunkLoop].
  destruct (Z.ltb_spec i (Z.of_nat (length array))) as [_|Hge].
  - apply IH. lia.
  - destruct array; [easy|cbn in Hge; lia].
Qed.

(** X8. For a size of zero or less, [chunk] never returns on an array
    that is not empty: the index never passes the end, however many
    turns the loop is given. *)
Theorem chunk_never_returns (array : list A) (size : Z) (fuel : nat) :
  size <= 0 -> array <> [] -> chunk fuel array size = None.
Proof.
  intros Hsize Hne. unfold chunk. now apply chunkLoop_stuck.
Qed.
End Chunks.

Lemma chunk_partitions_witness :
  exists chunks,
    UtilFns.chunk 6 [1; 2; 3; 4; 5] 2 = Some chunks
    /\ concat chunks = [1; 2; 3; 4; 5]
    /\ Forall (fun c => (1 <= length c)%nat /\ Z.of_nat (length c) <= 2)
         chunks
    /\ Forall (fun c => Z.of_nat (length c) = 2)
         (take (length chunks - 1) chunks).
Proof. apply (chunk_partitions [1; 2; 3; 4; 5] 2 6); [lia|cbn; lia]. Defined.

Lemma chunk_never_returns_witness :
  UtilFns.chunk 1000 [1; 2; 3] 0 = None.
Proof. apply (chunk_never_returns [1; 2; 3] 0 1000); [lia|discriminate]. Defined.

Section Unique.
Import UtilFns.
Context {A : Type} `{EqDecision A}.

Lemma fold_addOnce (l : list A) :
  forall set,
    NoDup set ->
    exists rest,
      fold_left addOnce l set = set ++ rest
      /\ NoDup (set ++ rest)
      /\ sublist rest l
      /\ forall x, x ∈ set ++ rest <-> x ∈ set \/ x ∈ l.
Proof.
  induction l as [|y l IH]; intros set Hset.
  - exists []. rewrite app_nil_r.
    split; [reflexivity|]. split; [exact Hset|]. split; [constructor|].
    intros x. split; [auto|intros [H|H]; [auto|inversion H]].
  - cbn [fold_left]. unfold addOnce at 2.
    destruct (decide (y ∈ set)) as [Hy|Hy].
    + destruct (IH set Hset) as (rest & -> & Hnd & Hsub & Hin).
      exists rest. repeat split; auto.
      * now constructor.
      * intros Hx. apply Hin in Hx as [Hx|Hx]; [auto|]. right. now right.
      * intros [Hx|Hx]; apply Hin; auto.
        apply elem_of_cons in Hx as [->|Hx]; auto.
    + destruct (IH (set ++ [y])) as (rest & -> & Hnd & Hsub & Hin).
      { apply NoDup_app. repeat split; auto.
        - intros x Hx Hx'. apply list_elem_of_singleton in Hx'. now subst.
        - apply NoDup_singleton. }
      exists (y :: rest). rewrite <- app_assoc in *. cbn [app] in *.
      repeat split; auto.
      * now constructor.
      * intros Hx. apply Hin in Hx as [Hx|Hx].
        -- apply elem_of_app in Hx as [Hx|Hx]; [auto|].
           apply list_elem_of_singleton in Hx. subst. right. now left.
        -- right. now right.
      * intros [Hx|Hx]; apply Hin.
        -- left. apply elem_of_app. auto.
        -- apply elem_of_cons in Hx as [->|Hx]; [|auto].
           left. apply elem_of_app. right. now left.
Qed.

Lemma fold_addOnce_first (l : list A) :
  forall set pre,
    (forall x, x ∈ set <-> x ∈ pre) ->
    fold_left addOnce l set
    = set ++ concat (imap (fun i x =>
                             if decide (x ∈ take (length pre + i) (pre ++ l))
                             then [] else [x]) l).
Proof.
  induction l as [|y l IH]; intros set pre Hset.
  - cbn. now rewrite app_nil_r.
  - cbn [fold_left imap concat].
    rewrite Nat.add_0_r, take_app_length.
    rewrite (IH (addOnce set y) (pre ++ [y])).
    + unfold addOnce.
      assert (forall i,
                 take (length (pre ++ [y]) + i) ((pre ++ [y]) ++ l)
                 = take (length pre + S i) (pre ++ y :: l)) as Hshift.
      { intros i. rewrite <- app_assoc, length_app. cbn [length app].
        f_equal. lia. }
      erewrite imap_ext; [|intros i x _; rewrite Hshift; reflexivity].
      destruct (decide (y ∈ set)) as [Hy|Hy];
        destruct (decide (y ∈ pre)) as [Hp|Hp];
        try (apply Hset in Hy; contradiction);
        try (apply Hset in Hp; contradiction).
      * reflexivity.
      * now rewrite <- app_assoc.
    + intros x. unfold addOnce.
      destruct (decide (y ∈ set)) as [Hy|Hy].
      * rewrite elem_of_app, list_elem_of_singleton, Hset.
        split; [auto|]. intros [Hx| ->]; [exact Hx|]. now apply Hset.
      * now rewrite !elem_of_app, Hset.
Qed.

(** X9. [unique] keeps the first copy of every element and nothing
    else: the result is the array without the elements that occur
    earlier in it, in the order of the array.  It has no duplicates and
    holds exactly the elements of the array. *)
Theorem unique_keeps_first_copies (array : list A) :
  unique array
  = concat (imap (fun i x => if decide (x ∈ take i array) then [] else [x])
              array)
  /\ NoDup (unique array)
  /\ (forall x, x ∈ unique array <-> x ∈ array).
Proof.
  split.
  - unfold unique. rewrite (fold_addOnce_first array [] []); [reflexivity|].
    intros x. reflexivity.
  - destruct (fold_addOnce array [] (NoDup_nil_2))
      as (rest & Heq & Hnd & Hsub & Hin).
    unfold unique. rewrite Heq. cbn [app] in *.
    split; [exact Hnd|]. intros x. split.
    + intros Hx. apply Hin in Hx as [Hx|Hx]; [inversion Hx|auto].
    + intros Hx. apply Hin. auto.
Qed.

Example unique_of_repeats :
  UtilFns.unique [1; 2; 1; 3; 2] = [1; 2; 3].
Proof. reflexivity. Qed.
End Unique.

Section Retry.
Import UtilFns.
Context {A : Type}.

(** A run of failed attempts that does not reach the last one only adds
    its calls and pauses to the trace. *)
Lemma retryLoop_failures (operation : Z -> Send.outcome A)
    (err : Z -> string) (maxAttempts : Z) (n : nat) :
  forall (fuel : nat) (attempt : Z) (lastError : option string)
         (trace : list RetryEvent),
    (forall j, attempt <= j < attempt + Z.of_nat n ->
               operation j = Send.Throws (err j)) ->
    attempt + Z.of_nat n <= maxAttempts ->
    retryLoop (n + fuel) operation attempt maxAttempts lastError trace
    = retryLoop fuel operation (attempt + Z.of_nat n) maxAttempts
        (if (n =? 0)%nat then lastError
         else Some (err (attempt + Z.of_nat n - 1)))
        (trace ++ flat_map (fun j => [Attempt j; Backoff j])
                           (seqZ attempt (Z.of_nat n))).
Proof.
  induction n as [|n IH]; intros fuel attempt lastError trace Hfail Hmax.
  - cbn. now rewrite Z.add_0_r, app_nil_r.
  - cbn [Nat.add retryLoop].
    destruct (Z.leb_spec attempt maxAttempts) as [_|?]; [|lia].
    rewrite Hfail by lia.
    destruct (Z.eqb_spec attempt maxAttempts) as [?|_]; [lia|].
    rewrite IH by (try (intros j Hj; apply Hfail); lia).
    replace (attempt + 1 + Z.of_nat n) with (attempt + Z.of_nat (S n)) by lia.
    rewrite (seqZ_cons attempt (Z.of_nat (S n))) by lia.
    replace (Z.pred (Z.of_nat (S n))) with (Z.of_nat n) by lia.
    replace (Z.succ attempt) with (attempt + 1) by lia.
    cbn [flat_map]. rewrite <- app_assoc. cbn [app Nat.eqb].
    f_equal. destruct n; [f_equal; f_equal; lia|reflexivity].
Qed.

(** X10. When the first [k - 1] calls of the operation throw and the
    [k]-th returns, with [k] within [maxAttempts], [retryWithBackoff]
    returns that value; it has called the operation [k] times, paused
    after each failure, and makes no call after the success. *)
Theorem retry_returns_first_success (operation : Z -> Send.outcome A)
    (err : Z -> string) (maxAttempts k : Z) (a : A) :
  1 <= k <= maxAttempts ->
  (forall j, 1 <= j < k -> operation j = Send.Throws (err j)) ->
  operation k = Send.Ok a ->
  retryWithBackoff operation maxAttempts
  = Some (Returned a, failedAttempts (k - 1) ++ [Attempt k]).
Proof.
  intros Hk Hfail Hok. unfold retryWithBackoff, failedAttempts.
  replace (S (Z.to_nat maxAttempts))
    with (Z.to_nat (k - 1) + S (Z.to_nat (maxAttempts - k + 1)))%nat by lia.
  rewrite (retryLoop_failures operation err)
    by (try (intros j Hj; apply Hfail); lia).
  rewrite Z2Nat.id by lia. replace (1 + (k - 1)) with k by lia.
  cbn [retryLoop app].
  destruct (Z.leb_spec k maxAttempts) as [_|?]; [|lia].
  now rewrite Hok.
Qed.

(** X11. When every call of the operation throws, [retryWithBackoff]
    makes [maxAttempts] calls, pauses between them but not after the
    last, and throws the error of the last call; with [maxAttempts]
    below one it makes no call and throws [undefined]. *)
Theorem retry_throws_last_error (operation : Z -> Send.outcome A)
    (err : Z -> string) (maxAttempts : Z) :
  (forall j, 1 <= j <= maxAttempts -> operation j = Send.Throws (err j)) ->
  retryWithBackoff operation maxAttempts
  = if 1 <=? maxAttempts
    then Some (Rejected (Some (err maxAttempts)),
               failedAttempts (maxAttempts - 1) ++ [Attempt maxAttempts])
    else Some (Rejected None, []).
Proof.
  intros Hfail. unfold retryWithBackoff, failedAttempts.
  destruct (Z.leb_spec 1 maxAttempts) as [Hpos|Hnone].
  - replace (S (Z.to_nat maxAttempts))
      with (Z.to_nat (maxAttempts - 1) + 2)%nat by lia.
    rewrite (retryLoop_failures operation err)
      by (try (intros j Hj; apply Hfail); lia).
    rewrite Z2Nat.id by lia.
    replace (1 + (maxAttempts - 1)) with maxAttempts by lia.
    cbn [retryLoop app].
    destruct (Z.leb_spec maxAttempts maxAttempts) as [_|?]; [|lia].
    rewrite Hfail by lia. now rewrite Z.eqb_refl.
  - cbn [retryLoop].
    destruct (Z.leb_spec 1 maxAttempts) as [?|_]; [lia|reflexivity].
Qed.
End Retry.

Lemma retry_returns_first_success_witness :
  UtilFns.retryWithBackoff
    (fun n => if n <? 3 then Send.Throws "FLOOD" else Send.Ok n) 5
  = Some (UtilFns.Returned 3, UtilFns.failedAttempts (3 - 1) ++ [UtilFns.Attempt 3]).
Proof.
  apply (retry_returns_first_success
           (fun n => if n <? 3 then Send.Throws "FLOOD" else Send.Ok n)
           (fun _ => "FLOOD") 5 3 3).
  - lia.
  - intros j Hj. destruct (Z.ltb_spec j 3); [reflexivity|lia].
  - reflexivity.
Defined.

Lemma retry_throws_last_error_witness :
  UtilFns.retryWithBackoff (A := Z) (fun n => Send.Throws "TIMEOUT") 5
  = if 1 <=? 5
    then Some (UtilFns.Rejected (Some "TIMEOUT"),
               UtilFns.failedAttempts (5 - 1) ++ [UtilFns.Attempt 5])
    else Some (UtilFns.Rejected None, []).
Proof.
  apply (retry_throws_last_error (fun n => Send.Throws "TIMEOUT")
           (fun _ => "TIMEOUT") 5).
  reflexivity.
Defined.

Section StringHash.
Import JsString UtilFns.

Lemma toInt32_range z : - 2 ^ 31 <= toInt32 z < 2 ^ 31.
Proof.
  unfold toInt32. pose proof (Z.mod_pos_bound (z + 2 ^ 31) (2 ^ 32)). lia.
Qed.

Lemma toInt32_shift z k : toInt32 (z + k * 2 ^ 32) = toInt32 z.
Proof.
  unfold toInt32.
  replace (z + k * 2 ^ 32 + 2 ^ 31) with (z + 2 ^ 31 + k * 2 ^ 32) by lia.
  now rewrite Z_mod_plus_full.
Qed.

Lemma toInt32_offset z : exists k, toInt32 z = z + k * 2 ^ 32.
Proof.
  unfold toInt32. exists (- ((z + 2 ^ 31) / 2 ^ 32)).
  pose proof (Z.div_mod (z + 2 ^ 31) (2 ^ 32)). lia.
Qed.

Lemma toInt32_id z : - 2 ^ 31 <= z < 2 ^ 31 -> toInt32 z = z.
Proof. intros H. unfold toInt32. rewrite Z.mod_small; lia. Qed.

(** One turn of the loop on a wrapped value is the wrapped polynomial
    step on any value it is the wrap of. *)
Lemma hashStep_poly (p : Z) (c : ascii) :
  hashStep (toInt32 p) c = toInt32 (31 * p + Z.of_N (code c)).
Proof.
  unfold hashStep.
  destruct (toInt32_offset p) as [k1 ->].
  destruct (toInt32_offset ((p + k1 * 2 ^ 32) * 32)) as [k2 ->].
  replace ((p + k1 * 2 ^ 32) * 32 + k2 * 2 ^ 32 - (p + k1 * 2 ^ 32)
           + Z.of_N (code c))
    with (31 * p + Z.of_N (code c) + (31 * k1 + k2) * 2 ^ 32) by lia.
  apply toInt32_shift.
Qed.

Lemma hashFrom_poly (str : string) :
  forall p, hashFrom (toInt32 p) str = toInt32 (polyFrom p str).
Proof.
  induction str as [|c r IH]; intros p; [reflexivity|].
  cbn [hashFrom polyFrom]. now rewrite hashStep_poly, IH.
Qed.

Lemma hash32_range (data : string) :
  - 2 ^ 31 <= hash32 data < 2 ^ 31.
Proof.
  unfold hash32. rewrite <- (toInt32_id 0) by lia.
  rewrite hashFrom_poly. apply toInt32_range.
Qed.

(** X12. The number [sha256] prints is the polynomial hash of the
    string to the base 31, wrapped to 32 bits: wrapping at every turn
    of the loop gives what wrapping once at the end gives.  It lies
    between -2^31 and 2^31 - 1. *)
Theorem hash32_is_wrapped_polynomial (data : string) :
  hash32 data = toInt32 (polyFrom 0 data)
  /\ - 2 ^ 31 <= hash32 data < 2 ^ 31.
Proof.
  assert (hash32 data = toInt32 (polyFrom 0 data)) as H.
  { unfold hash32. rewrite <- hashFrom_poly. now rewrite toInt32_id by lia. }
  split; [exact H|]. rewrite H. apply toInt32_range.
Qed.

(** Two strings with the same polynomial value: the hash cannot tell
    them apart. *)
Example sha256_collision : sha256 "Aa" = sha256 "BB" /\ sha256 "hello" = "5e918d2".
Proof. split; reflexivity. Qed.

Lemma hexDigits_length (fuel : nat) :
  forall (k : nat) (n : Z) (acc : string),
    (1 <= k)%nat -> 0 <= n < 16 ^ Z.of_nat k ->
    (String.length (hexDigits fuel n acc) <= k + String.length acc)%nat.
Proof.
  induction fuel as [|fuel IH]; intros k n acc Hk Hn; cbn [hexDigits]; [lia|].
  destruct (Z.ltb_spec n 16) as [Hsmall|Hbig]; [cbn [String.length]; lia|].
  destruct k as [|[|k]]; [lia|cbn in Hn; lia|].
  assert (0 <= n / 16 < 16 ^ Z.of_nat (S k)) as Hdiv.
  { split; [apply Z.div_pos; lia|].
    apply Z.div_lt_upper_bound; [lia|].
    replace (Z.of_nat (S (S k))) with (1 + Z.of_nat (S k)) in Hn by lia.
    rewrite Z.pow_add_r in Hn by lia. lia. }
  specialize (IH (S k) (n / 16) (String (hexDigit (n mod 16)) acc)
                ltac:(lia) Hdiv).
  cbn [String.length] in IH. lia.
Qed.

(** The fuel of [toString16] is never used up: with more fuel the
    digits are the same. *)
Lemma hexDigits_fuel (fuel : nat) :
  forall (n : Z) (acc : string) (more : nat),
    (1 <= fuel)%nat ->
    0 <= n < 2 ^ Z.of_nat fuel ->
    hexDigits (fuel + more) n acc = hexDigits fuel n acc.
Proof.
  induction fuel as [|fuel IH]; intros n acc more Hfuel Hn; [lia|].
  cbn [Nat.add hexDigits].
  destruct (Z.ltb_spec n 16) as [Hsmall|Hbig]; [reflexivity|].
  replace (Z.of_nat (S fuel)) with (1 + Z.of_nat fuel) in Hn by lia.
  rewrite Z.pow_add_r in Hn by lia.
  destruct fuel as [|fuel']; [cbn in Hn; lia|].
  apply IH; [lia|]. split; [apply Z.div_pos; lia|].
  apply Z.div_lt_upper_bound; lia.
Qed.

Lemma hexFuel_enough (n : Z) :
  0 <= n -> (1 <= hexFuel n)%nat /\ 0 <= n < 2 ^ Z.of_nat (hexFuel n).
Proof.
  intros Hn. split; [unfold hexFuel; lia|]. split; [exact Hn|].
  unfold hexFuel.
  destruct (Z.eq_dec n 0) as [->|Hne]; [reflexivity|].
  pose proof (Z.log2_spec n ltac:(lia)) as [_ Hlt].
  pose proof (Z.log2_nonneg n).
  replace (Z.of_nat (S (Z.to_nat (Z.log2 n)))) with (Z.succ (Z.log2 n)) by lia.
  exact Hlt.
Qed.

Lemma substring0_short (n : nat) (s : string) :
  (String.length s <= n)%nat -> substring0 n s = s.
Proof.
  revert n. induction s as [|c r IH]; intros [|n] H; cbn in *;
    try reflexivity; try lia.
  now rewrite IH by lia.
Qed.

(** X13. [sha256] returns at most eight hexadecimal digits, so the
    [substring(0, 16)] of [createUniqueId] cuts nothing off: the
    identifier is the hash of the data, or of the data, a colon and the
    salt when there is a salt. *)
Theorem createUniqueId_is_the_hash (data salt : string) :
  (String.length (sha256 data) <= 8)%nat
  /\ createUniqueId data salt
     = sha256 (if isEmpty salt then data else (data ++ ":" ++ salt)%string).
Proof.
  assert (forall d, (String.length (sha256 d) <= 8)%nat) as Hlen.
  { intros d. unfold sha256, toString16.
    destruct (hash32_range d) as [Hlo Hhi].
    pose proof (hexDigits_length (hexFuel (Z.abs (hash32 d))) 8
                  (Z.abs (hash32 d)) EmptyString ltac:(lia)) as H.
    cbn [String.length] in H. rewrite Nat.add_0_r in H. apply H.
    change (16 ^ Z.of_nat 8) with (2 ^ 32). lia. }
  split; [apply Hlen|].
  unfold createUniqueId. apply substring0_short.
  specialize (Hlen (if isEmpty salt then data
                    else (data ++ ":" ++ salt)%string)).
  unfold uniqueIdLength. lia.
Qed.
End StringHash.
(** ** The Sent History Store *)

Section SentHistoryFacts.
Import SentHistory SentHistoryStats.

(** [recordSent] throws exactly when the key reads an inherited object;
    otherwise it writes one entry. *)
Lemma recordSent_cases now (h : gmap string Entry) k m :
  (readsInherited h k /\ recordSent now h k m = None)
  \/ (~ readsInherited h k
      /\ recordSent now h k m
         = Some (<[normalizeContactKey k :=
                     recorded now (h !! normalizeContactKey k) m]> h)).
Proof.
  unfold recordSent, read, readsInherited.
  destruct (h !! normalizeContactKey k) as [e|] eqn:He.
  - right. split; [intros [H _]; discriminate|reflexivity].
  - destruct (inheritedName (normalizeContactKey k)) eqn:Hi.
    + left. auto.
    + right. split; [intros [_ H]; discriminate|reflexivity].
Qed.

Lemma readsInherited_not_sent (h : gmap string Entry) k k' :
  normalizeContactKey k' = normalizeContactKey k ->
  readsInherited h k ->
  isAlreadySent h k' = false /\ getSentInfo h k' = Some Inherited.
Proof.
  intros Hk [Hnone Hname]. unfold isAlreadySent, getSentInfo, read.
  now rewrite Hk, Hnone, Hname.
Qed.

(** X14. When [recordSent] returns, the contact counts as sent under
    every spelling that normalises to the same key, provided the entry
    the history held for it, if any, had no negative count (or was
    marked as processed).  It throws exactly when the normalised key is
    [constructor] or [__proto__] and the history has no entry of its
    own for it; the contact then still does not count as sent. *)
Theorem recordSent_then_isAlreadySent
    (now : Z) (h : gmap string Entry) (k k' m : string) :
  normalizeContactKey k' = normalizeContactKey k ->
  (forall e, h !! normalizeContactKey k = Some e ->
             0 <= count e \/ marked_as_processed e = true) ->
  match recordSent now h k m with
  | Some h' => isAlreadySent h' k' = true
  | None => isAlreadySent h k' = false
  end
  /\ (recordSent now h k m = None <-> readsInherited h k).
Proof.
  intros Hk Hold.
  destruct (recordSent_cases now h k m) as [[Hin ->]|[Hown ->]].
  - split; [now apply (readsInherited_not_sent h k k')|]. tauto.
  - split; [|split; [discriminate|contradiction]].
    unfold isAlreadySent, read.
    rewrite Hk, lookup_insert_eq.
    destruct (h !! normalizeContactKey k) as [e|] eqn:He; [|reflexivity].
    cbn [recorded count marked_as_processed].
    destruct (Hold e eq_refl) as [Hc| ->]; [|apply orb_true_r].
    apply orb_true_iff. left. apply Z.ltb_lt. lia.
Qed.

Lemma recordSent_then_isAlreadySent_witness :
  match recordSent 1700000000000 ∅ "@Ivan_Dev" "42" with
  | Some h' => isAlreadySent h' " ivan_dev " = true
  | None => isAlreadySent ∅ " ivan_dev " = false
  end
  /\ (recordSent 1700000000000 ∅ "@Ivan_Dev" "42" = None
      <-> readsInherited ∅ "@Ivan_Dev").
Proof.
  apply (recordSent_then_isAlreadySent 1700000000000 ∅ "@Ivan_Dev"
           " ivan_dev " "42").
  - reflexivity.
  - intros e He. rewrite lookup_empty in He. discriminate.
Defined.

(** The two keys for which a new history throws. *)
Example recordSent_inherited_names :
  recordSent 1700000000000 ∅ "@Constructor" "42" = None
  /\ recordSent 1700000000000 ∅ "__proto__" "42" = None
  /\ isAlreadySent ∅ "constructor" = false
  /\ getSentInfo ∅ "constructor" = Some Inherited.
Proof. vm_compute. auto. Qed.

(** X15. When [recordSent] returns it has touched one entry: what the
    history answers for a key that normalises differently is what it
    answered before, and for the recorded key the count is one more
    than before, the message id is added at the end and the first send
    time is kept.  When it throws, the key reads an inherited object,
    which is what [getSentInfo] returns for it. *)
Theorem recordSent_touches_one_entry
    (now : Z) (h : gmap string Entry) (k k' m : string) :
  match recordSent now h k m with
  | Some h' =>
      getSentInfo h' k'
      = if decide (normalizeContactKey k' = normalizeContactKey k)
        then Some (Own (recorded now (h !! normalizeContactKey k) m))
        else getSentInfo h k'
  | None =>
      readsInherited h k /\ getSentInfo h k = Some Inherited
  end.
Proof.
  destruct (recordSent_cases now h k m) as [[Hin ->]|[Hown ->]].
  - split; [exact Hin|]. now apply (readsInherited_not_sent h k k).
  - unfold getSentInfo, read.
    destruct (decide (normalizeContactKey k' = normalizeContactKey k))
      as [->|Hne].
    + now rewrite lookup_insert_eq.
    + rewrite lookup_insert_ne by congruence. reflexivity.
Qed.

Lemma sumCounts_insert (h : gmap string Entry) i e :
  h !! i = None -> sumCounts (<[i := e]> h) = sumCounts h + count e.
Proof.
  intros Hi. unfold sumCounts.
  rewrite map_fold_insert_L; [reflexivity| |exact Hi].
  intros. lia.
Qed.

Lemma sumCounts_update (h : gmap string Entry) i e e' :
  h !! i = Some e ->
  sumCounts (<[i := e']> h) = sumCounts h - count e + count e'.
Proof.
  intros Hi.
  rewrite <- (insert_delete_eq h), sumCounts_insert
    by apply lookup_delete_eq.
  rewrite <- (insert_delete_id h i e Hi) at 2.
  rewrite sumCounts_insert by apply lookup_delete_eq. lia.
Qed.

(** X16. In the statistics of the history, a [recordSent] that returns
    adds one to [totalMessages]; [uniqueContacts] grows by one when the
    history had no entry for the key and stays when it had one.  A
    [recordSent] that throws (the key reads an inherited object) leaves
    the history, and so its statistics, as they were. *)
Theorem recordSent_counts_one_message
    (now : Z) (h : gmap string Entry) (k m : string) :
  match recordSent now h k m with
  | Some h' =>
      totalMessages (getStats h') = totalMessages (getStats h) + 1
      /\ uniqueContacts (getStats h')
         = uniqueContacts (getStats h)
           + match h !! normalizeContactKey k with
             | Some _ => 0
             | None => 1
             end
  | None => readsInherited h k
  end.
Proof.
  destruct (recordSent_cases now h k m) as [[Hin ->]|[Hown ->]];
    [exact Hin|].
  unfold getStats. cbn [totalMessages uniqueContacts].
  destruct (h !! normalizeContactKey k) as [e|] eqn:He.
  - rewrite (sumCounts_update _ _ e) by exact He.
    rewrite map_size_insert_Some by eauto. cbn [recorded count]. lia.
  - rewrite sumCounts_insert by exact He.
    rewrite map_size_insert_None by exact He. cbn [recorded count]. lia.
Qed.
End SentHistoryFacts.

(** ** Waiting for the work window; workdays; the checkpoint *)

Section WindowWait.
Import SenderTime SenderClock.

(** X17. For a window whose start and end are clock times (hours 0 to
    23, minutes 0 to 59): outside the work window,
    [getTimeUntilNextWindowOpen] gives a wait of at most one day that
    ends exactly on the window's start, today's or tomorrow's. *)
Theorem wait_ends_on_window_start
    (window : Window) (nowMs h m he me : Z) :
  part (start window) 0 = Some h ->
  part (start window) 1 = Some m ->
  part (end_ window) 0 = Some he ->
  part (end_ window) 1 = Some me ->
  0 <= h <= 23 /\ 0 <= m <= 59 ->
  0 <= he <= 23 /\ 0 <= me <= 59 ->
  0 <= nowMs < msPerDay ->
  isInWorkWindow window nowMs = false ->
  let s := h * msPerHour + m * msPerMinute in
  exists t,
    getTimeUntilNextWindowOpen window nowMs = Some t
    /\ 0 <= t <= msPerDay
    /\ (nowMs + t = s \/ nowMs + t = s + msPerDay).
Proof.
  intros Hh Hm Hhe Hme Hs He Hnow Hout s.
  unfold isInWorkWindow, getTimeUntilNextWindowOpen in *.
  rewrite Hh, Hm, Hhe, Hme in *.
  unfold atHourMinute, isAfter, isBefore, addDay in *.
  cbn [fmap option_fmap option_map] in *.
  unfold msPerDay, msPerHour, msPerMinute in *. fold s in Hout |- *.
  assert (0 <= s < 86400000) as Hrange by (subst s; lia).
  set (e := he * 3600000 + me * 60000) in *. clearbody s e.
  destruct (Z.ltb_spec e s) as [Hwrap|Hday].
  - apply orb_false_iff in Hout as [H1 H2].
    apply Z.ltb_ge in H1, H2.
    destruct (Z.ltb_spec nowMs e) as [?|_]; [lia|].
    exists (Z.max 0 (s - nowMs)). cbn. split; [reflexivity|]. lia.
  - destruct (Z.ltb_spec nowMs s) as [Hbefore|Hafter].
    + exists (Z.max 0 (s - nowMs)). cbn. split; [reflexivity|]. lia.
    + exists (Z.max 0 (s + 86400000 - nowMs)). cbn.
      split; [reflexivity|]. lia.
Qed.

Lemma wait_ends_on_window_start_witness :
  exists t,
    getTimeUntilNextWindowOpen overnight (timeOfDay 12 0 0 0) = Some t
    /\ 0 <= t <= msPerDay
    /\ (timeOfDay 12 0 0 0 + t = 22 * msPerHour + 0 * msPerMinute
        \/ timeOfDay 12 0 0 0 + t
           = 22 * msPerHour + 0 * msPerMinute + msPerDay).
Proof.
  apply (wait_ends_on_window_start overnight (timeOfDay 12 0 0 0)
           22 0 6 0); try reflexivity; try lia.
  vm_compute. split; congruence.
Defined.

(** A prefix [0x] makes [parseInt] read the hour as a hexadecimal
    number: this window opens at 16:00. *)
Example hexadecimal_hour :
  part "0x10:30" 0 = Some 16
  /\ getTimeUntilNextWindowOpen
       {| start := "0x10:00"; end_ := "0x16:00" |} (timeOfDay 10 0 0 0)
     = Some (6 * msPerHour).
Proof. vm_compute. auto. Qed.

Lemma day_add (date j : Z) : day (date + j) = (day date + j) mod 7.
Proof.
  unfold day. rewrite Z.add_mod_idemp_l by lia. f_equal. lia.
Qed.

Lemma day_range (date : Z) : 0 <= day date < 7.
Proof. unfold day. apply Z.mod_pos_bound. lia. Qed.

(** X18. [getNextWorkday] always returns: a day one to three days after
    the given one that is not a Saturday or Sunday, every day skipped
    on the way being one. *)
Theorem next_workday_within_three_days (from : Z) :
  exists k,
    1 <= k <= 3
    /\ getNextWorkday from = Some (from + k)
    /\ isWorkday (from + k) = true
    /\ forall j, 1 <= j < k -> isWeekend (from + j) = true.
Proof.
  pose proof (day_range from) as Hr.
  unfold getNextWorkday, isWorkday, isWeekend.
  assert (forall j, day (from + 1 + j) = (day from + (1 + j)) mod 7) as Hd.
  { intros j. rewrite <- day_add. f_equal. lia. }
  pose proof (day_add from 1) as H1.
  pose proof (day_add from 2) as H2.
  pose proof (day_add from 3) as H3.
  assert (day from = 0 \/ day from = 1 \/ day from = 2 \/ day from = 3
          \/ day from = 4 \/ day from = 5 \/ day from = 6) as Hcases by lia.
  destruct Hcases as [E|[E|[E|[E|[E|[E|E]]]]]]; rewrite E in *.
  1-5: exists 1; cbn [skipWeekend]; unfold isWorkday, isWeekend;
       rewrite H1; cbn; repeat split; try lia.
  - exists 3. cbn [skipWeekend]. unfold isWorkday, isWeekend.
    replace (from + 1 + 1) with (from + 2) by lia.
    replace (from + 2 + 1) with (from + 3) by lia.
    rewrite H1, H2, H3. cbn. repeat split; try lia.
    intros j Hj. assert (j = 1 \/ j = 2) as [-> | ->] by lia;
      [rewrite H1|rewrite H2]; reflexivity.
  - exists 2. cbn [skipWeekend]. unfold isWorkday, isWeekend.
    replace (from + 1 + 1) with (from + 2) by lia.
    rewrite H1, H2. cbn. repeat split; try lia.
    intros j Hj. assert (j = 1) as -> by lia. now rewrite H1.
Qed.
End WindowWait.

Section CheckpointFacts.
Import Checkpoints.

Lemma updateProgress_floor (m : CheckpointManager) (u : string * bool) :
  let c := Send.processed_count (memory m) in
  let d := Send.processed_count (onDisk m) in
  5 * (c / 5) <= d <= c ->
  let m' := updateProgress m u in
  Send.processed_count (memory m') = c + 1
  /\ 5 * (Send.processed_count (memory m') / 5)
     <= Send.processed_count (onDisk m')
     <= Send.processed_count (memory m').
Proof.
  intros c d Hinv m'. subst m'. unfold updateProgress, saveInterval.
  cbn [memory onDisk Send.updateProgress Send.processed_count]. fold c d.
  split; [reflexivity|].
  pose proof (Z.div_mod c 5 ltac:(lia)).
  pose proof (Z.mod_pos_bound c 5 ltac:(lia)).
  pose proof (Z.div_mod (c + 1) 5 ltac:(lia)).
  pose proof (Z.mod_pos_bound (c + 1) 5 ltac:(lia)).
  destruct (Z.eqb_spec (Z.rem (c + 1) 5) 0) as [Hsave|Hkeep].
  - cbn [Send.processed_count].
    assert ((c + 1) mod 5 = 0) as Hmod.
    { apply Z.mod_divide; [lia|]. apply Z.rem_divide; [lia|exact Hsave]. }
    unfold Send.updateProgress. cbn [Send.processed_count]. fold c. lia.
  - fold d.
    assert ((c + 1) mod 5 <> 0) as Hmod.
    { intros Hz. apply Hkeep. apply Z.rem_divide; [lia|].
      apply Z.mod_divide; [lia|exact Hz]. }
    assert ((c + 1) / 5 = c / 5) by lia. lia.
Qed.

(** X19. Starting from a checkpoint that is on disk as it is in memory,
    after any number of [updateProgress] calls the count in memory is
    the old count plus the number of calls, and the count on disk is
    behind it by at most four. *)
Theorem checkpoint_on_disk_lags_at_most_four
    (m : CheckpointManager) (updates : list (string * bool)) :
  Send.processed_count (onDisk m) = Send.processed_count (memory m) ->
  let m' := fold_left updateProgress updates m in
  Send.processed_count (memory m')
  = Send.processed_count (memory m) + Z.of_nat (length updates)
  /\ 0 <= lag m' <= 4.
Proof.
  intros Hsync.
  assert (forall us m0,
             5 * (Send.processed_count (memory m0) / 5)
             <= Send.processed_count (onDisk m0)
             <= Send.processed_count (memory m0) ->
             let m1 := fold_left updateProgress us m0 in
             Send.processed_count (memory m1)
             = Send.processed_count (memory m0) + Z.of_nat (length us)
             /\ 5 * (Send.processed_count (memory m1) / 5)
                <= Send.processed_count (onDisk m1)
                <= Send.processed_count (memory m1)) as Hgen.
  { induction us as [|u us IH]; intros m0 H0; cbn [fold_left length].
    - split; [lia|exact H0].
    - destruct (updateProgress_floor m0 u H0) as [Hc Hinv].
      destruct (IH _ Hinv) as [Hc' Hinv']. split; [lia|exact Hinv']. }
  intros m'. subst m'.
  destruct (Hgen updates m) as [Hc Hinv].
  { pose proof (Z.div_mod (Send.processed_count (memory m)) 5 ltac:(lia)).
    pose proof (Z.mod_pos_bound (Send.processed_count (memory m)) 5
                  ltac:(lia)). lia. }
  split; [exact Hc|]. unfold lag.
  pose proof (Z.div_mod (Send.processed_count
                           (memory (fold_left updateProgress updates m))) 5
                ltac:(lia)).
  pose proof (Z.mod_pos_bound (Send.processed_count
                                 (memory (fold_left updateProgress updates m)))
                5 ltac:(lia)).
  lia.
Qed.

Lemma checkpoint_on_disk_lags_at_most_four_witness :
  let m' := fold_left updateProgress
              [("a", true); ("b", false); ("c", true); ("d", true);
               ("e", true); ("f", true); ("g", false)] newCheckpoint in
  Send.processed_count (memory m')
  = Send.processed_count (memory newCheckpoint) + Z.of_nat 7
  /\ 0 <= lag m' <= 4.
Proof.
  apply (checkpoint_on_disk_lags_at_most_four newCheckpoint
           [("a", true); ("b", false); ("c", true); ("d", true);
            ("e", true); ("f", true); ("g", false)]).
  reflexivity.
Defined.
End CheckpointFacts.

(** ** The contact ledger: lookups, updates, the sending order *)

Section LedgerFacts.
Import JsonDb DedupeCheck.

Lemma insertBySentAt_In (x y : Contact) (l : list Contact) :
  In y (insertBySentAt x l) <-> y = x \/ In y l.
Proof.
  induction l as [|z l IH]; cbn [insertBySentAt].
  - cbn. intuition congruence.
  - destruct (sentAtMs x <=? sentAtMs z); cbn [In]; [intuition congruence|].
    rewrite IH. intuition congruence.
Qed.

Lemma sortBySentAt_In (y : Contact) (l : list Contact) :
  In y (sortBySentAt l) <-> In y l.
Proof.
  induction l as [|x l IH]; cbn [sortBySentAt In]; [easy|].
  rewrite insertBySentAt_In, IH. intuition congruence.
Qed.

Lemma insertBySentAt_sorted (x : Contact) (l : list Contact) :
  StronglySorted olderOrEqual l ->
  StronglySorted olderOrEqual (insertBySentAt x l).
Proof.
  induction 1 as [|z l Hl IH Hz]; cbn [insertBySentAt].
  - repeat constructor.
  - destruct (Z.leb_spec (sentAtMs x) (sentAtMs z)) as [Hle|Hgt].
    + constructor; [constructor; assumption|].
      constructor; [exact Hle|].
      rewrite List.Forall_forall in Hz. apply List.Forall_forall.
      intros y Hy. specialize (Hz y Hy). unfold olderOrEqual in *. lia.
    + constructor; [exact IH|]. apply List.Forall_forall. intros y Hy.
      apply insertBySentAt_In in Hy as [->|Hy];
        [unfold olderOrEqual; lia|].
      rewrite List.Forall_forall in Hz. now apply Hz.
Qed.

Lemma sortBySentAt_sorted (l : list Contact) :
  StronglySorted olderOrEqual (sortBySentAt l).
Proof.
  induction l as [|x l IH]; cbn [sortBySentAt]; [constructor|].
  now apply insertBySentAt_sorted.
Qed.

Lemma sorted_lookup (l : list Contact) :
  StronglySorted olderOrEqual l ->
  forall (i j : nat) (a b : Contact),
    (i < j)%nat -> l !! i = Some a -> l !! j = Some b ->
    sentAtMs a <= sentAtMs b.
Proof.
  induction 1 as [|z l Hl IH Hz]; intros i j a b Hij Ha Hb;
    [now rewrite lookup_nil in Ha|].
  destruct j as [|j]; [lia|]. cbn in Hb.
  destruct i as [|i]; cbn in Ha.
  - injection Ha as ->. rewrite List.Forall_forall in Hz. apply Hz.
    apply list_elem_of_In. eapply list_elem_of_lookup_2. exact Hb.
  - eapply IH; [|exact Ha|exact Hb]. lia.
Qed.

Lemma In_batch (c : Contact) (n m : nat) (l : list Contact) :
  In c (take n (drop m l)) -> In c l.
Proof.
  intros H. apply list_elem_of_In. apply list_elem_of_In in H.
  eapply elem_of_sublist; [exact H|].
  etransitivity; [apply sublist_take|apply sublist_drop].
Qed.

Lemma In_slice (c : Contact) (start end_ : Z) (l : list Contact) :
  In c (JsArray.slice start end_ l) -> In c l.
Proof. unfold JsArray.slice. apply In_batch. Qed.

Lemma slice_head {A} (end_ : Z) (l : list A) (c : A) (rest : list A) :
  JsArray.slice 0 end_ l = c :: rest -> exists t, l = c :: t.
Proof.
  unfold JsArray.slice, JsArray.relIndex.
  change (0 <? 0) with false. cbv iota.
  replace (Z.min 0 (Z.of_nat (length l))) with 0 by lia.
  change (Z.to_nat 0) with 0%nat. rewrite drop_0.
  destruct l as [|x t]; [now rewrite take_nil|].
  destruct (Z.to_nat _) as [|n]; [discriminate|].
  cbn [take]. intros [= -> _]. now exists t.
Qed.

Lemma slice_head_positive {A} (end_ : Z) (c : A) (t : list A) :
  1 <= end_ -> exists rest, JsArray.slice 0 end_ (c :: t) = c :: rest.
Proof.
  intros He. unfold JsArray.slice, JsArray.relIndex.
  change (0 <? 0) with false. cbv iota.
  replace (Z.min 0 (Z.of_nat (length (c :: t)))) with 0 by lia.
  change (Z.to_nat 0) with 0%nat. rewrite drop_0.
  destruct (Z.ltb_spec end_ 0) as [?|_]; [lia|].
  destruct (Z.to_nat (Z.min end_ (Z.of_nat (length (c :: t))) - 0))
    as [|n] eqn:En; [cbn [length] in En; lia|].
  cbn [take]. eexists. reflexivity.
Qed.

Lemma isPending_status (c : Contact) :
  isPending c = true -> status c = pending.
Proof. unfold isPending. now destruct (status c). Qed.

Lemma getContactsForSending_pending
    (db : Database) (limit offset : Z) (c : Contact) :
  In c (getContactsForSending db limit offset) ->
  In c (contacts db) /\ status c = pending.
Proof.
  unfold getContactsForSending. intros Hc.
  apply In_slice, sortBySentAt_In, filter_In in Hc.
  destruct Hc as [Hin Hp]. split; [exact Hin|].
  now apply isPending_status.
Qed.

(** X20. What [getContactsForSending] hands out, whatever the limit
    and the offset: only records of the ledger whose status is pending,
    the one queued earlier before the one queued later; and no more of
    them than the limit when the limit is not negative (a negative one
    is read by [slice] as a position counted from the end). *)
Theorem getContactsForSending_pending_oldest_first
    (db : Database) (limit offset : Z) :
  let batch := getContactsForSending db limit offset in
  (forall c, In c batch -> In c (contacts db) /\ status c = pending)
  /\ (0 <= limit -> Z.of_nat (length batch) <= limit)
  /\ (forall (i j : nat) (a b : Contact),
         (i < j)%nat -> batch !! i = Some a -> batch !! j = Some b ->
         sentAtMs a <= sentAtMs b).
Proof.
  cbn zeta. split; [|split].
  - intros c. apply getContactsForSending_pending.
  - intros Hlimit. unfold getContactsForSending, JsArray.slice.
    rewrite length_take. unfold JsArray.relIndex.
    set (len := Z.of_nat (length (sortBySentAt _))).
    assert (0 <= len) by (subst len; lia).
    destruct (Z.ltb_spec offset 0); destruct (Z.ltb_spec (offset + limit) 0);
      lia.
  - unfold getContactsForSending, JsArray.slice. intros i j a b Hij Ha Hb.
    apply lookup_take_Some in Ha as [Ha _].
    apply lookup_take_Some in Hb as [Hb _].
    rewrite lookup_drop in Ha, Hb.
    eapply (sorted_lookup _ (sortBySentAt_sorted _));
      [|exact Ha|exact Hb]. lia.
Qed.

Lemma getContactsForSending_pending_oldest_first_witness :
  let batch := getContactsForSending threeQueued 2 0 in
  batch = [queuedAt "early" pending 200; queuedAt "twin" pending 200]
  /\ Z.of_nat (length batch) <= 2.
Proof.
  split; [reflexivity|].
  apply (proj1 (proj2 (getContactsForSending_pending_oldest_first
                         threeQueued 2 0))).
  lia.
Defined.

(** With limit -1 the batch is all the pending records but the last. *)
Example getContactsForSending_negative_limit :
  getContactsForSending threeQueued (-1) 0
  = [queuedAt "early" pending 200; queuedAt "twin" pending 200]
  /\ getContactsForSending threeQueued 10 (-1)
     = [queuedAt "late" pending 300].
Proof. vm_compute. auto. Qed.

Lemma sortBySentAt_head (l : list Contact) :
  forall h t, sortBySentAt l = h :: t ->
  exists pre post,
    l = pre ++ h :: post
    /\ (forall x, In x pre -> sentAtMs h < sentAtMs x)
    /\ (forall x, In x post -> sentAtMs h <= sentAtMs x).
Proof.
  induction l as [|x l IH]; intros h t Hs; [discriminate|].
  cbn [sortBySentAt] in Hs.
  destruct (sortBySentAt l) as [|y s] eqn:Hl.
  - destruct l as [|z l].
    + cbn in Hs. injection Hs as <- <-. exists [], []. cbn. easy.
    + assert (In z (sortBySentAt (z :: l))) as Hz
          by (apply sortBySentAt_In; now left).
      rewrite Hl in Hz. destruct Hz.
  - destruct (IH y s eq_refl) as (pre & post & -> & Hpre & Hpost).
    cbn [insertBySentAt] in Hs.
    destruct (Z.leb_spec (sentAtMs x) (sentAtMs y)) as [Hle|Hgt].
    + injection Hs as <- <-. exists [], (pre ++ y :: post).
      split; [reflexivity|]. split; [intros ? []|].
      intros z Hz. apply in_app_or in Hz as [Hz|[<-|Hz]].
      * specialize (Hpre z Hz). lia.
      * exact Hle.
      * specialize (Hpost z Hz). lia.
    + injection Hs as <- <-. exists (x :: pre), post.
      split; [reflexivity|]. split; [|exact Hpost].
      intros z [<-|Hz]; [lia|now apply Hpre].
Qed.

(** X21. The contact at the head of the batch, the one the sender takes
    next, is the pending record queued earliest; of several queued at
    the same instant it is the one that comes first in the ledger. *)
Theorem next_contact_is_oldest_pending
    (db : Database) (limit : Z) (c : Contact) (rest : list Contact) :
  getContactsForSending db limit 0 = c :: rest ->
  exists pre post,
    List.filter isPending (contacts db) = pre ++ c :: post
    /\ (forall x, In x pre -> sentAtMs c < sentAtMs x)
    /\ (forall x, In x post -> sentAtMs c <= sentAtMs x).
Proof.
  unfold getContactsForSending. intros H.
  apply slice_head in H as [t Hs].
  now apply sortBySentAt_head in Hs.
Qed.

Lemma next_contact_is_oldest_pending_witness :
  exists pre post,
    List.filter isPending (contacts threeQueued)
    = pre ++ queuedAt "early" pending 200 :: post
    /\ (forall x, In x pre -> sentAtMs (queuedAt "early" pending 200)
                              < sentAtMs x)
    /\ (forall x, In x post -> sentAtMs (queuedAt "early" pending 200)
                               <= sentAtMs x).
Proof.
  apply (next_contact_is_oldest_pending threeQueued 10
           (queuedAt "early" pending 200)
           [queuedAt "twin" pending 200; queuedAt "late" pending 300]).
  reflexivity.
Defined.

Lemma find_insert_other (k : string) (c c' : Contact) (l : list Contact) :
  forall i, l !! i = Some c ->
  hasKey k c = false -> hasKey k c' = false ->
  List.find (hasKey k) (<[i := c']> l) = List.find (hasKey k) l.
Proof.
  induction l as [|y l IH]; intros i Hi Hc Hc'; [reflexivity|].
  destruct i as [|i]; cbn in Hi |- *.
  - injection Hi as ->. now rewrite Hc, Hc'.
  - destruct (hasKey k y); [reflexivity|]. now apply IH.
Qed.

Lemma hasKey_other (k k' : string) (c : Contact) :
  k' <> k -> hasKey k c = true -> hasKey k' c = false.
Proof.
  unfold hasKey. intros Hne H. apply String.eqb_eq in H.
  apply String.eqb_neq. congruence.
Qed.

Lemma updateContactStatus_found
    (now : Z) (db : Database) (k : string) (st : Status)
    (r : option string) (c : Contact) :
  findContactByKey db k = Some c ->
  let c' := withStatus st (orNull r)
              (match st with sent => Some now | _ => sent_at c end) c in
  exists i,
    list_find (fun x => hasKey k x = true) (contacts db) = Some (i, c)
    /\ updateContactStatus now db k st r
       = (Some c', {| contacts := <[i := c']> (contacts db);
                      stats := bumpStats st (stats db) |})
    /\ findContactByKey (snd (updateContactStatus now db k st r)) k
       = Some c'.
Proof.
  intros Hfind c'. unfold findContactByKey, updateContactStatus in *.
  pose proof (find_some _ _ Hfind) as [_ Hk].
  assert (hasKey k c' = true) as Hk' by exact Hk.
  destruct (find_update_first k c' c (contacts db) Hfind Hk')
    as (i & Hi & Hins).
  exists i. rewrite Hi. cbn [snd contacts]. fold c'. now repeat split.
Qed.

Lemma In_find (k : string) (c : Contact) (l : list Contact) :
  In c l -> contact_key c = k ->
  exists c0, List.find (hasKey k) l = Some c0.
Proof.
  intros Hin Hk. destruct (List.find (hasKey k) l) as [c0|] eqn:Hf;
    [now exists c0|].
  assert (hasKey k c = false) as Hn
      by (eapply find_none; [exact Hf|exact Hin]).
  unfold hasKey in Hn. rewrite Hk, String.eqb_refl in Hn. discriminate.
Qed.

(** X22. [updateContactStatus] on a key no record carries returns null
    and leaves the ledger as it was.  Otherwise it returns the first
    record with the key, with the new status and reason (and the
    current time as [sent_at] when the status is sent); a lookup of the
    key then finds that record, the ledger keeps its length, and the
    lookup of every other key is unchanged. *)
Theorem updateContactStatus_then_find
    (now : Z) (db : Database) (k : string) (st : Status)
    (r : option string) :
  match findContactByKey db k with
  | None => updateContactStatus now db k st r = (None, db)
  | Some c =>
      let c' := withStatus st (orNull r)
                  (match st with sent => Some now | _ => sent_at c end) c in
      let db' := snd (updateContactStatus now db k st r) in
      fst (updateContactStatus now db k st r) = Some c'
      /\ findContactByKey db' k = Some c'
      /\ length (contacts db') = length (contacts db)
      /\ forall k', k' <> k ->
           findContactByKey db' k' = findContactByKey db k'
  end.
Proof.
  destruct (findContactByKey db k) as [c|] eqn:Hfind.
  - cbn zeta.
    destruct (updateContactStatus_found now db k st r c Hfind)
      as (i & Hi & Hupd & Hround).
    split; [now rewrite Hupd|]. split; [exact Hround|].
    rewrite Hupd. cbn [snd contacts].
    split; [apply length_insert|].
    intros k' Hne. apply list_find_Some in Hi as (Hi & Hk & _).
    unfold findContactByKey. cbn [contacts].
    apply (find_insert_other k' c _ _ i Hi);
      now apply (hasKey_other k).
  - unfold findContactByKey in Hfind. unfold updateContactStatus.
    apply find_list_find in Hfind. now rewrite Hfind.
Qed.

Lemma find_app_some {A} (f : A -> bool) (l l' : list A) (x : A) :
  List.find f l = Some x -> List.find f (l ++ l') = Some x.
Proof.
  induction l as [|y l IH]; cbn; [discriminate|].
  destruct (f y); [easy|exact IH].
Qed.

Lemma find_app_miss {A} (f : A -> bool) (l : list A) (x : A) :
  f x = false -> List.find f (l ++ [x]) = List.find f l.
Proof.
  intros Hx. induction l as [|y l IH]; cbn; [now rewrite Hx|].
  destruct (f y); [reflexivity|exact IH].
Qed.

(** X23. [saveContact] appends and never replaces: when the ledger
    already holds a record with the key, a lookup keeps returning that
    older record; otherwise it returns the record just saved.  The
    lookup of every other key is unchanged and the total goes up by
    one. *)
Theorem saveContact_then_find (now : Z) (db : Database) (nc : NewContact) :
  let saved := fst (saveContact now db nc) in
  let db' := snd (saveContact now db nc) in
  findContactByKey db' (new_contact_key nc)
  = Some (match findContactByKey db (new_contact_key nc) with
          | Some older => older
          | None => saved
          end)
  /\ (forall k, k <> new_contact_key nc ->
                findContactByKey db' k = findContactByKey db k)
  /\ total (stats db') = total (stats db) + 1.
Proof.
  unfold saveContact, findContactByKey. cbn [fst snd contacts stats].
  split; [|split].
  - destruct (List.find (hasKey (new_contact_key nc)) (contacts db))
      as [older|] eqn:Hfind.
    + now apply find_app_some.
    + rewrite find_app_none by exact Hfind.
      unfold hasKey. cbn [contact_key]. now rewrite String.eqb_refl.
  - intros k Hne. apply find_app_miss. unfold hasKey. cbn [contact_key].
    apply String.eqb_neq. congruence.
  - reflexivity.
Qed.

Lemma failed_not_settled (c : Contact) :
  isFailed c = true -> isSettled c = false.
Proof. unfold isFailed, isSettled. now destruct (status c). Qed.

Lemma requeueFrom_settled (limit : Z) (rest : list Contact) :
  forall updated removed,
    List.filter isSettled (fst (fst (requeueFrom limit updated removed rest)))
    = List.filter isSettled rest.
Proof.
  induction rest as [rest IH] using list_length_ind.
  intros updated removed. destruct rest as [|c rest']; [reflexivity|].
  cbn [requeueFrom].
  destruct (limit <=? updated); [reflexivity|].
  destruct (isFailed c) eqn:Hf.
  - pose proof (failed_not_settled c Hf) as Hs.
    destruct (isPermanentFailure c).
    + destruct rest' as [|d rest'']; cbn [List.filter]; rewrite Hs;
        [reflexivity|].
      specialize (IH rest'' ltac:(cbn; lia) updated (removed + 1)).
      destruct (requeueFrom limit updated (removed + 1) rest'')
        as [[out u] r'].
      cbn [fst List.filter] in *. now rewrite IH.
    + specialize (IH rest' ltac:(cbn; lia) (updated + 1) removed).
      destruct (requeueFrom limit (updated + 1) removed rest')
        as [[out u] r'].
      cbn [fst List.filter] in *. rewrite Hs, IH. reflexivity.
  - specialize (IH rest' ltac:(cbn; lia) updated removed).
    destruct (requeueFrom limit updated removed rest') as [[out u] r'].
    cbn [fst List.filter] in *. now rewrite IH.
Qed.

(** X24. [requeueFailed] never touches what is settled: the records
    with status sent or skipped are the same after the pass, in the
    same order, whatever the limit; the counters are left alone. *)
Theorem requeueFailed_keeps_settled (db : Database) (limit : Z) :
  List.filter isSettled (contacts (after (requeueFailed db limit)))
  = List.filter isSettled (contacts db)
  /\ stats (after (requeueFailed db limit)) = stats db.
Proof.
  rewrite requeueFailed_from.
  pose proof (requeueFrom_settled limit (contacts db) 0 0) as H.
  destruct (requeueFrom limit 0 0 (contacts db)) as [[out u] r].
  cbn [fst after contacts stats] in *. now split.
Qed.
End LedgerFacts.

(** ** Registration seen by the duplicate check *)

Section RegisterThenCheck.
Import JsonDb Dedupe DedupeCheck Keys.

(** X25. Once [registerContact] has been called for a contact,
    [checkDuplicate] reports the same contact (under any spelling with
    the same normalised key) as a duplicate, names the record that
    [registerContact] returned, and gives that record's status in the
    reason. *)
Theorem checkDuplicate_after_registerContact
    (now : Z) (d : ContactDeduper) (k k' : string) (peer : Z)
    (msg text : string) (user : option Z) (descr : option string) :
  dedupKey (dedupeConfig d) k' = dedupKey (dedupeConfig d) k ->
  let saved := fst (registerContact now d k peer msg text user descr) in
  let d' := snd (registerContact now d k peer msg text user descr) in
  checkDuplicate d' k'
  = {| isDuplicate := true;
       existingContact := Some saved;
       reason := Some (alreadyExists ++ statusName (status saved))%string |}.
Proof.
  intros Hk saved d'. subst saved d'.
  assert (forall dd : ContactDeduper, forall c,
             dedupeConfig dd = dedupeConfig d ->
             findContactByKey (db dd) (dedupKey (dedupeConfig d) k) = Some c ->
             checkDuplicate dd k'
             = {| isDuplicate := true; existingContact := Some c;
                  reason := Some (alreadyExists
                                    ++ statusName (status c))%string |})
    as Hcheck.
  { intros dd c Hcfg Hfind. unfold checkDuplicate.
    unfold dedupKey in Hk, Hfind. rewrite Hcfg, Hk, Hfind. reflexivity. }
  destruct (findContactByKey (db d) (dedupKey (dedupeConfig d) k))
    as [e|] eqn:Hfind.
  - rewrite (registerContact_known now d k peer msg text user descr e Hfind).
    cbn [fst snd]. now apply Hcheck.
  - destruct (registerContact_fresh now d k peer msg text user descr Hfind)
      as (r & Heq & Hkey & _).
    rewrite Heq. cbn [fst snd]. apply Hcheck; [reflexivity|].
    unfold findContactByKey in *. cbn [withDb db contacts].
    rewrite find_app_none by exact Hfind.
    now rewrite (hasKey_refl _ _ Hkey).
Qed.

Lemma checkDuplicate_after_registerContact_witness :
  checkDuplicate
    (snd (registerContact 1700000000000 emptyDeduper "@Ivan_Dev" 5 "42"
            "hello" None None)) " ivan_dev"
  = {| isDuplicate := true;
       existingContact :=
         Some (fst (registerContact 1700000000000 emptyDeduper "@Ivan_Dev"
                      5 "42" "hello" None None));
       reason :=
         Some (alreadyExists
                 ++ statusName
                      (status (fst (registerContact 1700000000000
                                      emptyDeduper "@Ivan_Dev" 5 "42"
                                      "hello" None None))))%string |}.
Proof.
  apply (checkDuplicate_after_registerContact 1700000000000 emptyDeduper
           "@Ivan_Dev" " ivan_dev" 5 "42" "hello" None None).
  reflexivity.
Defined.
End RegisterThenCheck.

(** ** One cycle of the sender: what reaches the delivery client *)

Section CycleSafety.
Import JsonDb Send SendTasks Keys.

Variable composeMessage : LeadContext -> outcome string.
Variable getUserInfo : string -> outcome bool.
Variable sendMessage : string -> string -> outcome SendResult.
Variable now : Z.

Lemma countSends_report (evs : list Event) (r : Report) :
  countSends (evs ++ [EvSendReport r]) = countSends evs.
Proof.
  unfold countSends. rewrite List.filter_app, length_app. cbn. lia.
Qed.

Lemma In_report (evs : list Event) (r : Report) (k text : string) :
  In (EvSendMessage k text) (evs ++ [EvSendReport r]) ->
  In (EvSendMessage k text) evs.
Proof.
  intros H. apply in_app_or in H as [H|[H|[]]]; [exact H|discriminate].
Qed.

(** [sendToContact] calls the delivery client once at most, and only
    past the Sent History test and a positive answer to [getUserInfo]. *)
Lemma sendToContact_calls (s : OutreachSender) (c : Contact) :
  forall result s' evs,
    sendToContact composeMessage getUserInfo sendMessage now s c
      = (result, s', evs) ->
    (countSends evs <= 1)%nat
    /\ forall k text, In (EvSendMessage k text) evs ->
         k = contact_key c
         /\ SentHistory.isAlreadySent (sentHistory s) k = false
         /\ getUserInfo k = Ok true
         /\ exists ctx, composeMessage ctx = Ok text.
Proof.
  intros result s' evs. unfold sendToContact.
  destruct (SentHistory.isAlreadySent (sentHistory s) (contact_key c))
    eqn:Hsent.
  { intros [= <- <- <-]. split; [cbn; lia|intros ? ? []]. }
  destruct (lead_description c) as [d|].
  2:{ intros [= <- <- <-]. split; [cbn; lia|intros ? ? []]. }
  destruct (composeMessage _) as [text0|m] eqn:Hcompose.
  2:{ intros [= <- <- <-]. split; [cbn; lia|].
      intros k text [H|[]]. discriminate. }
  destruct (getUserInfo (contact_key c)) as [[|]|m] eqn:Huser.
  2,3: intros [= <- <- <-]; (split; [cbn; lia|]);
       intros k text [H|[H|[]]]; discriminate.
  assert (forall k text,
             In (EvSendMessage k text)
               [EvCompose
                  {| description :=
                       if JsString.isEmpty d then defaultLeadDescription
                       else d;
                     lc_contactKey := contact_key c;
                     lc_sourceMessageId := source_message_id c |};
                EvGetUserInfo (contact_key c);
                EvSendMessage (contact_key c) text0] ->
             k = contact_key c
             /\ SentHistory.isAlreadySent (sentHistory s) k = false
             /\ getUserInfo k = Ok true
             /\ exists ctx, composeMessage ctx = Ok text) as Hev.
  { intros k text [H|[H|[H|[]]]]; try discriminate.
    injection H as <- <-. repeat split; try assumption.
    eexists. exact Hcompose. }
  destruct (sendMessage (contact_key c) text0) as [res|m].
  - cbv zeta.
    destruct (if success _ then _ else _) as [h|];
      intros [= <- <- <-]; (split; [cbn; lia|exact Hev]).
  - intros [= <- <- <-]. split; [cbn; lia|exact Hev].
Qed.

(** The cycle on a state whose batch is not empty: the head of the
    batch goes through [sendToContact], a report is sent and the dedup
    layer is asked to record the outcome. *)
Lemma processNextTask_head (s : OutreachSender) (c : Contact)
    (rest : list Contact) :
  Dedupe.getContactsForSending (contactDeduper s) contactsBatchSize
    = c :: rest ->
  forall result s' evs,
    sendToContact composeMessage getUserInfo sendMessage now s c
      = (result, s', evs) ->
    let out := processNextTask composeMessage getUserInfo sendMessage now s in
    worked out = true
    /\ taken out = Some (c, result)
    /\ (exists r, trace out = evs ++ [EvSendReport r])
    /\ sender out
       = withDeduper
           (Dedupe.updateContactStatus now (contactDeduper s')
              (contact_key c)
              (if errorIs (error result) DUPLICATE_CONTACT then skipped
               else if success result then sent else failed)
              (if errorIs (error result) DUPLICATE_CONTACT
               then Some DUPLICATE_CONTACT else error result)) s'.
Proof.
  intros Hget result s' evs Hsend out. subst out.
  unfold processNextTask. rewrite Hget. cbv beta iota zeta.
  rewrite Hsend.
  destruct (errorIs (error result) DUPLICATE_CONTACT);
    cbn [worked taken trace sender]; repeat split; eauto.
Qed.

(** With an empty batch and a requeue pass that reset something, the
    cycle goes on as a cycle started on the ledger the pass left. *)
Lemma processNextTask_requeued (s : OutreachSender) (c : Contact)
    (rest : list Contact) :
  let d := contactDeduper s in
  let s' := withDeduper
              (Dedupe.withDb d
                 (after (requeueFailed (Dedupe.db d) requeueBatchSize))) s in
  Dedupe.getContactsForSending d contactsBatchSize = [] ->
  0 < returned (requeueFailed (Dedupe.db d) requeueBatchSize) ->
  Dedupe.getContactsForSending (contactDeduper s') contactsBatchSize
    = c :: rest ->
  processNextTask composeMessage getUserInfo sendMessage now s
  = processNextTask composeMessage getUserInfo sendMessage now s'.
Proof.
  intros d s' Hfirst Hpos Hsecond. subst d.
  unfold processNextTask at 1. rewrite Hfirst. cbv beta iota zeta.
  apply Z.ltb_lt in Hpos. rewrite Hpos. fold s'. rewrite Hsecond.
  unfold processNextTask. rewrite Hsecond. reflexivity.
Qed.

(** X26. Whatever the collaborators answer and whatever the ledger
    holds, one cycle calls the delivery client at most once, and then
    only for the contact it took: a record with status pending whose
    key the Sent History does not hold and for which [getUserInfo]
    answered. *)
Theorem cycle_delivers_only_to_the_taken_pending_contact
    (s : OutreachSender) :
  let out := processNextTask composeMessage getUserInfo sendMessage now s in
  (countSends (trace out) <= 1)%nat
  /\ forall k text, In (EvSendMessage k text) (trace out) ->
       exists c r,
         taken out = Some (c, r)
         /\ contact_key c = k
         /\ status c = pending
         /\ SentHistory.isAlreadySent (sentHistory s) k = false
         /\ getUserInfo k = Ok true.
Proof.
  assert (forall s1 c rest,
             sentHistory s1 = sentHistory s ->
             Dedupe.getContactsForSending (contactDeduper s1)
               contactsBatchSize = c :: rest ->
             let out := processNextTask composeMessage getUserInfo
                          sendMessage now s1 in
             (countSends (trace out) <= 1)%nat
             /\ forall k text, In (EvSendMessage k text) (trace out) ->
                  exists c r,
                    taken out = Some (c, r)
                    /\ contact_key c = k
                    /\ status c = pending
                    /\ SentHistory.isAlreadySent (sentHistory s) k = false
                    /\ getUserInfo k = Ok true) as Hhead.
  { intros s1 c rest Hh Hget out.
    destruct (sendToContact composeMessage getUserInfo sendMessage now s1 c)
      as [[result s'] evs] eqn:Hsend.
    destruct (processNextTask_head s1 c rest Hget _ _ _ Hsend)
      as (_ & Htaken & [r Htrace] & _).
    destruct (sendToContact_calls s1 c _ _ _ Hsend) as [Hcount Hev].
    subst out. rewrite Htrace, countSends_report. split; [exact Hcount|].
    intros k text Hin. apply In_report in Hin.
    destruct (Hev k text Hin) as (-> & Hsent & Huser & _).
    exists c, result. rewrite Hh in Hsent. repeat split; try assumption.
    unfold Dedupe.getContactsForSending in Hget.
    apply (getContactsForSending_pending
             (Dedupe.db (contactDeduper s1)) contactsBatchSize 0).
    rewrite Hget. now left. }
  destruct (Dedupe.getContactsForSending (contactDeduper s)
              contactsBatchSize) as [|c rest] eqn:Hfirst.
  - destruct (0 <? returned (requeueFailed
                               (Dedupe.db (contactDeduper s))
                               requeueBatchSize)) eqn:Hpos.
    + destruct (Dedupe.getContactsForSending
                  (contactDeduper
                     (withDeduper
                        (Dedupe.withDb (contactDeduper s)
                           (after (requeueFailed
                                     (Dedupe.db (contactDeduper s))
                                     requeueBatchSize))) s))
                  contactsBatchSize) as [|c rest] eqn:Hsecond.
      * unfold processNextTask. rewrite Hfirst. cbv beta iota zeta.
        rewrite Hpos, Hsecond. cbn. split; [lia|intros ? ? []].
      * apply Z.ltb_lt in Hpos. cbv zeta.
        rewrite (processNextTask_requeued s c rest Hfirst Hpos Hsecond).
        now apply (Hhead _ c rest).
    + unfold processNextTask. rewrite Hfirst. cbv beta iota zeta.
      rewrite Hpos. cbn. split; [lia|intros ? ? []].
  - now apply (Hhead s c rest).
Qed.

Lemma batch_grows (db : Database) (c : Contact) (rest : list Contact) :
  getContactsForSending db ensureTasksLimit 0 = c :: rest ->
  exists rest', getContactsForSending db contactsBatchSize 0 = c :: rest'.
Proof.
  unfold getContactsForSending, ensureTasksLimit, contactsBatchSize.
  intros H. apply slice_head in H as [t ->].
  apply slice_head_positive. lia.
Qed.

(** X27. When [ensureTasksAvailable] answers true, the cycle that
    follows on the state it left does take a contact: [processNextTask]
    answers true as well. *)
Theorem ensured_task_is_processed (s : OutreachSender) :
  fst (ensureTasksAvailable s) = true ->
  let out := processNextTask composeMessage getUserInfo sendMessage now
               (snd (ensureTasksAvailable s)) in
  worked out = true /\ exists c r, taken out = Some (c, r).
Proof.
  assert (forall s1 c rest,
             Dedupe.getContactsForSending (contactDeduper s1)
               ensureTasksLimit = c :: rest ->
             let out := processNextTask composeMessage getUserInfo
                          sendMessage now s1 in
             worked out = true /\ exists c r, taken out = Some (c, r))
    as Hhead.
  { intros s1 c rest Hget out.
    destruct (batch_grows _ _ _ Hget) as [rest' Hbatch].
    destruct (sendToContact composeMessage getUserInfo sendMessage now s1 c)
      as [[result s'] evs] eqn:Hsend.
    destruct (processNextTask_head s1 c rest' Hbatch _ _ _ Hsend)
      as (Hworked & Htaken & _).
    split; [exact Hworked|]. now exists c, result. }
  unfold ensureTasksAvailable.
  destruct (Dedupe.getContactsForSending (contactDeduper s)
              ensureTasksLimit) as [|c rest] eqn:Hfirst.
  - destruct (0 <? returned _); [|cbn [fst]; discriminate].
    set (s' := withDeduper _ s).
    destruct (Dedupe.getContactsForSending (contactDeduper s')
                ensureTasksLimit)
      as [|c rest] eqn:Hsecond; [cbn [fst]; discriminate|].
    intros _. cbn [snd]. now apply (Hhead s' c rest).
  - intros _. cbn [snd]. now apply (Hhead s c rest).
Qed.

Lemma entityNotFound_permanent (k : string) :
  matchesPermanentPattern (entityNotFound k) = true.
Proof. reflexivity. Qed.

Lemma entityNotFound_not_duplicate (k : string) :
  errorIs (Some (entityNotFound k)) DUPLICATE_CONTACT = false.
Proof. reflexivity. Qed.

Lemma head_has_record (s : OutreachSender) (c : Contact)
    (rest : list Contact) :
  Dedupe.getContactsForSending (contactDeduper s) contactsBatchSize
    = c :: rest ->
  exists c0,
    findContactByKey (Dedupe.db (contactDeduper s)) (contact_key c)
    = Some c0.
Proof.
  intros Hget. unfold Dedupe.getContactsForSending in Hget.
  destruct (getContactsForSending_pending
              (Dedupe.db (contactDeduper s)) contactsBatchSize 0 c)
    as [Hin _]; [rewrite Hget; now left|].
  now apply (In_find (contact_key c) c).
Qed.

(** What the dedup layer's [updateContactStatus] does to the ledger:
    the first record that carries the normalised key is changed, and
    nothing is when there is none. *)
Lemma dedupe_update (d : Dedupe.ContactDeduper) (k : string)
    (st : Status) (r : option string) :
  let key := dedupKey (Dedupe.dedupeConfig d) k in
  let db' := Dedupe.db (Dedupe.updateContactStatus now d k st r) in
  match findContactByKey (Dedupe.db d) key with
  | Some c0 =>
      findContactByKey db' key
      = Some (withStatus st (orNull r)
                (match st with sent => Some now | _ => sent_at c0 end) c0)
  | None => db' = Dedupe.db d
  end.
Proof.
  cbv zeta. unfold Dedupe.updateContactStatus.
  fold (dedupKey (Dedupe.dedupeConfig d) k).
  cbn [Dedupe.withDb Dedupe.db].
  destruct (findContactByKey (Dedupe.db d)
              (dedupKey (Dedupe.dedupeConfig d) k)) as [c0|] eqn:Hfind.
  - destruct (updateContactStatus_found now (Dedupe.db d) _ st r c0 Hfind)
      as (i & _ & _ & Hround). exact Hround.
  - unfold findContactByKey in Hfind. unfold updateContactStatus.
    apply find_list_find in Hfind. now rewrite Hfind.
Qed.

(** X28. The ledger has pending contacts and the cycle takes the head
    of the batch, a contact that is not in the Sent History and has a
    lead description; its message is composed, and [getUserInfo] finds
    nobody behind its key.  Then no delivery call is made, and
    the status update goes to the first record that carries the
    normalised key of the contact: it ends failed, with a reason that
    [requeueFailed] treats as permanent.  When no record carries the
    normalised key (the stored key has capitals, say), the ledger is
    left as it was. *)
Theorem unknown_account_is_a_permanent_failure
    (s : OutreachSender) (c : Contact) (rest : list Contact)
    (d text : string) :
  Dedupe.getContactsForSending (contactDeduper s) contactsBatchSize
    = c :: rest ->
  SentHistory.isAlreadySent (sentHistory s) (contact_key c) = false ->
  lead_description c = Some d ->
  composeMessage (leadContextOf c d) = Ok text ->
  getUserInfo (contact_key c) = Ok false ->
  let out := processNextTask composeMessage getUserInfo sendMessage now s in
  let key := dedupKey (Dedupe.dedupeConfig (contactDeduper s))
               (contact_key c) in
  let db := Dedupe.db (contactDeduper s) in
  let db' := Dedupe.db (contactDeduper (sender out)) in
  countSends (trace out) = 0%nat
  /\ match findContactByKey db key with
     | Some c0 =>
         exists c',
           findContactByKey db' key = Some c'
           /\ c' = withStatus failed
                     (Some (entityNotFound (contact_key c))) (sent_at c0) c0
           /\ isPermanentFailure c' = true
     | None => db' = db
     end.
Proof.
  intros Hget Hsent Hdescr Hcompose Huser out key db db'.
  assert (sendToContact composeMessage getUserInfo sendMessage now s c
          = (failure (contact_key c) (entityNotFound (contact_key c)) 0, s,
             [EvCompose (leadContextOf c d);
              EvGetUserInfo (contact_key c)])) as Hsend.
  { unfold sendToContact. rewrite Hsent, Hdescr.
    unfold leadContextOf in Hcompose. rewrite Hcompose, Huser.
    reflexivity. }
  destruct (processNextTask_head s c rest Hget _ _ _ Hsend)
    as (_ & _ & [r Htrace] & Hsender).
  fold out in Htrace, Hsender. rewrite Htrace, countSends_report.
  split; [reflexivity|].
  subst db'. rewrite Hsender.
  cbn [failure error success]. rewrite entityNotFound_not_duplicate.
  cbn [withDeduper contactDeduper].
  pose proof (dedupe_update (contactDeduper s) (contact_key c) failed
                (Some (entityNotFound (contact_key c)))) as Hupd.
  cbv zeta in Hupd. fold key db in Hupd |- *.
  destruct (findContactByKey db key) as [c0|]; [|exact Hupd].
  eexists. split; [exact Hupd|]. split; [reflexivity|].
  unfold isPermanentFailure. cbn [withStatus reason orNull].
  change (JsString.isEmpty (entityNotFound (contact_key c))) with false.
  cbn [negb andb]. apply entityNotFound_permanent.
Qed.

(** X29. The ledger has pending contacts and the cycle takes the head
    of the batch, a contact of which the Sent History holds nothing and
    which has a lead description; its message is composed,
    [getUserInfo] finds its account, and the delivery client answers
    with success and no error.  Then the cycle has made exactly
    one delivery call, the checkpoint counts one more contact, the
    first record that carries the normalised key of the contact ends
    as sent at the current time (the ledger is left as it was when
    there is no such record), and from then on [sendToContact] answers
    DUPLICATE_CONTACT for every record whose key the Sent History
    normalises to the same key, without calling anything. *)
Theorem delivered_contact_is_not_sent_again
    (s : OutreachSender) (c : Contact) (rest : list Contact)
    (d text : string) (res : SendResult) :
  Dedupe.getContactsForSending (contactDeduper s) contactsBatchSize
    = c :: rest ->
  SentHistory.getSentInfo (sentHistory s) (contact_key c) = None ->
  lead_description c = Some d ->
  composeMessage (leadContextOf c d) = Ok text ->
  getUserInfo (contact_key c) = Ok true ->
  sendMessage (contact_key c) text = Ok res ->
  sr_success res = true ->
  sr_error res = None ->
  let out := processNextTask composeMessage getUserInfo sendMessage now s in
  let key := dedupKey (Dedupe.dedupeConfig (contactDeduper s))
               (contact_key c) in
  let db := Dedupe.db (contactDeduper s) in
  let db' := Dedupe.db (contactDeduper (sender out)) in
  countSends (trace out) = 1%nat
  /\ processed_count (checkpoint (sender out))
     = processed_count (checkpoint s) + 1
  /\ match findContactByKey db key with
     | Some c0 =>
         findContactByKey db' key = Some (withStatus sent None (Some now) c0)
     | None => db' = db
     end
  /\ forall c2,
       SentHistory.normalizeContactKey (contact_key c2)
       = SentHistory.normalizeContactKey (contact_key c) ->
       let '(result, _, evs) :=
         sendToContact composeMessage getUserInfo sendMessage now
           (sender out) c2 in
       error result = Some DUPLICATE_CONTACT /\ evs = [].
Proof.
  intros Hget Hnew Hdescr Hcompose Huser Hdeliver Hok Herr out key db db'.
  unfold SentHistory.getSentInfo, SentHistory.read in Hnew.
  destruct (sentHistory s !! SentHistory.normalizeContactKey (contact_key c))
    as [e|] eqn:Hown; [discriminate|].
  destruct (SentHistory.inheritedName
              (SentHistory.normalizeContactKey (contact_key c))) eqn:Hname;
    [discriminate|].
  set (h' := <[SentHistory.normalizeContactKey (contact_key c) :=
                 SentHistoryStats.recorded now None (source_message_id c)]>
               (sentHistory s)).
  assert (SentHistory.recordSent now (sentHistory s) (contact_key c)
            (source_message_id c) = Some h') as Hrec.
  { unfold SentHistory.recordSent, SentHistory.read.
    now rewrite Hown, Hname. }
  assert (SentHistory.isAlreadySent (sentHistory s) (contact_key c) = false)
    as Hsent.
  { unfold SentHistory.isAlreadySent, SentHistory.read.
    now rewrite Hown, Hname. }
  set (s' := {| contactDeduper := contactDeduper s;
                sentHistory := h';
                checkpoint := updateProgress (contact_key c) true
                                (checkpoint s) |}).
  set (result := {| r_contactKey := contact_key c; success := true;
                    messageId := sr_messageId res; error := None;
                    attempts := 1 |}).
  assert (sendToContact composeMessage getUserInfo sendMessage now s c
          = (result, s',
             [EvCompose (leadContextOf c d); EvGetUserInfo (contact_key c);
              EvSendMessage (contact_key c) text])) as Hsend.
  { unfold sendToContact. rewrite Hsent, Hdescr.
    unfold leadContextOf in Hcompose. rewrite Hcompose, Huser, Hdeliver.
    cbn [success]. rewrite Hok, Herr, Hrec. reflexivity. }
  destruct (processNextTask_head s c rest Hget _ _ _ Hsend)
    as (_ & _ & [r Htrace] & Hsender).
  fold out in Htrace, Hsender.
  cbn [result error success errorIs] in Hsender.
  change (contactDeduper s') with (contactDeduper s) in Hsender.
  subst db'. rewrite Hsender.
  split; [rewrite Htrace, countSends_report; reflexivity|].
  split; [reflexivity|]. split.
  - cbn [withDeduper contactDeduper].
    pose proof (dedupe_update (contactDeduper s) (contact_key c) sent None)
      as Hupd.
    cbv zeta in Hupd. fold key db in Hupd |- *. exact Hupd.
  - intros c2 Hc2. unfold sendToContact.
    cbn [withDeduper sentHistory s'].
    assert (SentHistory.isAlreadySent h' (contact_key c2) = true) as Hnow.
    { unfold SentHistory.isAlreadySent, SentHistory.read. subst h'.
      rewrite Hc2, lookup_insert_eq. reflexivity. }
    rewrite Hnow. split; reflexivity.
Qed.
End CycleSafety.

Lemma ensured_task_is_processed_witness :
  let out := Send.processNextTask SendTasks.composeHello SendTasks.anybody
               SendTasks.deliver 1700000000000
               (snd (SendTasks.ensureTasksAvailable SendTasks.ghostState)) in
  Send.worked out = true /\ exists c r, Send.taken out = Some (c, r).
Proof.
  apply (ensured_task_is_processed SendTasks.composeHello SendTasks.anybody
           SendTasks.deliver 1700000000000 SendTasks.ghostState).
  reflexivity.
Defined.

Lemma unknown_account_is_a_permanent_failure_witness :
  let out := Send.processNextTask SendTasks.composeHello SendTasks.nobody
               SendTasks.deliver 1700000000000 SendTasks.ghostState in
  let key := Keys.dedupKey
               (Dedupe.dedupeConfig (Send.contactDeduper SendTasks.ghostState))
               (JsonDb.contact_key SendTasks.ghost) in
  let db := Dedupe.db (Send.contactDeduper SendTasks.ghostState) in
  let db' := Dedupe.db (Send.contactDeduper (Send.sender out)) in
  SendTasks.countSends (Send.trace out) = 0%nat
  /\ match JsonDb.findContactByKey db key with
     | Some c0 =>
         exists c',
           JsonDb.findContactByKey db' key = Some c'
           /\ c' = JsonDb.withStatus JsonDb.failed
                     (Some (Send.entityNotFound
                              (JsonDb.contact_key SendTasks.ghost)))
                     (JsonDb.sent_at c0) c0
           /\ JsonDb.isPermanentFailure c' = true
     | None => db' = db
     end.
Proof.
  apply (unknown_account_is_a_permanent_failure SendTasks.composeHello
           SendTasks.nobody SendTasks.deliver 1700000000000
           SendTasks.ghostState SendTasks.ghost []
           "need a landing page" "hello"); reflexivity.
Defined.

Lemma delivered_contact_is_not_sent_again_witness :
  let out := Send.processNextTask SendTasks.composeHello SendTasks.anybody
               SendTasks.deliver 1700000000000 SendTasks.ghostState in
  let key := Keys.dedupKey
               (Dedupe.dedupeConfig (Send.contactDeduper SendTasks.ghostState))
               (JsonDb.contact_key SendTasks.ghost) in
  let db := Dedupe.db (Send.contactDeduper SendTasks.ghostState) in
  let db' := Dedupe.db (Send.contactDeduper (Send.sender out)) in
  SendTasks.countSends (Send.trace out) = 1%nat
  /\ Send.processed_count (Send.checkpoint (Send.sender out))
     = Send.processed_count (Send.checkpoint SendTasks.ghostState) + 1
  /\ match JsonDb.findContactByKey db key with
     | Some c0 =>
         JsonDb.findContactByKey db' key
         = Some (JsonDb.withStatus JsonDb.sent None (Some 1700000000000) c0)
     | None => db' = db
     end
  /\ forall c2,
       SentHistory.normalizeContactKey (JsonDb.contact_key c2)
       = SentHistory.normalizeContactKey (JsonDb.contact_key SendTasks.ghost) ->
       let '(result, _, evs) :=
         Send.sendToContact SendTasks.composeHello SendTasks.anybody
           SendTasks.deliver 1700000000000 (Send.sender out) c2 in
       Send.error result = Some Send.DUPLICATE_CONTACT /\ evs = [].
Proof.
  apply (delivered_contact_is_not_sent_again SendTasks.composeHello
           SendTasks.anybody SendTasks.deliver 1700000000000
           SendTasks.ghostState SendTasks.ghost []
           "need a landing page" "hello" SendTasks.delivered);
    reflexivity.
Defined.

(** A contact whose key reads an inherited object in the Sent History:
    the message is delivered, [recordSent] throws, and the cycle records
    a failure with a reason that is not permanent; the Sent History and
    the checkpoint are left as they were, so that after a requeue the
    contact is delivered to again. *)
Example inherited_key_is_delivered_and_failed :
  let s := {| Send.contactDeduper :=
                {| Dedupe.db := JsonDb.ledger
                                  [JsonDb.sample "constructor" JsonDb.pending
                                     None];
                   Dedupe.dedupeConfig := Keys.defaultDedupe |};
              Send.sentHistory := ∅;
              Send.checkpoint := Send.checkpoint SendTasks.ghostState |} in
  let out := Send.processNextTask SendTasks.composeHello SendTasks.anybody
               SendTasks.deliver 1700000000000 s in
  SendTasks.countSends (Send.trace out) = 1%nat
  /\ Send.sentHistory (Send.sender out) = ∅
  /\ Send.checkpoint (Send.sender out) = Send.checkpoint s
  /\ JsonDb.contacts (Dedupe.db (Send.contactDeduper (Send.sender out)))
     = [JsonDb.sample "constructor" JsonDb.failed (Some Send.undefinedPush)]
  /\ JsonDb.isPermanentFailure
       (JsonDb.sample "constructor" JsonDb.failed (Some Send.undefinedPush))
     = false.
Proof. vm_compute. auto 6. Qed.

(** ** The key read off a peer name *)

Section PeerNames.
Import JsString ScannerKeys.

Ltac by_char c :=
  destruct c as [[] [] [] [] [] [] [] []]; vm_compute; congruence.

Lemma lowered_word_is_key c :
  isWordChar (toLowerChar c) = true -> isKeyChar (toLowerChar c) = true.
Proof. by_char c. Qed.

Lemma key_is_lower c : isKeyChar c = true -> toLowerChar c = c.
Proof. by_char c. Qed.

Lemma key_is_kept c :
  isKeyChar c = true -> isWordChar c || Ascii.eqb c Util.at_sign = true.
Proof. by_char c. Qed.

Lemma key_is_word c : isKeyChar c = true -> isWordChar c = true.
Proof. by_char c. Qed.

Lemma key_not_blank c : isKeyChar c = true -> isWhiteSpace c = false.
Proof. by_char c. Qed.

Lemma key_not_at c : isKeyChar c = true -> Ascii.eqb c Util.at_sign = false.
Proof. by_char c. Qed.

Lemma key_not_U c : isKeyChar c = true -> Ascii.eqb c "U" = false.
Proof. by_char c. Qed.

Lemma lowered_all_keys s :
  allChars isWordChar (toLowerCase s) = true ->
  allChars isKeyChar (toLowerCase s) = true.
Proof.
  induction s as [|c r IH]; cbn [toLowerCase allChars]; [easy|].
  intros H. apply andb_true_iff in H as [Hc Hr].
  now rewrite (lowered_word_is_key c Hc), IH.
Qed.

Lemma keys_lower s : allChars isKeyChar s = true -> toLowerCase s = s.
Proof.
  induction s as [|c r IH]; cbn [toLowerCase allChars]; [easy|].
  intros H. apply andb_true_iff in H as [Hc Hr].
  now rewrite (key_is_lower c Hc), IH.
Qed.

Lemma keys_kept s :
  allChars isKeyChar s = true ->
  keep (fun c => isWordChar c || Ascii.eqb c Util.at_sign) s = s.
Proof.
  induction s as [|c r IH]; cbn [keep allChars]; [easy|].
  intros H. apply andb_true_iff in H as [Hc Hr].
  now rewrite (key_is_kept c Hc), IH.
Qed.

Lemma keys_words s :
  allChars isKeyChar s = true -> allChars isWordChar s = true.
Proof.
  induction s as [|c r IH]; cbn [allChars]; [easy|].
  intros H. apply andb_true_iff in H as [Hc Hr].
  now rewrite (key_is_word c Hc), IH.
Qed.

Lemma keys_trimEnd s : allChars isKeyChar s = true -> trimEnd s = s.
Proof.
  induction s as [|c r IH]; cbn [trimEnd allChars]; [easy|].
  intros H. apply andb_true_iff in H as [Hc Hr].
  now rewrite (key_not_blank c Hc), IH.
Qed.

Lemma keys_trim s : allChars isKeyChar s = true -> trim s = s.
Proof.
  intros H. unfold trim.
  assert (trimStart s = s) as ->.
  { destruct s as [|c r]; [reflexivity|]. cbn [allChars] in H.
    apply andb_true_iff in H as [Hc _]. cbn [trimStart].
    now rewrite (key_not_blank c Hc). }
  now apply keys_trimEnd.
Qed.

(** X30. A key that [extractUsernameFromPeerName] reads off a peer name
    has 5 to 32 characters, all of them lower-case letters, digits or
    underscores; the Sent History's normalisation leaves it as it is,
    and so does the extraction itself. *)
Theorem peer_name_key_is_normal (peerName username : string) :
  extractUsernameFromPeerName peerName = Some username ->
  (5 <= String.length username <= 32)%nat
  /\ allChars isKeyChar username = true
  /\ SentHistory.normalizeContactKey username = username
  /\ extractUsernameFromPeerName username = Some username.
Proof.
  unfold extractUsernameFromPeerName at 1.
  destruct (isEmpty peerName || String.eqb peerName "Unknown");
    [discriminate|].
  cbv zeta.
  set (clean := toLowerCase (keep _ peerName)).
  destruct ((5 <=? Z.of_nat (String.length clean))
            && (Z.of_nat (String.length clean) <=? 32)
            && isUsername clean) eqn:Hok; [|discriminate].
  intros [= <-].
  apply andb_true_iff in Hok as [Hlen Huser].
  apply andb_true_iff in Hlen as [Hlo Hhi].
  apply Z.leb_le in Hlo, Hhi.
  unfold isUsername in Huser. apply andb_true_iff in Huser as [Hne Hword].
  assert (allChars isKeyChar clean = true) as Hkeys
      by (subst clean; now apply lowered_all_keys).
  clearbody clean.
  assert (exists c r, clean = String c r /\ isKeyChar c = true)
    as (c & r & Hclean & Hc).
  { destruct clean as [|c r]; [discriminate|]. exists c, r.
    cbn [allChars] in Hkeys. apply andb_true_iff in Hkeys as [Hc _].
    now split. }
  split; [lia|]. split; [exact Hkeys|]. split.
  - unfold SentHistory.normalizeContactKey.
    rewrite (keys_lower _ Hkeys), (keys_trim _ Hkeys).
    rewrite Hclean. cbn [isEmpty startsWithChar].
    now rewrite (key_not_at c Hc).
  - unfold extractUsernameFromPeerName.
    rewrite (keys_kept _ Hkeys), (keys_lower _ Hkeys).
    unfold isUsername. rewrite Hne, (keys_words _ Hkeys).
    apply Z.leb_le in Hlo, Hhi. rewrite Hlo, Hhi.
    rewrite Hclean at 1 2. cbn [isEmpty String.eqb].
    now rewrite (key_not_U c Hc).
Qed.

Lemma peer_name_key_is_normal_witness :
  (5 <= String.length "ivan_devdev" <= 32)%nat
  /\ allChars isKeyChar "ivan_devdev" = true
  /\ SentHistory.normalizeContactKey "ivan_devdev" = "ivan_devdev"
  /\ extractUsernameFromPeerName "ivan_devdev" = Some "ivan_devdev".
Proof.
  apply (peer_name_key_is_normal "Ivan_Dev (dev)!" "ivan_devdev").
  reflexivity.
Defined.
End PeerNames.
